(** * Light-client core of the ledger: proofs, transactions, counters

    A shallow embedding of the TypeScript sources
    - [src/lib/cothority/byzcoin/proof.ts] (trust chain and trie walk),
    - [src/lib/cothority/byzcoin/client-transaction.ts], kept in the second
      half of [instance.ts] (instructions, hashing, signing, replay counters),
    - [src/lib/cothority/byzcoin/byzcoin-rpc.ts] (proof and counter queries,
      sending transactions; and, kept in the same file, the wire format of
      ring signatures and the attendee list of [PopPartyInstance]),
    - [src/lib/cothority/byzcoin/instance.ts] (instances),
    - [src/lib/cothority/darc/identity-darc.ts] (delegated identities),
    - [src/lib/cothority/darc/rules.ts] (rules of access-control objects),
    - the class [CoinInstance] (coin instances),
    followed by the properties of these operations.

    Conventions.  A [Buffer] is a list of bytes.  A JavaScript string is kept
    as the list of bytes of its UTF-8 encoding (a Rocq [string]), which is what
    [Buffer.from(s)] and [hash.update(s)] consume.  A [Long] is an integer
    modulo 2^64.  A thrown exception or a rejected promise is the [Throw] case
    of a result type. *)

From Stdlib Require Import ZArith List Bool Lia.
From Stdlib.Strings Require Import String Ascii Byte.
From stdpp Require Import gmap strings list fin_maps.

Local Open Scope Z_scope.

Abbreviation Buffer := (list Byte.byte).

(** ** Bytes and fixed-width integers *)

Definition byte_of_Z (z : Z) : Byte.byte :=
  match Byte.of_N (Z.to_N (z mod 256)) with
  | Some b => b
  | None => Byte.x00
  end.

Definition Z_of_byte (b : Byte.byte) : Z := Z.of_N (Byte.to_N b).

(** [n] bytes of [z], least significant byte first. *)
Fixpoint bytesLE (n : nat) (z : Z) : Buffer :=
  match n with
  | O => []
  | S k => byte_of_Z z :: bytesLE k (Z.shiftr z 8)
  end.

(** [n] bytes of [z], most significant byte first. *)
Definition bytesBE (n : nat) (z : Z) : Buffer := rev (bytesLE n z).

(** The unsigned integer held by big-endian bytes. *)
Definition Z_of_bytesBE (bs : Buffer) : Z :=
  fold_left (fun acc b => Z.lor (Z.shiftl acc 8) (Z_of_byte b)) bs 0.

(** ** SHA-256 (node's [createHash('sha256')]), FIPS 180-4 *)

Module SHA256.

Definition w32 (x : Z) : Z := x mod 2 ^ 32.
Definition add32 (x y : Z) : Z := w32 (x + y).
Definition rotr (n x : Z) : Z :=
  w32 (Z.lor (Z.shiftr x n) (Z.shiftl x (32 - n))).
Definition not32 (x : Z) : Z := Z.lxor x 0xffffffff.

Definition Ch (x y z : Z) : Z := Z.lxor (Z.land x y) (Z.land (not32 x) z).
Definition Maj (x y z : Z) : Z :=
  Z.lxor (Z.lxor (Z.land x y) (Z.land x z)) (Z.land y z).
Definition Sigma0 (x : Z) : Z :=
  Z.lxor (Z.lxor (rotr 2 x) (rotr 13 x)) (rotr 22 x).
Definition Sigma1 (x : Z) : Z :=
  Z.lxor (Z.lxor (rotr 6 x) (rotr 11 x)) (rotr 25 x).
Definition sigma0 (x : Z) : Z :=
  Z.lxor (Z.lxor (rotr 7 x) (rotr 18 x)) (Z.shiftr x 3).
Definition sigma1 (x : Z) : Z :=
  Z.lxor (Z.lxor (rotr 17 x) (rotr 19 x)) (Z.shiftr x 10).

(** The round constants are the first 32 bits of the fractional parts of the
    cube roots of the first 64 primes; the initial hash value holds those of
    the square roots of the first 8 primes. *)
Definition is_prime (n : nat) : bool :=
  forallb (fun d => negb (n mod d =? 0)%nat) (seq 2 (n - 2)).

Definition primes : list Z :=
  map Z.of_nat (firstn 64 (List.filter is_prime (seq 2 310))).

(** The integer cube root, by bisection between [lo] and [hi]. *)
Fixpoint cube_root (fuel : nat) (lo hi n : Z) : Z :=
  match fuel with
  | O => lo
  | S f =>
      let mid := (lo + hi + 1) / 2 in
      if mid * mid * mid <=? n then cube_root f mid hi n
      else cube_root f lo (mid - 1) n
  end.

Definition K : list Z :=
  map (fun p => w32 (cube_root 36 0 (2 ^ 35) (p * 2 ^ 96))) primes.

Definition H0 : list Z :=
  map (fun p => w32 (Z.sqrt (p * 2 ^ 64))) (firstn 8 primes).

(** Padding: a [0x80] byte, zeros up to 56 modulo 64, then the bit length
    on eight big-endian bytes. *)
Definition pad (msg : Buffer) : Buffer :=
  let len := Z.of_nat (length msg) in
  let zeros := Z.to_nat ((55 - len) mod 64) in
  msg ++ Byte.x80 :: repeat Byte.x00 zeros ++ bytesBE 8 (8 * len).

(** The big-endian 32-bit words of a buffer. *)
Fixpoint words (fuel : nat) (bs : Buffer) : list Z :=
  match fuel, bs with
  | S f, a :: b :: c :: d :: rest => Z_of_bytesBE [a; b; c; d] :: words f rest
  | _, _ => []
  end.

(** The message schedule, most recent word first. *)
Fixpoint schedule (n : nat) (w : list Z) : list Z :=
  match n with
  | O => w
  | S k =>
      let x := add32 (add32 (sigma1 (nth 1 w 0)) (nth 6 w 0))
                     (add32 (sigma0 (nth 14 w 0)) (nth 15 w 0)) in
      schedule k (x :: w)
  end.

Record regs := Regs { ra : Z; rb : Z; rc : Z; rd : Z;
                      re : Z; rf : Z; rg : Z; rh : Z }.

Definition round (s : regs) (kw : Z * Z) : regs :=
  let t1 := add32 (add32 (add32 (rh s) (Sigma1 (re s)))
                         (add32 (Ch (re s) (rf s) (rg s)) (fst kw)))
                  (snd kw) in
  let t2 := add32 (Sigma0 (ra s)) (Maj (ra s) (rb s) (rc s)) in
  Regs (add32 t1 t2) (ra s) (rb s) (rc s) (add32 (rd s) t1) (re s) (rf s) (rg s).

Definition regs_of (h : list Z) : regs :=
  Regs (nth 0 h 0) (nth 1 h 0) (nth 2 h 0) (nth 3 h 0)
       (nth 4 h 0) (nth 5 h 0) (nth 6 h 0) (nth 7 h 0).

Definition compress (h : list Z) (block : list Z) : list Z :=
  let w := rev (schedule 48 (rev block)) in
  let s := fold_left round (combine K w) (regs_of h) in
  [ add32 (nth 0 h 0) (ra s); add32 (nth 1 h 0) (rb s);
    add32 (nth 2 h 0) (rc s); add32 (nth 3 h 0) (rd s);
    add32 (nth 4 h 0) (re s); add32 (nth 5 h 0) (rf s);
    add32 (nth 6 h 0) (rg s); add32 (nth 7 h 0) (rh s) ].

Fixpoint blocks (fuel : nat) (h : list Z) (ws : list Z) : list Z :=
  match fuel with
  | O => h
  | S f =>
      match ws with
      | [] => h
      | _ => blocks f (compress h (firstn 16 ws)) (skipn 16 ws)
      end
  end.

Definition digest (msg : Buffer) : Buffer :=
  let p := pad msg in
  let ws := words (length p) p in
  concat (map (bytesBE 4) (blocks (length ws) H0 ws)).

End SHA256.

Definition sha256 (msg : Buffer) : Buffer := SHA256.digest msg.

(** Lower-case hexadecimal, as [buf.toString('hex')]. *)
Definition hex_digit (n : Z) : ascii :=
  ascii_of_nat (Z.to_nat (if n <? 10 then 48 + n else 87 + n)).

Fixpoint to_hex (bs : Buffer) : string :=
  match bs with
  | [] => EmptyString
  | b :: rest =>
      String (hex_digit (Z_of_byte b / 16))
        (String (hex_digit (Z_of_byte b mod 16)) (to_hex rest))
  end.

Definition utf8 (s : string) : Buffer := list_byte_of_string s.


(** [Buffer.equals]. *)
Fixpoint equals (a b : Buffer) : bool :=
  match a, b with
  | [], [] => true
  | x :: a', y :: b' => Byte.eqb x y && equals a' b'
  | _, _ => false
  end.

(** ** Results of operations that may throw *)

Inductive result (A : Type) : Type :=
  | Return (a : A)
  | Throw (msg : string).
Arguments Return {A} a.
Arguments Throw {A} msg.

#[global] Instance result_ret : MRet result := fun A a => Return a.
#[global] Instance result_bind : MBind result := fun A B f m =>
  match m with
  | Return a => f a
  | Throw msg => Throw msg
  end.

#[global] Instance result_fmap : FMap result := fun A B f m =>
  match m with
  | Return a => Return (f a)
  | Throw msg => Throw msg
  end.

(** Reading a property of [undefined]. *)
Definition TypeError : string := "TypeError".

(** ** The hash object of node's [crypto]: [createHash], [update], [digest] *)

Definition createHash : Buffer := [].
Definition update (h : Buffer) (data : Buffer) : Buffer := h ++ data.
Definition digest (h : Buffer) : Buffer := sha256 h.

(** ** Inclusion proofs ([proof.ts]) *)

Record InteriorNode := { left : Buffer; right : Buffer }.
Record EmptyNode := { empty_prefix : list bool }.
Record LeafNode := { leaf_prefix : list bool; leaf_key : Buffer; leaf_value : Buffer }.
Record InclusionProof := {
  interiors : list InteriorNode;
  leaf : LeafNode;
  empty : EmptyNode;
  nonce : Buffer
}.

(** [hashToBits]: bit [i] is
    [((hash[i >> 3] << (i % 8)) & (1 << 7)) > 0]. *)
Definition hashToBits (key : Buffer) : list bool :=
  let hash := digest (update createHash key) in
  map (fun i : nat =>
         let byte := Z_of_byte (nth (Nat.shiftr i 3) hash Byte.x00) in
         Z.land (Z.shiftl byte (Z.of_nat (i mod 8))) (Z.shiftl 1 7) >? 0)
      (seq 0 (length hash * 8)).

(** [boolToBuffer]: [buf[i >> 3] |= (1 << 7) >> (i % 8)] for every set bit. *)
Definition boolToBuffer (bits : list bool) : Buffer :=
  fold_left
    (fun (buf : Buffer) (i : nat) =>
       if nth i bits false then
         let j := Nat.shiftr i 3 in
         <[ j := byte_of_Z (Z.lor (Z_of_byte (nth j buf Byte.x00))
                                  (Z.shiftr (Z.shiftl 1 7) (Z.of_nat (i mod 8)))) ]> buf
       else buf)
    (seq 0 (length bits))
    (repeat Byte.x00 (Nat.shiftr (length bits + 7) 3)).

(** [writeIntLE(n, 0, 4)] into a fresh four-byte buffer.  The buffers and
    arrays of the runtime hold fewer than 2^31 elements, so that no length
    written here or by [writeUInt32LE] is out of range. *)
Definition int32LE (n : nat) : Buffer := bytesLE 4 (Z.of_nat n).

(** [hashInterior(index)]; reading [interiors[index]] out of range throws. *)
Definition hashInterior (ip : InclusionProof) (index : nat) : result Buffer :=
  match interiors ip !! index with
  | Some node =>
      let h := createHash in
      let h := update h (left node) in
      let h := update h (right node) in
      Return (digest h)
  | None => Throw TypeError
  end.

Definition hashLeaf (ip : InclusionProof) : Buffer :=
  let h := createHash in
  let h := update h [Byte.x03] in
  let h := update h (nonce ip) in
  let prefix := boolToBuffer (leaf_prefix (leaf ip)) in
  let h := update h prefix in
  let h := update h (int32LE (length (leaf_prefix (leaf ip)))) in
  let h := update h (leaf_key (leaf ip)) in
  let h := update h (leaf_value (leaf ip)) in
  digest h.

Definition hashEmpty (ip : InclusionProof) : Buffer :=
  let h := createHash in
  let h := update h [Byte.x02] in
  let h := update h (nonce ip) in
  let prefix := boolToBuffer (empty_prefix (empty ip)) in
  let h := update h prefix in
  let h := update h (int32LE (length (empty_prefix (empty ip)))) in
  digest h.

(** lodash's [_.difference(array, values)]: the elements of [array] that do
    not occur in [values], in the order of [array]. *)
Definition difference (array values : list bool) : list bool :=
  List.filter (fun x => negb (existsb (Bool.eqb x) values)) array.

(** The loop of [exists]: at depth [i] the expected hash must be the hash of
    interior node [i]; then the walk goes left when [bits[i]] is set and right
    otherwise.  [fuel] is the number of iterations left. *)
Fixpoint exists_loop (ip : InclusionProof) (bits : list bool)
    (fuel i : nat) (expectedHash : Buffer) : result Buffer :=
  match fuel with
  | O => Return expectedHash
  | S fuel' =>
      hi ← hashInterior ip i;
      if negb (equals expectedHash hi) then Throw "invalid interior node"
      else
        match interiors ip !! i with
        | Some node =>
            exists_loop ip bits fuel' (S i)
              (if nth i bits false then left node else right node)
        | None => Throw TypeError
        end
  end.

(** [Proof.exists(key)], on the inclusion proof of the proof. *)
Definition Proof_exists (ip : InclusionProof) (key : Buffer) : result bool :=
  if (length key =? 0)%nat then Throw "key is nil"
  else if (length (interiors ip) =? 0)%nat then Throw "no interior node"
  else
    let bits := hashToBits key in
    expectedHash ← hashInterior ip 0;
    let i := length (interiors ip) in
    expectedHash ← exists_loop ip bits (length (interiors ip)) 0 expectedHash;
    if equals expectedHash (hashLeaf ip) then
      if negb (length (difference (firstn i bits) (leaf_prefix (leaf ip))) =? 0)%nat
      then Throw "invalid prefix in leaf node"
      else Return (equals (leaf_key (leaf ip)) key)
    else if equals expectedHash (hashEmpty ip) then
      if negb (length (difference (firstn i bits) (empty_prefix (empty ip))) =? 0)%nat
      then Throw "invalid prefix in empty node"
      else Return false
    else Throw "no corresponding leaf/empty node with respect to the interior node".

(** ** The chain of forward links ([Proof.verify]) *)

Section Skipchain.

(** The skipchain classes ([skipchain/skipblock.ts], [network/proto.ts],
    [proto/data-header.ts]) are not among the sources: rosters and public
    keys are abstract, and the methods that [verify] calls are parameters. *)
Context {Roster Publics : Type}.

(** Modelled from the spec: the class [SkipBlock], a block header with its
    hash, its roster and its payload; these are the fields [verify] reads. *)
Record SkipBlock := {
  hash : Buffer;
  data : Buffer;
  roster : Roster
}.

(** Modelled from the spec: the class [ForwardLink],
    [{from, to, newRoster?, signature}]. *)
Record ForwardLink := {
  from : Buffer;
  to : Buffer;
  newRoster : option Roster;
  signature : Buffer
}.

Record Proof := {
  inclusionproof : InclusionProof;
  latest : SkipBlock;
  links : list ForwardLink
}.

(** [SkipBlock.computeHash()]. *)
Variable computeHash : SkipBlock -> Buffer.
(** [DataHeader.decode(data).trieRoot]; decoding may throw. *)
Variable DataHeader_decode_trieRoot : Buffer -> result Buffer.
(** [roster.getServicePublics(name)] and [SkipchainRPC.serviceName]. *)
Variable getServicePublics : Roster -> string -> Publics.
Variable serviceName : string.
(** [link.verify(publics)]: [None] for [null], else the error's message. *)
Variable link_verify : ForwardLink -> Publics -> option string.

(** The loop over [links[1..]]: the error message returned from inside the
    loop, or the value of [prev] after it. *)
Fixpoint verify_links (ls : list ForwardLink) (publics : Publics)
    (prev : Buffer) : string + Buffer :=
  match ls with
  | [] => inr prev
  | link :: rest =>
      match link_verify link publics with
      | Some err => inl ("invalid forward link signature: " ++ err)%string
      | None =>
          if negb (equals (from link) prev)
          then inl "invalid chain of forward links"%string
          else
            let prev := to link in
            let publics :=
              match newRoster link with
              | Some r => getServicePublics r serviceName
              | None => publics
              end in
            verify_links rest publics prev
      end
  end.

(** [Proof.verify(genesisID)]: [Return None] is [null] (no error),
    [Return (Some msg)] a returned [Error]. *)
Definition Proof_verify (p : Proof) (genesisID : Buffer) : result (option string) :=
  if negb (equals (computeHash (latest p)) (hash (latest p)))
  then Return (Some "invalid latest block"%string)
  else
    trieRoot ← DataHeader_decode_trieRoot (data (latest p));
    h0 ← hashInterior (inclusionproof p) 0;
    if negb (equals h0 trieRoot) then Return (Some "invalid root"%string)
    else
      let publics := getServicePublics (roster (latest p)) serviceName in
      match links p !! 0%nat with
      | None => Throw TypeError
      | Some l0 =>
          let prev := to l0 in
          if negb (equals prev genesisID)
          then Return (Some "first link must come from the genesis block"%string)
          else
            match verify_links (skipn 1 (links p)) publics prev with
            | inl msg => Return (Some msg)
            | inr prev =>
                if negb (equals prev (hash (latest p)))
                then Return (Some "last forward link does not point to the latest block"%string)
                else Return None
            end
      end.

(** The service keys against which link [k] is checked: those of the latest
    block's roster, until a link in [links[1..k-1]] carries a new roster. *)
Fixpoint trusted (p : Proof) (k : nat) : Publics :=
  match k with
  | O => getServicePublics (roster (latest p)) serviceName
  | S j =>
      match j, links p !! j with
      | S _, Some {| newRoster := Some r |} => getServicePublics r serviceName
      | _, _ => trusted p j
      end
  end.

(** Link [k] passes: its signature verifies against the keys trusted at
    [k], and it starts where link [k - 1] ends. *)
Definition link_passes (p : Proof) (k : nat) (link : ForwardLink) : Prop :=
  link_verify link (trusted p k) = None /\
  exists before, links p !! (k - 1)%nat = Some before /\ from link = to before.

(** Steps (1) and (2) of [verify]: the latest block carries its own hash,
    and its payload names the hash of interior node 0 as the trie root. *)
Definition rooted (p : Proof) : Prop :=
  computeHash (latest p) = hash (latest p) /\
  exists root,
    DataHeader_decode_trieRoot (data (latest p)) = Return root /\
    hashInterior (inclusionproof p) 0 = Return root.

End Skipchain.

Arguments SkipBlock : clear implicits.
Arguments ForwardLink : clear implicits.
Arguments Proof : clear implicits.

(** ** Identities ([darc/identity-darc.ts], [darc/signer.ts]) *)

(** Identity based on a DARC identifier. *)
Record IdentityDarc := { id : Buffer }.

Definition IdentityDarc_verify (d : IdentityDarc) (msg sig : Buffer) : bool := false.
Definition IdentityDarc_toBytes (d : IdentityDarc) : Buffer := id d.
Definition IdentityDarc_toString (d : IdentityDarc) : string :=
  ("darc:" ++ to_hex (id d))%string.

(** Modelled from the spec: the class [IdentityWrapper] of
    [darc/identity-wrapper.ts], which is not among the sources.  A wrapper
    holds one identity: the delegated identity that [IdentityDarc.toWrapper]
    stores in it, or a direct key.  Its [toBytes] is the encoding of the
    identity it holds, the [encoded] of the canonical instruction hash. *)
Inductive IdentityWrapper :=
  | wrap_darc (darc : IdentityDarc)
  | wrap_ed25519 (public : Buffer).

Definition IdentityWrapper_toBytes (w : IdentityWrapper) : Buffer :=
  match w with
  | wrap_darc d => IdentityDarc_toBytes d
  | wrap_ed25519 pub => pub
  end.

(** Modelled from the spec: the interface [IIdentity] of
    [darc/identity-wrapper.ts], with the two methods that the transaction
    code calls.  An object is given by what its methods return. *)
Record IIdentity := {
  toString : string;
  toWrapper : IdentityWrapper
}.

Definition IdentityDarc_IIdentity (d : IdentityDarc) : IIdentity :=
  {| toString := IdentityDarc_toString d; toWrapper := wrap_darc d |}.

(** Modelled from the spec: the interface [Signer] of [darc/signer.ts], an
    identity that also exposes [sign(msg)]. *)
Record Signer := {
  identity :> IIdentity;
  sign : Buffer -> Buffer
}.

(** ** 64-bit integers ([long])

    A [Long] is kept as an integer and wraps modulo 2^64; the numbers turned
    into a [Long] here are lengths, which are below 2^63. *)

Definition Long_wrap (z : Z) : Z := z mod 2 ^ 64.
Definition Long_fromNumber (n : nat) : Z := Long_wrap (Z.of_nat n).
Definition Long_add (a b : Z) : Z := Long_wrap (a + b).
Definition Long_toBytesLE (a : Z) : Buffer := bytesLE 8 a.

(** ** Instructions and client transactions ([client-transaction.ts]) *)

Record Argument := { name : string; value : Buffer }.
Record Spawn := { spawn_contractID : string; spawn_args : list Argument }.
Record Invoke := {
  command : string;
  invoke_contractID : string;
  invoke_args : list Argument
}.
Record Delete := { delete_contractID : string }.

Record Instruction := {
  spawn : option Spawn;
  invoke : option Invoke;
  delete : option Delete;
  instanceID : Buffer;
  signerCounter : list Z;
  signerIdentities : list IdentityWrapper;
  signatures : list Buffer
}.

Record ClientTransaction := { instructions : list Instruction }.

(** The getter [type]. *)
Definition Instruction_type (ins : Instruction) : result Z :=
  match spawn ins, invoke ins, delete ins with
  | Some _, _, _ => Return 0
  | None, Some _, _ => Return 1
  | None, None, Some _ => Return 2
  | None, None, None => Throw "instruction without type"
  end.

Definition createSpawn (iid : Buffer) (contractID : string) (args : list Argument)
  : Instruction :=
  {| spawn := Some {| spawn_contractID := contractID; spawn_args := args |};
     invoke := None; delete := None; instanceID := iid;
     signerCounter := []; signerIdentities := []; signatures := [] |}.

Definition createInvoke (iid : Buffer) (contractID cmd : string)
    (args : list Argument) : Instruction :=
  {| spawn := None;
     invoke := Some {| command := cmd; invoke_contractID := contractID;
                       invoke_args := args |};
     delete := None; instanceID := iid;
     signerCounter := []; signerIdentities := []; signatures := [] |}.

Definition createDelete (iid : Buffer) (contractID : string) : Instruction :=
  {| spawn := None; invoke := None;
     delete := Some {| delete_contractID := contractID |}; instanceID := iid;
     signerCounter := []; signerIdentities := []; signatures := [] |}.

(** The body of [args.forEach] in [Instruction.hash]. *)
Definition hash_arg (h : Buffer) (arg : Argument) : Buffer :=
  let nameBuf := utf8 (name arg) in
  let nameLenBuf := Long_toBytesLE (Long_fromNumber (length nameBuf)) in
  let h := update h nameLenBuf in
  let h := update h (utf8 (name arg)) in
  let valueLenBuf := Long_toBytesLE (Long_fromNumber (length (value arg))) in
  let h := update h valueLenBuf in
  update h (value arg).

Definition hash_counter (h : Buffer) (sc : Z) : Buffer :=
  update h (Long_toBytesLE sc).

Definition hash_identity (h : Buffer) (si : IdentityWrapper) : Buffer :=
  let buf := IdentityWrapper_toBytes si in
  let lenBuf := Long_toBytesLE (Long_fromNumber (length buf)) in
  let h := update h lenBuf in
  update h (IdentityWrapper_toBytes si).

(** The contract identifier and the arguments selected by the [switch]. *)
Definition type_contract_args (ins : Instruction) (type : Z)
  : option string * list Argument :=
  if type =? 0 then
    match spawn ins with
    | Some s => (Some (spawn_contractID s), spawn_args s)
    | None => (None, [])
    end
  else if type =? 1 then
    match invoke ins with
    | Some v => (Some (invoke_contractID v), invoke_args v)
    | None => (None, [])
    end
  else if type =? 2 then
    match delete ins with
    | Some d => (Some (delete_contractID d), [])
    | None => (None, [])
    end
  else (None, []).

(** The bytes fed to the hash object by [Instruction.hash], before [digest]. *)
Definition Instruction_hash_input (ins : Instruction) : result Buffer :=
  let h := createHash in
  let h := update h (instanceID ins) in
  type ← Instruction_type ins;
  let h := update h [byte_of_Z type] in
  let '(contract, args) := type_contract_args ins type in
  let h := match contract with Some c => update h (utf8 c) | None => h end in
  let h := fold_left hash_arg args h in
  let h := fold_left hash_counter (signerCounter ins) h in
  let h := fold_left hash_identity (signerIdentities ins) h in
  Return h.

(** [Instruction.hash()]. *)
Definition Instruction_hash (ins : Instruction) : result Buffer :=
  h ← Instruction_hash_input ins; Return (digest h).

(** [writeUInt32LE(n, 0)] on a four-byte buffer. *)
Definition uint32LE (n : nat) : Buffer := bytesLE 4 (Z.of_nat n).

(** [Instruction.deriveId(what)]. *)
Definition deriveId (ins : Instruction) (what : string) : result Buffer :=
  let h := createHash in
  ih ← Instruction_hash ins;
  let h := update h ih in
  let b := uint32LE (length (signatures ins)) in
  let h := update h b in
  let h := fold_left (fun h sig =>
                        let b := uint32LE (length sig) in
                        let h := update h b in
                        update h sig)
                     (signatures ins) h in
  let h := update h (utf8 what) in
  Return (digest h).

(** [Instruction.signWith(ctxHash, signers)]. *)
Definition Instruction_signWith (ins : Instruction) (ctxHash : Buffer)
    (signers : list Signer) : Instruction :=
  {| spawn := spawn ins; invoke := invoke ins; delete := delete ins;
     instanceID := instanceID ins;
     signerCounter := signerCounter ins;
     signerIdentities := signerIdentities ins;
     signatures := map (fun s => sign s ctxHash) signers |}.

(** [ClientTransaction.hash()]: each instruction hash is fed to one hash
    object, in order; an instruction that throws makes the whole call throw. *)
Fixpoint hash_instructions (h : Buffer) (l : list Instruction) : result Buffer :=
  match l with
  | [] => Return h
  | i :: rest => ih ← Instruction_hash i; hash_instructions (update h ih) rest
  end.

Definition ClientTransaction_hash (tx : ClientTransaction) : result Buffer :=
  h ← hash_instructions createHash (instructions tx); Return (digest h).

(** [instructions.forEach((instr, i) => instr.signWith(ctxHash, signers[i]))]. *)
Fixpoint signWith_each (ctxHash : Buffer) (l : list Instruction)
    (signers : list (list Signer)) : result (list Instruction) :=
  match l, signers with
  | [], _ => Return []
  | instr :: rest, g :: signers' =>
      rest' ← signWith_each ctxHash rest signers';
      Return (Instruction_signWith instr ctxHash g :: rest')
  | _ :: _, [] => Throw TypeError
  end.

(** [ClientTransaction.signWith(signers)]; the transaction returned is the
    state of [this] after the call. *)
Definition signWith (tx : ClientTransaction) (signers : list (list Signer))
  : result ClientTransaction :=
  ctxHash ← ClientTransaction_hash tx;
  if negb (length signers =? length (instructions tx))%nat
  then Throw "need same number of signers as instructions"
  else
    l ← signWith_each ctxHash (instructions tx) signers;
    Return {| instructions := l |}.

(** ** Asynchronous calls

    An [async] function is a tree of requests: [Await req k] sends [req] and
    resumes with [k] on the reply, or on the rejection of the awaited promise.
    One [Await] is one round trip. *)

Inductive Async (Req Resp A : Type) : Type :=
  | Done (r : result A)
  | Await (req : Req) (k : result Resp -> Async Req Resp A).
Arguments Done {Req Resp A} r.
Arguments Await {Req Resp A} req k.

Fixpoint Async_bind {Req Resp A B} (m : Async Req Resp A)
    (f : A -> Async Req Resp B) : Async Req Resp B :=
  match m with
  | Done (Return a) => f a
  | Done (Throw msg) => Done (Throw msg)
  | Await req k => Await req (fun r => Async_bind (k r) f)
  end.

(** Running a call tree against a peer: the outcome and the requests sent,
    in order. *)
Fixpoint run {Req Resp A} (peer : Req -> result Resp) (m : Async Req Resp A)
  : result A * list Req :=
  match m with
  | Done r => (r, [])
  | Await req k =>
      let '(r, sent) := run peer (k (peer req)) in (r, req :: sent)
  end.

(** ** Replay counters ([ClientTransaction.updateCounters]) *)

(** A call of [ICounterUpdater.getSignerCounters(signers, increment)]. *)
Abbreviation CounterRequest := (list IIdentity * Z)%type.

(** [array.reduce((acc, val) => acc.concat(val))], without initial value. *)
Definition reduce_concat {A} (l : list (list A)) : result (list A) :=
  match l with
  | [] => Throw TypeError
  | first :: rest => Return (fold_left (fun acc val => acc ++ val) rest first)
  end.

(** [array.findIndex(f)]: the first index at which [f] holds, else [-1]. *)
Fixpoint findIndex {A} (f : A -> bool) (l : list A) : Z :=
  match l with
  | [] => -1
  | x :: rest =>
      if f x then 0
      else let j := findIndex f rest in if j <? 0 then -1 else j + 1
  end.

(** [array.filter((x, i) => f(x, i))], from index [i] on. *)
Fixpoint filter_index {A} (f : A -> nat -> bool) (l : list A) (i : nat) : list A :=
  match l with
  | [] => []
  | x :: rest =>
      if f x i then x :: filter_index f rest (S i) else filter_index f rest (S i)
  end.

Definition uniqueSigners (all : list IIdentity) : list IIdentity :=
  filter_index
    (fun us i =>
       findIndex (fun usf => String.eqb (toString usf) (toString us)) all
       =? Z.of_nat i)
    all 0.

(** [uniqueSigners.forEach((us, i) => signerCounters[us.toString()] = counters[i])]
    on the object [signerCounters], a map from names to counters; storing
    [undefined], where the reply is too short, leaves the name without a value.
    (The names of identities, such as ["darc:..."], are not names of properties
    that every object inherits.) *)
Fixpoint store_counters (us : list IIdentity) (i : nat) (counters : list Z)
    (signerCounters : gmap string Z) : gmap string Z :=
  match us with
  | [] => signerCounters
  | u :: rest =>
      store_counters rest (S i) counters
        (match counters !! i with
         | Some c => <[ toString u := c ]> signerCounters
         | None => base.delete (toString u) signerCounters
         end)
  end.

Definition push_counter (ins : Instruction) (w : IdentityWrapper) (c : Z)
  : Instruction :=
  {| spawn := spawn ins; invoke := invoke ins; delete := delete ins;
     instanceID := instanceID ins;
     signerCounter := signerCounter ins ++ [c];
     signerIdentities := signerIdentities ins ++ [w];
     signatures := signatures ins |}.

(** [signers[i].forEach(...)]: the identity and its next counter are pushed
    on the instruction, and the counter kept for the identity moves on by
    one.  A missing counter is [undefined], on which [.add(1)] throws. *)
Fixpoint assign_signers (ins : Instruction) (group : list IIdentity)
    (signerCounters : gmap string Z) : result (Instruction * gmap string Z) :=
  match group with
  | [] => Return (ins, signerCounters)
  | signer :: rest =>
      match signerCounters !! toString signer with
      | None => Throw TypeError
      | Some c =>
          assign_signers (push_counter ins (toWrapper signer) c) rest
            (<[ toString signer := Long_add c 1 ]> signerCounters)
      end
  end.

(** The loop over the instructions. *)
Fixpoint assign_instructions (l : list Instruction) (signers : list (list IIdentity))
    (signerCounters : gmap string Z) : result (list Instruction) :=
  match l, signers with
  | [], _ => Return []
  | ins :: rest, group :: signers' =>
      '(ins', signerCounters') ← assign_signers ins group signerCounters;
      rest' ← assign_instructions rest signers' signerCounters';
      Return (ins' :: rest')
  | _ :: _, [] => Throw TypeError
  end.

(** [ClientTransaction.updateCounters(rpc, signers)]; the transaction
    returned is the state of [this] when the promise resolves.  The state in
    which a rejected call leaves [this] is not described. *)
Definition updateCounters (tx : ClientTransaction) (signers : list (list IIdentity))
  : Async CounterRequest (list Z) ClientTransaction :=
  if (length (instructions tx) =? 0)%nat then Done (Return tx)
  else if negb (length signers =? length (instructions tx))%nat
  then Done (Throw "length of signers and instructions do not match")
  else
    match reduce_concat signers with
    | Throw msg => Done (Throw msg)
    | Return all =>
        let us := uniqueSigners all in
        Await (us, 1)
          (fun reply =>
             match reply with
             | Throw msg => Done (Throw msg)
             | Return counters =>
                 let signerCounters := store_counters us 0 counters ∅ in
                 Done (l ← assign_instructions (instructions tx) signers signerCounters;
                       Return {| instructions := l |})
             end)
    end.

(** The signers after
    [if (signers.length === 1) for (i = 1; i < n; i++) signers.push(signers[0])]. *)
Definition extend_signers {A} (n : nat) (signers : list (list A)) : list (list A) :=
  match signers with
  | [g] => signers ++ repeat g (n - 1)
  | _ => signers
  end.

(** [ClientTransaction.updateCountersAndSign(rpc, signers)]; the groups
    pushed on [signers] are the caller's array too, which nothing reads
    afterwards. *)
Definition updateCountersAndSign (tx : ClientTransaction)
    (signers : list (list Signer))
  : Async CounterRequest (list Z) ClientTransaction :=
  let signers := extend_signers (length (instructions tx)) signers in
  Async_bind (updateCounters tx (map (map identity) signers))
    (fun tx' => Done (signWith tx' signers)).

(** ** Proof queries ([ByzCoinRPC.getProof]) *)

Definition currentVersion : Z := 1.

Record GetProof := {
  req_id : Buffer;
  req_key : Buffer;
  req_version : Z
}.

Record GetProofResponse (Roster : Type) := { proof : Proof Roster }.
Arguments proof {Roster} _.

(** [ByzCoinRPC.getProof(id)], for the genesis block kept by the client. *)
Definition getProof {Roster} (genesis : SkipBlock Roster) (id : Buffer)
  : Async GetProof (GetProofResponse Roster) (Proof Roster) :=
  let req := {| req_id := hash genesis; req_key := id;
                req_version := currentVersion |} in
  Await req
    (fun reply =>
       match reply with
       | Throw msg => Done (Throw msg)
       | Return reply => Done (Return (proof reply))
       end).

(** ** Instances ([instance.ts]) and the instance held by a proof *)

Record Instance := {
  inst_id : Buffer;
  inst_contractID : string;
  inst_darcID : Buffer;
  inst_data : Buffer
}.

(** [Instance.fromFields]. *)
Definition fromFields (id : Buffer) (contractID : string) (darcID data : Buffer)
  : Instance :=
  {| inst_id := id; inst_contractID := contractID; inst_darcID := darcID;
     inst_data := data |}.

Record StateChangeBody := {
  scb_stateaction : Z;
  scb_contractid : string;
  scb_value : Buffer;
  scb_version : Z;
  scb_darcid : Buffer
}.

Section ProofInstance.

Context {Roster Publics : Type}.
Variable computeHash : SkipBlock Roster -> Buffer.
Variable DataHeader_decode_trieRoot : Buffer -> result Buffer.
Variable getServicePublics : Roster -> string -> Publics.
Variable serviceName : string.
Variable link_verify : ForwardLink Roster -> Publics -> option string.
(** [StateChangeBody.decode], of the protobuf library; it may throw. *)
Variable StateChangeBody_decode : Buffer -> result StateChangeBody.

(** The getter [key]: the key in the leaf. *)
Definition Proof_key (p : Proof Roster) : Buffer := leaf_key (leaf (inclusionproof p)).

(** The getter [stateChangeBody]: the value in the leaf, decoded (and kept
    once decoded). *)
Definition stateChangeBody (p : Proof Roster) : result StateChangeBody :=
  StateChangeBody_decode (leaf_value (leaf (inclusionproof p))).

(** [Proof.matchContract(cid)]. *)
Definition matchContract (p : Proof Roster) (cid : string) : result bool :=
  scb ← stateChangeBody p; Return (String.eqb (scb_contractid scb) cid).

(** [Proof.getVerifiedInstance(genesisID, contractID)]. *)
Definition getVerifiedInstance (p : Proof Roster) (genesisID : Buffer)
    (contractID : string) : result Instance :=
  err ← Proof_verify computeHash DataHeader_decode_trieRoot getServicePublics
                     serviceName link_verify p genesisID;
  match err with
  | Some msg => Throw msg
  | None =>
      found ← Proof_exists (inclusionproof p) (Proof_key p);
      if negb found then Throw "cannot return an Instance from a proof of absence"
      else
        scb ← stateChangeBody p;
        if negb (String.eqb (scb_contractid scb) contractID)
        then Throw "not of correct contractID"
        else Return (fromFields (Proof_key p) (scb_contractid scb)
                                (scb_darcid scb) (scb_value scb))
  end.

(** [Instance.fromProof(key, p)]. *)
Definition fromProof (key : Buffer) (p : Proof Roster) : result Instance :=
  found ← Proof_exists (inclusionproof p) key;
  if negb found then Throw ("key not in proof: " ++ to_hex key)%string
  else
    scb ← stateChangeBody p;
    Return (fromFields key (scb_contractid scb) (scb_darcid scb) (scb_value scb)).

(** [Instance.fromByzCoin(rpc, id)]. *)
Definition fromByzCoin (genesis : SkipBlock Roster) (id : Buffer)
  : Async GetProof (GetProofResponse Roster) Instance :=
  Async_bind (getProof genesis id) (fun p => Done (fromProof id p)).

End ProofInstance.

(** ** Counters of one instruction ([Instruction.updateCounters]) *)

(** [Instruction.setCounters(counters, identities)]. *)
Definition setCounters (ins : Instruction) (counters : list Z)
    (identities : list IdentityWrapper) : Instruction :=
  {| spawn := spawn ins; invoke := invoke ins; delete := delete ins;
     instanceID := instanceID ins;
     signerCounter := counters;
     signerIdentities := identities;
     signatures := signatures ins |}.

(** [Instruction.updateCounters(rpc, signers)]. *)
Definition Instruction_updateCounters (ins : Instruction) (signers : list IIdentity)
  : Async CounterRequest (list Z) Instruction :=
  Await (signers, 1)
    (fun reply =>
       match reply with
       | Throw msg => Done (Throw msg)
       | Return counters =>
           Done (Return (setCounters ins counters (map toWrapper signers)))
       end).

(** ** The counter query of the client ([ByzCoinRPC.getSignerCounters]) *)

Record GetSignerCounters := {
  signerIDs : list string;
  skipchainID : Buffer
}.

Record GetSignerCountersResponse := { counters : list Z }.

(** Continuing a call on its outcome, rejection included. *)
Fixpoint Async_then {Req Resp A B} (m : Async Req Resp A)
    (f : result A -> Async Req Resp B) : Async Req Resp B :=
  match m with
  | Done r => f r
  | Await req k => Await req (fun x => Async_then (k x) f)
  end.

(** A call tree whose requests are themselves served by asynchronous calls
    [serve], as when [rpc] is the client and its methods send messages. *)
Fixpoint Async_via {Req1 Resp1 Req2 Resp2 A}
    (serve : Req1 -> Async Req2 Resp2 Resp1) (m : Async Req1 Resp1 A)
  : Async Req2 Resp2 A :=
  match m with
  | Done r => Done r
  | Await req k => Async_then (serve req) (fun r => Async_via serve (k r))
  end.

Section CounterQuery.

Context {Roster : Type}.
(** [Log.rcatch(e)], of the logging module. *)
Variable rcatch : string -> result (list Z).

(** [ByzCoinRPC.getSignerCounters(ids, add)], for the genesis block kept by
    the client. *)
Definition getSignerCounters (genesis : SkipBlock Roster) (ids : list IIdentity) (add : Z)
  : Async GetSignerCounters GetSignerCountersResponse (list Z) :=
  let req := {| signerIDs := map toString ids; skipchainID := hash genesis |} in
  Await req
    (fun reply =>
       match reply with
       | Return rep => Done (Return (map (fun c => Long_add c add) (counters rep)))
       | Throw e => Done (rcatch e)
       end).

(** The client as the [ICounterUpdater] of a transaction. *)
Definition counter_service (genesis : SkipBlock Roster) (req : CounterRequest)
  : Async GetSignerCounters GetSignerCountersResponse (list Z) :=
  getSignerCounters genesis (fst req) (snd req).

End CounterQuery.

(** ** Rules of an access-control object ([darc/rules.ts]) *)

Record Rule := { action : string; expr : Buffer }.

(** The field [list] of the class [Rules]. *)
Record Rules := { rules : list Rule }.

Definition Rules_OR : string := "|".
Definition Rules_AND : string := "&".

Definition Rule_clone (r : Rule) : Rule := {| action := action r; expr := expr r |}.

Definition Rules_clone (rs : Rules) : Rules := {| rules := map Rule_clone (rules rs) |}.

Definition has_action (a : string) (r : Rule) : bool := String.eqb (action r) a.

(** [Rules.appendToRule(action, identity, op)]; the rules returned are the
    state of [this] after the call. *)
Definition appendToRule (rs : Rules) (a : string) (identity : IIdentity) (op : string)
  : result Rules :=
  let idx := findIndex (has_action a) (rules rs) in
  if idx >=? 0 then
    match rules rs !! Z.to_nat idx with
    | Some rule =>
        Return {| rules :=
                    <[ Z.to_nat idx :=
                         {| action := action rule;
                            expr := expr rule ++
                                    utf8 (" " ++ op ++ " " ++ toString identity) |} ]>
                      (rules rs) |}
    | None => Throw TypeError
    end
  else
    Return {| rules := rules rs ++ [ {| action := a; expr := utf8 (toString identity) |} ] |}.

(** [Rules.setRule(action, identity)]. *)
Definition setRule (rs : Rules) (a : string) (identity : IIdentity) : Rules :=
  let idx := findIndex (has_action a) (rules rs) in
  let r := {| action := a; expr := utf8 (toString identity) |} in
  if idx >=? 0 then {| rules := <[ Z.to_nat idx := r ]> (rules rs) |}
  else {| rules := rules rs ++ [r] |}.

(** [Rules.getRule(action)]; [None] is [undefined]. *)
Definition getRule (rs : Rules) (a : string) : option Rule :=
  List.find (has_action a) (rules rs).

(** ** Attendees of a party ([PopPartyInstance], in [byzcoin-rpc.ts]) *)

Definition PRE_BARRIER : Z := 1.
Definition SCANNING : Z := 2.
Definition FINALIZED : Z := 3.

Section Attendees.

(** Points of the curve, with their method [equals]. *)
Context {Point : Type}.
Variable Point_equals : Point -> Point -> bool.

(** The party as far as the attendee list goes: the state held by
    [popPartyStruct] and the field [tmpAttendees]. *)
Record PopPartyInstance := {
  party_state : Z;
  tmpAttendees : list Point
}.

(** [PopPartyInstance.addAttendee(attendee)]; the party returned is the
    state of [this] after the call. *)
Definition addAttendee (this : PopPartyInstance) (attendee : Point)
  : result PopPartyInstance :=
  if negb (party_state this =? SCANNING)
  then Throw "party is not in attendee-adding mode"
  else if findIndex (fun pub => Point_equals pub attendee) (tmpAttendees this) =? -1
  then Return {| party_state := party_state this;
                 tmpAttendees := tmpAttendees this ++ [attendee] |}
  else Return this.

(** [PopPartyInstance.removeAttendee(attendee)]: the number returned, with
    the state of [this] after the call. *)
Definition removeAttendee (this : PopPartyInstance) (attendee : Point)
  : result (nat * PopPartyInstance) :=
  if negb (party_state this =? SCANNING)
  then Throw "party is not in attendee-adding mode"
  else
    let i := findIndex (fun pub => Point_equals pub attendee) (tmpAttendees this) in
    let attendees :=
      if i >=? 0 then base.delete (Z.to_nat i) (tmpAttendees this)
      else tmpAttendees this in
    Return (length attendees,
            {| party_state := party_state this; tmpAttendees := attendees |}).

End Attendees.

Arguments PopPartyInstance : clear implicits.

(** ** Calls that send messages of several kinds

    The methods of the client send requests of different types over one
    connection, each with the type of its reply: [Send e k] sends the request
    [e], whose reply has type [X], and resumes with [k]. *)

Inductive Calls (E : Type -> Type) (A : Type) : Type :=
  | Finished (r : result A)
  | Send {X : Type} (e : E X) (k : result X -> Calls E A).
Arguments Finished {E A} r.
Arguments Send {E A X} e k.

Fixpoint Calls_bind {E : Type -> Type} {A B} (m : Calls E A) (f : A -> Calls E B)
  : Calls E B :=
  match m with
  | Finished (Return a) => f a
  | Finished (Throw msg) => Finished (Throw msg)
  | Send e k => Send e (fun r => Calls_bind (k r) f)
  end.

(** A call that sends requests of one type, on the connection. *)
Fixpoint on_conn {E : Type -> Type} {Req Resp A} (send : Req -> E Resp)
    (m : Async Req Resp A) : Calls E A :=
  match m with
  | Done r => Finished r
  | Await req k => Send (send req) (fun r => on_conn send (k r))
  end.

(** Running calls against a connection: the outcome and the requests sent,
    in order. *)
Fixpoint run_calls {E : Type -> Type} {A} (conn : forall X, E X -> result X)
    (m : Calls E A) : result A * list {X : Type & E X} :=
  match m with
  | Finished r => (r, [])
  | Send e k =>
      let '(r, sent) := run_calls conn (k (conn _ e)) in (r, existT _ e :: sent)
  end.

(** ** Sending a transaction ([ByzCoinRPC.sendTransactionAndWait]) *)

Record AddTxRequest := {
  inclusionwait : Z;
  atx_skipchainID : Buffer;
  transaction : ClientTransaction;
  atx_version : Z
}.

(** [ByzCoinRPC.sendTransactionAndWait(transaction, wait = 10)]; a missing
    [wait] is [None]. *)
Definition sendTransactionAndWait {Roster AddTxResponse} (genesis : SkipBlock Roster)
    (tx : ClientTransaction) (wait : option Z)
  : Async AddTxRequest AddTxResponse AddTxResponse :=
  let wait := match wait with Some w => w | None => 10 end in
  let req := {| inclusionwait := wait; atx_skipchainID := hash genesis;
                transaction := tx; atx_version := currentVersion |} in
  Await req (fun r => Done r).

(** ** Coin instances ([CoinInstance]) *)

Definition CoinInstance_contractID : string := "coin".
Definition CoinInstance_commandMint : string := "mint".

(** [CoinInstance.coinIID(buf)]. *)
Definition coinIID (buf : Buffer) : Buffer :=
  let h := createHash in
  let h := update h (utf8 CoinInstance_contractID) in
  let h := update h buf in
  digest h.

Section Coins.

Context {Roster AddTxResponse Coin : Type}.
Variable rcatch : string -> result (list Z).
Variable StateChangeBody_decode : Buffer -> result StateChangeBody.
(** [Coin.decode], of the protobuf library; it may throw. *)
Variable Coin_decode : Buffer -> result Coin.
(** The genesis block kept by the client [rpc]. *)
Variable genesis : SkipBlock Roster.

(** The requests that the client sends, each with the type of its reply. *)
Inductive Message : Type -> Type :=
  | send_GetSignerCounters (req : GetSignerCounters) : Message GetSignerCountersResponse
  | send_AddTxRequest (req : AddTxRequest) : Message AddTxResponse
  | send_GetProof (req : GetProof) : Message (GetProofResponse Roster).

(** A coin instance: the fields of the instance it extends, and the coin. *)
Record CoinInstance := {
  coin_instance : Instance;
  coin : Coin
}.

(** The constructor [new CoinInstance(rpc, inst)]. *)
Definition CoinInstance_new (inst : Instance) : result CoinInstance :=
  if negb (String.eqb (inst_contractID inst) CoinInstance_contractID)
  then Throw ("mismatch contract name: " ++ inst_contractID inst ++ " vs "
              ++ CoinInstance_contractID)%string
  else
    c ← Coin_decode (inst_data inst);
    Return {| coin_instance := inst; coin := c |}.

(** [inst.updateCounters(rpc, signers)] with the client as [rpc]. *)
Definition fetch_counters (inst : Instruction) (signers : list Signer)
  : Calls Message Instruction :=
  on_conn send_GetSignerCounters
    (Async_via (counter_service rcatch genesis)
               (Instruction_updateCounters inst (map identity signers))).

(** [CoinInstance.fromByzcoin(bc, iid)]. *)
Definition CoinInstance_fromByzcoin (iid : Buffer) : Calls Message CoinInstance :=
  Calls_bind (on_conn send_GetProof (fromByzCoin StateChangeBody_decode genesis iid))
    (fun inst => Finished (CoinInstance_new inst)).

(** [CoinInstance.spawn(bc, darcID, signers, type)].  The instruction [inst]
    is the object held by [ctx]: after [ctx.signWith], [inst.deriveId()]
    reads the signatures just made. *)
Definition CoinInstance_spawn (darcID : Buffer) (signers : list Signer) (type : Buffer)
  : Calls Message CoinInstance :=
  let inst := createSpawn darcID CoinInstance_contractID
                [ {| name := "type"; value := type |} ] in
  Calls_bind (fetch_counters inst signers)
    (fun inst =>
       match signWith {| instructions := [inst] |} [signers] with
       | Throw msg => Finished (Throw msg)
       | Return ctx =>
           let inst := List.hd inst (instructions ctx) in
           Calls_bind (on_conn send_AddTxRequest
                         (sendTransactionAndWait genesis ctx (Some 10)))
             (fun _ =>
                match deriveId inst "" with
                | Throw msg => Finished (Throw msg)
                | Return iid => CoinInstance_fromByzcoin iid
                end)
       end).

(** [CoinInstance.transfer(coins, to, signers)]. *)
Definition CoinInstance_transfer (this : CoinInstance) (coins : Z) (to : Buffer)
    (signers : list Signer) : Calls Message unit :=
  let args := [ {| name := "coins"; value := Long_toBytesLE coins |};
                {| name := "destination"; value := to |} ] in
  let inst := createInvoke (inst_id (coin_instance this)) CoinInstance_contractID
                "transfer" args in
  Calls_bind (fetch_counters inst signers)
    (fun inst =>
       match signWith {| instructions := [inst] |} [signers] with
       | Throw msg => Finished (Throw msg)
       | Return ctx =>
           Calls_bind (on_conn send_AddTxRequest
                         (sendTransactionAndWait genesis ctx (Some 10)))
             (fun _ => Finished (Return tt))
       end).

(** [CoinInstance.mint(signers, amount, wait)]. *)
Definition CoinInstance_mint (this : CoinInstance) (signers : list Signer) (amount : Z)
    (wait : option Z) : Calls Message unit :=
  let inst := createInvoke (inst_id (coin_instance this)) CoinInstance_contractID
                CoinInstance_commandMint
                [ {| name := "coins"; value := Long_toBytesLE amount |} ] in
  Calls_bind (fetch_counters inst signers)
    (fun inst =>
       match signWith {| instructions := [inst] |} [signers] with
       | Throw msg => Finished (Throw msg)
       | Return ctx =>
           Calls_bind (on_conn send_AddTxRequest (sendTransactionAndWait genesis ctx wait))
             (fun _ => Finished (Return tt))
       end).

(** [CoinInstance.update()]. *)
Definition CoinInstance_update (this : CoinInstance) : Calls Message CoinInstance :=
  Calls_bind (on_conn send_GetProof (getProof genesis (inst_id (coin_instance this))))
    (fun p =>
       Finished
         (found ← Proof_exists (inclusionproof p) (inst_id (coin_instance this));
          if negb found then Throw "fail to get a matching proof"
          else
            scb ← stateChangeBody StateChangeBody_decode p;
            c ← Coin_decode (scb_value scb);
            Return {| coin_instance := coin_instance this; coin := c |})).

End Coins.

Arguments Message : clear implicits.
Arguments CoinInstance : clear implicits.

(** ** Ring signatures on the wire ([RingSig.encode], [decodeSignature]) *)

Definition RangeError : string := "RangeError".

(** [res.set(arr, offset)] on typed arrays; it throws when [arr] does not
    fit. *)
Definition typed_set (res arr : Buffer) (offset : nat) : result Buffer :=
  if (offset + length arr <=? length res)%nat
  then Return (list_inserts offset arr res)
  else Throw RangeError.

(** The second loop of [concatArrays]. *)
Fixpoint set_each (res : Buffer) (offset : nat) (arrays : list Buffer) : result Buffer :=
  match arrays with
  | [] => Return res
  | arr :: rest =>
      res ← typed_set res arr offset;
      set_each res (offset + length arr) rest
  end.

(** [concatArrays(constructor, arrays)], for byte arrays. *)
Definition concatArrays (arrays : list Buffer) : result Buffer :=
  let totalLength := fold_left (fun total arr => (total + length arr)%nat) arrays 0%nat in
  let res := repeat Byte.x00 totalLength in
  set_each res 0 arrays.

(** An index given to [buf.slice]: counted from the end when negative, and
    kept within the buffer. *)
Definition slice_index (len : nat) (i : Z) : nat :=
  if i <? 0 then Z.to_nat (Z.max (Z.of_nat len + i) 0)
  else Nat.min (Z.to_nat i) len.

(** [buf.slice(start, stop)]. *)
Definition slice (buf : Buffer) (start stop : Z) : Buffer :=
  let first := slice_index (length buf) start in
  let last := slice_index (length buf) stop in
  take (last - first) (drop first buf).

Section RingSignature.

(** Scalars and points of the suite, with their sizes on the wire and their
    conversions, of the key-pair module. *)
Context {Private Public : Type}.
Variable scalarMarshalSize pointMarshalSize : nat.
Variable Private_toBuffer : Private -> Buffer.
Variable Private_fromBuffer : Buffer -> result Private.
Variable Public_toBuffer : Public -> Buffer.
Variable Public_fromBuffer : Buffer -> result Public.

(** The fields [C0], [S] and [Tag]; [S] is written [sig_S], the name [S]
    being that of the successor. *)
Record RingSig := {
  C0 : Private;
  sig_S : list Private;
  Tag : option Public
}.

(** [RingSig.encode()]. *)
Definition RingSig_encode (sig : RingSig) : result Buffer :=
  let array := [Private_toBuffer (C0 sig)] in
  let array := array ++ map Private_toBuffer (sig_S sig) in
  let array := match Tag sig with
               | Some tag => array ++ [Public_toBuffer tag]
               | None => array
               end in
  concatArrays array.

(** The loop of [decodeSignature], run for at most [fuel] rounds; [None]
    when the rounds do not suffice. *)
Fixpoint decode_scalars (fuel : nat) (signatureBuffer : Buffer) (i endIndex : Z)
  : option (result (list Private)) :=
  if i <? endIndex then
    match fuel with
    | O => None
    | S fuel =>
        match Private_fromBuffer
                (slice signatureBuffer i (i + Z.of_nat scalarMarshalSize)) with
        | Throw msg => Some (Throw msg)
        | Return scalar =>
            match decode_scalars fuel signatureBuffer
                                 (i + Z.of_nat scalarMarshalSize) endIndex with
            | Some (Return rest) => Some (Return (scalar :: rest))
            | other => other
            end
        end
    end
  else Some (Return []).

(** [decodeSignature(signatureBuffer, isLinkableSig)]. *)
Definition decodeSignature (fuel : nat) (signatureBuffer : Buffer) (isLinkableSig : bool)
  : option (result RingSig) :=
  let len := Z.of_nat (length signatureBuffer) in
  match Private_fromBuffer (slice signatureBuffer 0 (Z.of_nat pointMarshalSize)) with
  | Throw msg => Some (Throw msg)
  | Return c0 =>
      let endIndex := if isLinkableSig then len - Z.of_nat pointMarshalSize else len in
      match decode_scalars fuel signatureBuffer (Z.of_nat pointMarshalSize) endIndex with
      | None => None
      | Some (Throw msg) => Some (Throw msg)
      | Some (Return scalars) =>
          if isLinkableSig then
            match Public_fromBuffer (slice signatureBuffer endIndex len) with
            | Throw msg => Some (Throw msg)
            | Return tag => Some (Return {| C0 := c0; sig_S := scalars; Tag := Some tag |})
            end
          else Some (Return {| C0 := c0; sig_S := scalars; Tag := None |})
      end
  end.

End RingSignature.

Arguments RingSig : clear implicits.

(** ** The trie walk, told declaratively *)

(** The hash of interior node [j], and the child that the walk takes there. *)
Definition node_hash (ip : InclusionProof) (j : nat) : Buffer :=
  match interiors ip !! j with
  | Some node => sha256 (left node ++ right node)
  | None => []
  end.

Definition child (ip : InclusionProof) (bits : list bool) (j : nat) : Buffer :=
  match interiors ip !! j with
  | Some node => if nth j bits false then left node else right node
  | None => []
  end.

(** The hash expected at depth [i]: the hash of interior node 0 at the root,
    below it the child taken at depth [i - 1]. *)
Definition expected_at (ip : InclusionProof) (bits : list bool) (i : nat) : Buffer :=
  match i with
  | O => node_hash ip 0
  | S j => child ip bits j
  end.

(** The test made on a declared prefix once a terminating node matches. *)
Definition prefix_accepted (walked prefix : list bool) : bool :=
  (length (difference walked prefix) =? 0)%nat.

(** Bit [i] of a digest, most significant bit of each byte first. *)
Definition digest_bit (hash : Buffer) (i : nat) : bool :=
  Z.testbit (Z_of_byte (nth (i / 8) hash Byte.x00)) (7 - Z.of_nat (i mod 8)).

(** ** Canonical encodings, told declaratively *)

Definition encode_arg (arg : Argument) : Buffer :=
  bytesLE 8 (Z.of_nat (length (utf8 (name arg)))) ++ utf8 (name arg) ++
  bytesLE 8 (Z.of_nat (length (value arg))) ++ value arg.

Definition encode_counter (c : Z) : Buffer := bytesLE 8 c.

Definition encode_identity (w : IdentityWrapper) : Buffer :=
  bytesLE 8 (Z.of_nat (length (IdentityWrapper_toBytes w))) ++ IdentityWrapper_toBytes w.

(** The contract identifier and the arguments of an instruction, by kind. *)
Definition contract_and_args (ins : Instruction) : option (Z * string * list Argument) :=
  match spawn ins, invoke ins, delete ins with
  | Some s, _, _ => Some (0, spawn_contractID s, spawn_args s)
  | None, Some v, _ => Some (1, invoke_contractID v, invoke_args v)
  | None, None, Some d => Some (2, delete_contractID d, [])
  | None, None, None => None
  end.

Definition encode_signature (sig : Buffer) : Buffer :=
  bytesLE 4 (Z.of_nat (length sig)) ++ sig.

(** The canonical hash, as one digest over the encoded fields in order. *)
Definition canonical_hash (ins : Instruction) : result Buffer :=
  match contract_and_args ins with
  | None => Throw "instruction without type"
  | Some (type, contract, args) =>
      Return (sha256 (instanceID ins ++ [byte_of_Z type] ++ utf8 contract ++
                      concat (map encode_arg args) ++
                      concat (map encode_counter (signerCounter ins)) ++
                      concat (map encode_identity (signerIdentities ins))))
  end.

(** The bytes digested by [deriveId]. *)
Definition derive_input (h : Buffer) (sigs : list Buffer) (what : string) : Buffer :=
  h ++ bytesLE 4 (Z.of_nat (length sigs)) ++ concat (map encode_signature sigs) ++ utf8 what.

(** ** Counter allocation, told declaratively *)

(** Whether an identity goes by the canonical string [s]. *)
Definition named (s : string) (u : IIdentity) : bool := String.eqb (toString u) s.

(** The number of signers named [s] in a list. *)
Definition occurrences (s : string) (l : list IIdentity) : nat :=
  length (List.filter (named s) l).

(** The counter [k] steps after [c]. *)
Definition advance (k : nat) (c : Z) : Z := Nat.iter k (fun c => Long_add c 1) c.

(** The counter that the reply holds for the identity named [s]: the one at
    the position of [s] among the identities asked for. *)
Definition fetched (us : list IIdentity) (counters : list Z) (s : string) : option Z :=
  let j := findIndex (named s) us in
  if j <? 0 then None else counters !! Z.to_nat j.

(** The counters given to the signers of [group], when the signers in
    [before] have been served already. *)
Fixpoint assigned (us : list IIdentity) (counters : list Z)
    (before group : list IIdentity) : list Z :=
  match group with
  | [] => []
  | signer :: rest =>
      match fetched us counters (toString signer) with
      | Some c => advance (occurrences (toString signer) before) c
      | None => 0
      end :: assigned us counters (before ++ [signer]) rest
  end.

(** The instruction after the identities [ws] and the counters [cs] have
    been pushed on it. *)
Definition push_counters (ins : Instruction) (ws : list IdentityWrapper)
    (cs : list Z) : Instruction :=
  {| spawn := spawn ins; invoke := invoke ins; delete := delete ins;
     instanceID := instanceID ins;
     signerCounter := signerCounter ins ++ cs;
     signerIdentities := signerIdentities ins ++ ws;
     signatures := signatures ins |}.

(** The counter kept for every name once the signers in [before] have been
    served: the fetched one, advanced once per signer of that name. *)
Definition counters_after (us : list IIdentity) (counters : list Z)
    (before : list IIdentity) (signerCounters : gmap string Z) : Prop :=
  forall s, signerCounters !! s
            = advance (occurrences s before) <$> fetched us counters s.

(** ** Bits, prefixes and names, told declaratively *)

(** The bits of a buffer, most significant bit of each byte first. *)
Definition bits_of (buf : Buffer) : list bool :=
  map (digest_bit buf) (seq 0 (length buf * 8)).

(** The bytes that [hashLeaf] and [hashEmpty] digest. *)
Definition leaf_input (ip : InclusionProof) : Buffer :=
  [Byte.x03] ++ nonce ip ++ boolToBuffer (leaf_prefix (leaf ip)) ++
  int32LE (length (leaf_prefix (leaf ip))) ++ leaf_key (leaf ip) ++ leaf_value (leaf ip).

Definition empty_input (ip : InclusionProof) : Buffer :=
  [Byte.x02] ++ nonce ip ++ boolToBuffer (empty_prefix (empty ip)) ++
  int32LE (length (empty_prefix (empty ip))).

(** The unsigned integer held by little-endian bytes. *)
Fixpoint Z_of_bytesLE (bs : Buffer) : Z :=
  match bs with
  | [] => 0
  | b :: rest => Z_of_byte b + 256 * Z_of_bytesLE rest
  end.

(** The identities of a list, one per name, the first of each name kept;
    [seen] holds the names met before. *)
Fixpoint keep_first (seen : list string) (l : list IIdentity) : list IIdentity :=
  match l with
  | [] => []
  | u :: rest =>
      if existsb (String.eqb (toString u)) seen then keep_first seen rest
      else u :: keep_first (seen ++ [toString u]) rest
  end.

(** A list whose length fits the four bytes written by [writeUInt32LE]. *)
Definition short {A} (l : list A) : Prop := Z.of_nat (length l) < 2 ^ 32.

(** The expression that names [first] and then each identity of [more]
    behind the operator [op]. *)
Definition joined_expr (op : string) (first : IIdentity) (more : list IIdentity) : Buffer :=
  utf8 (toString first) ++
  concat (map (fun u => utf8 (" " ++ op ++ " " ++ toString u)) more).

(** ** Fixtures

    A one-level trie holding the key ["k"], whose path starts with a set bit:
    the leaf hangs on the left of interior node 0 and an empty node on its
    right. *)

Module Fixture.

Definition key : Buffer := utf8 "k".
Definition other_key : Buffer := utf8 "b".
Definition salt : Buffer := utf8 "nonce".

Definition mk_proof (nodes : list InteriorNode) (lp ep : list bool) : InclusionProof :=
  {| interiors := nodes;
     leaf := {| leaf_prefix := lp; leaf_key := key; leaf_value := utf8 "v" |};
     empty := {| empty_prefix := ep |};
     nonce := salt |}.

(** The trie as the server builds it: leaf under prefix [1], empty node
    under prefix [0]. *)
Definition trie : InclusionProof :=
  let nodes := mk_proof [] [true] [false] in
  mk_proof [ {| left := hashLeaf nodes; right := hashEmpty nodes |} ]
           [true] [false].

(** A proof whose leaf declares the prefix [0 1] although the walk to it
    took the single bit [1]. *)
Definition leaf_elsewhere : InclusionProof :=
  let nodes := mk_proof [] [false; true] [false] in
  mk_proof [ {| left := hashLeaf nodes; right := hashEmpty nodes |} ]
           [false; true] [false].

(** A proof whose empty node declares the prefix [1 0] although the walk
    to it took the single bit [0]. *)
Definition empty_elsewhere : InclusionProof :=
  let nodes := mk_proof [] [true] [true; false] in
  mk_proof [ {| left := hashLeaf nodes; right := hashEmpty nodes |} ]
           [true] [true; false].

(** Stand-ins for the skipchain library: a roster is the list of its
    public keys, a block hashes its payload and roster, the payload is the
    trie root, and a link is signed by the digest of the signing keys and
    of the two hashes it connects. *)
Abbreviation Roster := (list Buffer).

Definition computeHash (b : SkipBlock Roster) : Buffer :=
  sha256 (data b ++ concat (roster b)).
Definition decode_trieRoot (payload : Buffer) : result Buffer := Return payload.
Definition getServicePublics (r : Roster) (service : string) : list Buffer := r.
Definition serviceName : string := "Skipchain".
Definition sign_link (keys : list Buffer) (src dst : Buffer) : Buffer :=
  sha256 (concat keys ++ src ++ dst).
Definition link_verify (l : ForwardLink Roster) (publics : list Buffer) : option string :=
  if equals (signature l) (sign_link publics (from l) (to l)) then None
  else Some "signature mismatch"%string.

Definition verify : Proof Roster -> Buffer -> result (option string) :=
  Proof_verify computeHash decode_trieRoot getServicePublics serviceName link_verify.

Definition old_roster : Roster := [utf8 "A1"; utf8 "A2"].
Definition new_roster : Roster := [utf8 "B1"; utf8 "B2"].

Definition genesis_hash : Buffer := sha256 (utf8 "genesis").
Definition middle_hash : Buffer := sha256 (utf8 "middle").

Definition block (r : Roster) : SkipBlock Roster :=
  let payload := node_hash trie 0 in
  {| hash := sha256 (payload ++ concat r); data := payload; roster := r |}.

Definition link (keys : Roster) (src dst : Buffer) (rotate : option Roster)
  : ForwardLink Roster :=
  {| from := src; to := dst; newRoster := rotate;
     signature := sign_link keys src dst |}.

(** Genesis, then a block at which the roster changes, then the latest
    block.  The keys first trusted are those of the latest block's roster
    (here the old roster); link 1 carries the new roster, so link 2 is
    signed by the new keys. *)
Definition chain (signers_of_link_2 : Roster) : Proof Roster :=
  let latest_block := block old_roster in
  {| inclusionproof := trie;
     latest := latest_block;
     links := [ link [] [] genesis_hash None;
                link old_roster genesis_hash middle_hash (Some new_roster);
                link signers_of_link_2 middle_hash (hash latest_block) None ] |}.

(** A chain of the genesis block alone, with a first link that starts at
    [src] and ends at [dst]. *)
Definition single (src dst : Buffer) : Proof Roster :=
  let latest_block := block old_roster in
  {| inclusionproof := trie;
     latest := latest_block;
     links := [ link [] src dst None ] |}.

(** Signers: a delegated identity named by [who], signing with a keyed
    digest. *)
Definition signer (who : string) : Signer :=
  {| identity := IdentityDarc_IIdentity {| id := utf8 who |};
     sign := fun msg => sha256 (utf8 who ++ msg) |}.

Definition arg (n v : string) : Argument := {| name := n; value := utf8 v |}.

(** A spawn instruction with the given arguments, counters and identities. *)
Definition instruction (args : list Argument) (counters : list Z)
    (ids : list IdentityWrapper) : Instruction :=
  {| spawn := Some {| spawn_contractID := "coin"; spawn_args := args |};
     invoke := None; delete := None;
     instanceID := sha256 (utf8 "instance");
     signerCounter := counters; signerIdentities := ids;
     signatures := [utf8 "sig-one"; utf8 "sig-two"] |}.

Definition alice : IdentityWrapper := wrap_darc {| id := utf8 "alice" |}.
Definition bob : IdentityWrapper := wrap_darc {| id := utf8 "bob" |}.

Definition transaction : ClientTransaction :=
  {| instructions :=
       [ createSpawn (sha256 (utf8 "darc")) "coin" [arg "type" "gold"];
         createInvoke (sha256 (utf8 "coin")) "coin" "mint" [arg "coins" "10"];
         createDelete (sha256 (utf8 "old")) "coin" ] |}.

(** A connection that gives every signer the counter 5, refuses every
    transaction and has no proof to give. *)
Definition refusing (X : Type) (e : Message Roster unit X) : result X :=
  match e in Message _ _ T return result T with
  | send_GetSignerCounters _ => Return {| counters := [5] |}
  | send_AddTxRequest _ => Throw "refused"
  | send_GetProof _ => Throw "no proof"
  end.

End Fixture.

(** * Properties *)

(** ** Buffers and digests *)

Lemma equals_eq (a b : Buffer) : equals a b = true <-> a = b.
Proof.
  revert b; induction a as [|x a IH]; intros [|y b]; simpl; split;
    try congruence; try reflexivity.
  - intros H. apply andb_prop in H as [Hx Hab].
    apply Byte.byte_dec_bl in Hx. apply IH in Hab. congruence.
  - intros H. injection H as -> ->.
    rewrite Byte.byte_dec_lb by reflexivity. simpl. apply IH. reflexivity.
Qed.

Lemma equals_refl (a : Buffer) : equals a a = true.
Proof. apply equals_eq. reflexivity. Qed.

Lemma equals_neq (a b : Buffer) : equals a b = false <-> a <> b.
Proof.
  split.
  - intros H Hab. apply equals_eq in Hab. congruence.
  - intros H. destruct (equals a b) eqn:E; [|reflexivity].
    apply equals_eq in E. contradiction.
Qed.

Lemma Return_differs (r1 r2 : result Buffer) :
  match r1, r2 with
  | Return a, Return b => equals a b
  | Throw m1, Throw m2 => String.eqb m1 m2
  | _, _ => false
  end = false ->
  r1 <> r2.
Proof.
  intros H Heq. subst r2. destruct r1 as [a|m].
  - rewrite equals_refl in H. discriminate.
  - rewrite String.eqb_refl in H. discriminate.
Qed.

Lemma length_bytesLE (n : nat) (z : Z) : length (bytesLE n z) = n.
Proof. revert z; induction n; intros z; simpl; [|rewrite IHn]; reflexivity. Qed.

Lemma length_blocks (fuel : nat) (h ws : list Z) :
  length h = 8%nat -> length (SHA256.blocks fuel h ws) = 8%nat.
Proof.
  revert h ws; induction fuel as [|fuel IH]; intros h ws Hh; simpl; [assumption|].
  destruct ws; [assumption|]. apply IH. reflexivity.
Qed.

Lemma length_sha256 (msg : Buffer) : length (sha256 msg) = 32%nat.
Proof.
  unfold sha256, SHA256.digest.
  pose proof (length_blocks (length (SHA256.words (length (SHA256.pad msg)) (SHA256.pad msg)))
                SHA256.H0 (SHA256.words (length (SHA256.pad msg)) (SHA256.pad msg)) eq_refl) as H.
  destruct (SHA256.blocks _ _ _) as [|a [|b [|c [|d [|e [|f [|g [|h [|]]]]]]]]];
    simpl in H; try discriminate.
  reflexivity.
Qed.

(** The digests of the empty message, of ["abc"] and of a message of two
    blocks, as FIPS 180-4 gives them. *)
Example sha256_empty :
  to_hex (sha256 []) = "e3b0c44298fc1c149afbf4c8996fb92427ae41e4649b934ca495991b7852b855"%string.
Proof. vm_compute. reflexivity. Qed.

Example sha256_abc :
  to_hex (sha256 (utf8 "abc"))
  = "ba7816bf8f01cfea414140de5dae2223b00361a396177a9cb410ff61f20015ad"%string.
Proof. vm_compute. reflexivity. Qed.

Example sha256_two_blocks :
  to_hex (sha256 (utf8 "abcdbcdecdefdefgefghfghighijhijkijkljklmklmnlmnomnopnopq"))
  = "248d6a61d20638b8e5c026930c3e6039a33ce45964ff2167f6ecedd419db06c1"%string.
Proof. vm_compute. reflexivity. Qed.

Lemma bit_of_byte (b : Byte.byte) (s : Z) :
  0 <= s < 8 ->
  (Z.land (Z.shiftl (Z_of_byte b) s) (Z.shiftl 1 7) >? 0) = Z.testbit (Z_of_byte b) (7 - s).
Proof.
  intros Hs.
  assert (s = 0 \/ s = 1 \/ s = 2 \/ s = 3 \/ s = 4 \/ s = 5 \/ s = 6 \/ s = 7)
    as [->|[->|[->|[->|[->|[->|[->| ->]]]]]]] by lia;
    destruct b; reflexivity.
Qed.

Lemma length_hashToBits (key : Buffer) : length (hashToBits key) = 256%nat.
Proof.
  unfold hashToBits, digest, update, createHash. simpl.
  rewrite length_map, length_seq, length_sha256. reflexivity.
Qed.

Lemma nth_hashToBits (key : Buffer) (i : nat) :
  (i < 256)%nat -> nth i (hashToBits key) false = digest_bit (sha256 key) i.
Proof.
  intros Hi. unfold hashToBits, digest, update, createHash. cbn [app].
  rewrite length_sha256. change (32 * 8)%nat with 256%nat.
  set (f := fun i : nat => _).
  rewrite (nth_indep _ false (f 0%nat)) by (rewrite length_map, length_seq; exact Hi).
  rewrite map_nth, seq_nth by exact Hi. subst f. cbv beta zeta.
  rewrite Nat.add_0_l, Nat.shiftr_div_pow2. change (2 ^ 3)%nat with 8%nat.
  unfold digest_bit. apply bit_of_byte.
  pose proof (Nat.mod_upper_bound i 8). lia.
Qed.

(** ** The walk of [exists] *)

Section Walk.

Variable ip : InclusionProof.
Variable bits : list bool.

Lemma hashInterior_lookup (j : nat) :
  (j < length (interiors ip))%nat -> hashInterior ip j = Return (node_hash ip j).
Proof.
  intros Hj. unfold hashInterior, node_hash.
  destruct (lookup_lt_is_Some_2 (interiors ip) j Hj) as [node ->].
  reflexivity.
Qed.

Lemma exists_loop_step (fuel i : nat) (e : Buffer) :
  (i < length (interiors ip))%nat ->
  exists_loop ip bits (S fuel) i e =
  if equals e (node_hash ip i)
  then exists_loop ip bits fuel (S i) (child ip bits i)
  else Throw "invalid interior node".
Proof.
  intros Hi. simpl. rewrite (hashInterior_lookup i Hi). simpl.
  unfold child.
  destruct (lookup_lt_is_Some_2 (interiors ip) i Hi) as [node ->].
  destruct (equals e (node_hash ip i)); reflexivity.
Qed.

(** When every interior node below depth [i] carries the expected hash, the
    loop ends with the hash expected under the last node. *)
Lemma exists_loop_pass (fuel : nat) :
  forall i : nat,
    (i + fuel = length (interiors ip))%nat ->
    (forall j, (i <= j < length (interiors ip))%nat ->
               expected_at ip bits j = node_hash ip j) ->
    exists_loop ip bits fuel i (expected_at ip bits i)
    = Return (expected_at ip bits (length (interiors ip))).
Proof.
  induction fuel as [|fuel IH]; intros i Hlen Hall.
  - simpl. replace i with (length (interiors ip)) by lia. reflexivity.
  - rewrite exists_loop_step by lia.
    rewrite (Hall i) by lia. rewrite equals_refl.
    apply (IH (S i)); [lia|]. intros j Hj. apply Hall. lia.
Qed.

(** The first interior node that does not carry the expected hash stops
    the loop. *)
Lemma exists_loop_throw (fuel : nat) :
  forall i k : nat,
    (i + fuel = length (interiors ip))%nat ->
    (i <= k < length (interiors ip))%nat ->
    (forall j, (i <= j < k)%nat -> expected_at ip bits j = node_hash ip j) ->
    expected_at ip bits k <> node_hash ip k ->
    exists_loop ip bits fuel i (expected_at ip bits i)
    = Throw "invalid interior node".
Proof.
  induction fuel as [|fuel IH]; intros i k Hlen Hk Hbefore Hbad.
  - lia.
  - rewrite exists_loop_step by lia.
    destruct (Nat.eq_dec i k) as [->|Hne].
    + apply equals_neq in Hbad. rewrite Hbad. reflexivity.
    + rewrite (Hbefore i) by lia. rewrite equals_refl.
      apply (IH (S i) k); [lia|lia| |exact Hbad].
      intros j Hj. apply Hbefore. lia.
Qed.

End Walk.

(** C3.  For a non-empty key, [exists] throws on a proof without interior
    nodes.  On a proof with interior nodes it takes the 256 bits of
    [sha256(key)], most significant bit first, and starts from the hash of
    interior node 0.  It throws at the first depth whose interior
    node does not hash to the expected value; the value expected below a node
    is its left child when the bit of that depth is set and its right child
    otherwise.  After the last interior node: on the leaf hash it returns
    whether the key is the key of the leaf, on the empty-node hash it returns
    false (each once the prefix test of the node has passed, and throwing
    otherwise), and when neither hash matches it throws. *)
Theorem exists_follows_walk (ip : InclusionProof) (key : Buffer) :
  key <> [] ->
  (interiors ip = [] -> Proof_exists ip key = Throw "no interior node") /\
  (interiors ip <> [] ->
  let bits := hashToBits key in
  let n := length (interiors ip) in
  let walked := firstn n bits in
  (length bits = 256%nat /\
   forall i, (i < 256)%nat -> nth i bits false = digest_bit (sha256 key) i) /\
  (expected_at ip bits 0 = node_hash ip 0 /\
   forall i node, interiors ip !! i = Some node ->
     node_hash ip i = sha256 (left node ++ right node) /\
     expected_at ip bits (S i) = if nth i bits false then left node else right node) /\
  (forall i, (i < n)%nat ->
     (forall j, (j < i)%nat -> expected_at ip bits j = node_hash ip j) ->
     expected_at ip bits i <> node_hash ip i ->
     Proof_exists ip key = Throw "invalid interior node") /\
  ((forall j, (j < n)%nat -> expected_at ip bits j = node_hash ip j) ->
   (expected_at ip bits n = hashLeaf ip ->
    Proof_exists ip key =
    if prefix_accepted walked (leaf_prefix (leaf ip))
    then Return (equals (leaf_key (leaf ip)) key)
    else Throw "invalid prefix in leaf node") /\
   (expected_at ip bits n <> hashLeaf ip ->
    expected_at ip bits n = hashEmpty ip ->
    Proof_exists ip key =
    if prefix_accepted walked (empty_prefix (empty ip))
    then Return false
    else Throw "invalid prefix in empty node") /\
   (expected_at ip bits n <> hashLeaf ip ->
    expected_at ip bits n <> hashEmpty ip ->
    Proof_exists ip key =
    Throw "no corresponding leaf/empty node with respect to the interior node"))).
Proof.
  intros Hkey.
  assert (Hk : (length key =? 0)%nat = false).
  { apply Nat.eqb_neq. destruct key; [contradiction|simpl; lia]. }
  split; [intros Hnil; unfold Proof_exists; rewrite Hk, Hnil; reflexivity|].
  intros Hint bits n walked.
  assert (Hn : (0 < n)%nat).
  { subst n. destruct (interiors ip); [contradiction|simpl; lia]. }
  assert (Hn0 : (length (interiors ip) =? 0)%nat = false).
  { apply Nat.eqb_neq. fold n. lia. }
  assert (Hstart : Proof_exists ip key =
            (e ← exists_loop ip bits n 0 (expected_at ip bits 0);
             if equals e (hashLeaf ip) then
               if negb (prefix_accepted walked (leaf_prefix (leaf ip)))
               then Throw "invalid prefix in leaf node"
               else Return (equals (leaf_key (leaf ip)) key)
             else if equals e (hashEmpty ip) then
               if negb (prefix_accepted walked (empty_prefix (empty ip)))
               then Throw "invalid prefix in empty node"
               else Return false
             else Throw "no corresponding leaf/empty node with respect to the interior node")).
  { unfold Proof_exists. rewrite Hk, Hn0.
    rewrite (hashInterior_lookup ip 0) by (fold n; lia). reflexivity. }
  split; [|split; [|split]].
  - split; [apply length_hashToBits|]. intros i Hi. apply nth_hashToBits, Hi.
  - split; [reflexivity|]. intros i node Hnode.
    unfold node_hash, expected_at, child. rewrite Hnode. split; reflexivity.
  - intros i Hi Hbefore Hbad. rewrite Hstart.
    rewrite (exists_loop_throw ip bits n 0 i); [reflexivity|lia|lia| |exact Hbad].
    intros j Hj. apply Hbefore. lia.
  - intros Hall. rewrite Hstart. clear Hstart.
    rewrite (exists_loop_pass ip bits n 0) by (try lia; intros j Hj; apply Hall; lia).
    fold n. simpl.
    split; [|split].
    + intros ->. rewrite equals_refl.
      destruct (prefix_accepted walked (leaf_prefix (leaf ip))); reflexivity.
    + intros Hl He. apply equals_neq in Hl. rewrite Hl, He, equals_refl.
      destruct (prefix_accepted walked (empty_prefix (empty ip))); reflexivity.
    + intros Hl He. apply equals_neq in Hl, He. rewrite Hl, He. reflexivity.
Qed.

(** ** The chain of forward links *)

Section Chain.

Context {Roster Publics : Type}.
Variable computeHash : SkipBlock Roster -> Buffer.
Variable DataHeader_decode_trieRoot : Buffer -> result Buffer.
Variable getServicePublics : Roster -> string -> Publics.
Variable serviceName : string.
Variable link_verify : ForwardLink Roster -> Publics -> option string.

Local Abbreviation trusted_at := (trusted getServicePublics serviceName).
Local Abbreviation run_links :=
  (verify_links getServicePublics serviceName link_verify).
Local Abbreviation passes :=
  (link_passes getServicePublics serviceName link_verify).
Local Abbreviation verify :=
  (Proof_verify computeHash DataHeader_decode_trieRoot getServicePublics
                serviceName link_verify).
Local Abbreviation is_rooted := (rooted computeHash DataHeader_decode_trieRoot).

Variable p : Proof Roster.

Lemma trusted_step (k : nat) (link : ForwardLink Roster) :
  (1 <= k)%nat -> links p !! k = Some link ->
  trusted_at p (S k) =
  match newRoster link with
  | Some r => getServicePublics r serviceName
  | None => trusted_at p k
  end.
Proof.
  intros Hk Hl. destruct k as [|k]; [lia|].
  change (trusted_at p (S (S k))) with
    (match links p !! S k with
     | Some {| newRoster := Some r |} => getServicePublics r serviceName
     | _ => trusted_at p (S k)
     end).
  rewrite Hl. destruct link as [f t [r|] s]; reflexivity.
Qed.

(** The loop, started at link [k] with the keys trusted there and the end
    of link [k - 1], runs through exactly when every link from [k] on
    passes; it then ends on the end of the last link. *)
Lemma verify_links_through (ls : list (ForwardLink Roster)) :
  forall (k : nat) (before : ForwardLink Roster) (final : Buffer),
    (1 <= k)%nat -> ls = drop k (links p) ->
    links p !! (k - 1)%nat = Some before ->
    run_links ls (trusted_at p k) (to before) = inr final <->
    (forall j link, (k <= j)%nat -> links p !! j = Some link -> passes p j link) /\
    (exists l, last (links p) = Some l /\ final = to l).
Proof.
  induction ls as [|link rest IH]; intros k before final Hk Hls Hbefore.
  - assert (Hlen : length (links p) = k).
    { apply lookup_lt_Some in Hbefore.
      assert (length (drop k (links p)) = 0%nat) as H0 by (rewrite <- Hls; reflexivity).
      rewrite length_drop in H0. lia. }
    assert (Hlast : last (links p) = Some before).
    { rewrite last_lookup, Hlen. replace (Nat.pred k) with (k - 1)%nat by lia.
      exact Hbefore. }
    simpl. split.
    + intros [= <-]. split; [|eauto].
      intros j l Hj Hl. apply lookup_lt_Some in Hl. lia.
    + intros [_ (l & Hl & ->)]. congruence.
  - assert (Hlink : links p !! k = Some link).
    { rewrite <- (Nat.add_0_r k), <- lookup_drop, <- Hls. reflexivity. }
    assert (Hrest : rest = drop (S k) (links p)).
    { rewrite (drop_S _ _ _ Hlink) in Hls. congruence. }
    specialize (IH (S k) link final ltac:(lia) Hrest).
    replace (S k - 1)%nat with k in IH by lia. specialize (IH Hlink).
    cbn [verify_links].
    destruct (link_verify link (trusted_at p k)) as [err|] eqn:Hsig.
    + split; [discriminate|]. intros [Hall _].
      destruct (Hall k link (le_n k) Hlink) as [Hv _]. congruence.
    + destruct (equals (from link) (to before)) eqn:Hfrom; simpl.
      * apply equals_eq in Hfrom.
        rewrite <- (trusted_step k link Hk Hlink), IH.
        split; intros [Hall Hfin]; (split; [|exact Hfin]).
        -- intros j l Hj Hl. destruct (Nat.eq_dec j k) as [->|Hne].
           ++ replace l with link by congruence.
              split; [exact Hsig|]. exists before. split; assumption.
           ++ apply Hall; [lia|exact Hl].
        -- intros j l Hj Hl. apply Hall; [lia|exact Hl].
      * apply equals_neq in Hfrom.
        split; [discriminate|]. intros [Hall _].
        destruct (Hall k link (le_n k) Hlink) as [_ (b & Hb & Heq)].
        congruence.
Qed.

(** The first link that does not pass decides the error: a signature that
    does not verify against the keys trusted at that link, else a start
    that is not the end of the link before. *)
Lemma verify_links_stops (ls : list (ForwardLink Roster)) :
  forall (k j : nat) (before : ForwardLink Roster) (link : ForwardLink Roster),
    (1 <= k <= j)%nat -> ls = drop k (links p) ->
    links p !! (k - 1)%nat = Some before ->
    links p !! j = Some link ->
    (forall i l, (k <= i < j)%nat -> links p !! i = Some l -> passes p i l) ->
    ~ passes p j link ->
    run_links ls (trusted_at p k) (to before) =
    inl (match link_verify link (trusted_at p j) with
         | Some err => "invalid forward link signature: " ++ err
         | None => "invalid chain of forward links"
         end)%string.
Proof.
  induction ls as [|l0 rest IH]; intros k j before link Hk Hls Hbefore Hj Hall Hbad.
  - apply lookup_lt_Some in Hj.
    assert (length (drop k (links p)) = 0%nat) as H0 by (rewrite <- Hls; reflexivity).
    rewrite length_drop in H0. lia.
  - assert (Hl0 : links p !! k = Some l0).
    { rewrite <- (Nat.add_0_r k), <- lookup_drop, <- Hls. reflexivity. }
    assert (Hrest : rest = drop (S k) (links p)).
    { rewrite (drop_S _ _ _ Hl0) in Hls. congruence. }
    cbn [verify_links].
    destruct (Nat.eq_dec k j) as [->|Hne].
    + replace l0 with link by congruence.
      destruct (link_verify link (trusted_at p j)) as [err|] eqn:Hsig; [reflexivity|].
      destruct (equals (from link) (to before)) eqn:Hfrom; [|reflexivity].
      exfalso. apply Hbad. split; [exact Hsig|].
      exists before. split; [exact Hbefore|]. apply equals_eq, Hfrom.
    + destruct (Hall k l0 ltac:(lia) Hl0) as [Hsig (b & Hb & Hfrom)].
      rewrite Hsig.
      assert (b = before) as -> by congruence.
      rewrite Hfrom, equals_refl. simpl.
      rewrite <- (trusted_step k l0 ltac:(lia) Hl0).
      apply (IH (S k) j l0 link); try assumption; try lia.
      * replace (S k - 1)%nat with k by lia. exact Hl0.
      * intros i l Hi Hl. apply Hall; [lia|exact Hl].
Qed.

Lemma run_links_message (ls : list (ForwardLink Roster)) :
  forall (publics : Publics) (prev : Buffer) (msg : string),
    run_links ls publics prev = inl msg ->
    msg <> "first link must come from the genesis block"%string.
Proof.
  induction ls as [|link rest IH]; intros publics prev msg; cbn [verify_links].
  - discriminate.
  - destruct (link_verify link publics) as [err|].
    + intros [= <-]. discriminate.
    + destruct (equals (from link) prev); simpl.
      * apply IH.
      * intros [= <-]. discriminate.
Qed.

(** Past steps (1) and (2), [verify] reads the first link. *)
Lemma verify_rooted (genesisID : Buffer) :
  is_rooted p ->
  verify p genesisID =
  match links p !! 0%nat with
  | None => Throw TypeError
  | Some l0 =>
      if equals (to l0) genesisID then
        match run_links (drop 1 (links p)) (trusted_at p 1) (to l0) with
        | inl msg => Return (Some msg)
        | inr prev =>
            if equals prev (hash (latest p)) then Return None
            else Return (Some "last forward link does not point to the latest block"%string)
        end
      else Return (Some "first link must come from the genesis block"%string)
  end.
Proof.
  intros [Hhash (root & Hdec & Hroot)]. unfold Proof_verify.
  rewrite Hhash, equals_refl, Hdec, Hroot. simpl. rewrite equals_refl. simpl.
  destruct (links p !! 0%nat) as [l0|]; [|reflexivity].
  destruct (equals (to l0) genesisID); simpl; [|reflexivity].
  destruct (verify_links _ _ _ _ _ _); [reflexivity|].
  destruct (equals _ _); reflexivity.
Qed.

Lemma verify_not_rooted (genesisID : Buffer) (r : option string) :
  verify p genesisID = Return r ->
  r <> Some "invalid latest block"%string ->
  r <> Some "invalid root"%string ->
  is_rooted p.
Proof.
  unfold Proof_verify, rooted.
  destruct (equals (computeHash (latest p)) (hash (latest p))) eqn:Hhash; simpl;
    [|intros [= <-] H; contradiction].
  apply equals_eq in Hhash.
  destruct (DataHeader_decode_trieRoot (data (latest p))) as [root|] eqn:Hdec; simpl;
    [|discriminate].
  destruct (hashInterior (inclusionproof p) 0) as [h0|] eqn:Hh0; simpl; [|discriminate].
  destruct (equals h0 root) eqn:Hroot; simpl; [|intros [= <-] _ H; contradiction].
  apply equals_eq in Hroot. subst h0. intros _ _ _.
  split; [exact Hhash|]. exists root. split; reflexivity.
Qed.

(** C4.  [verify] returns no error exactly when steps (1) and (2) pass, the
    first link ends at the genesis hash, every link [links[k]], [k >= 1],
    verifies against the keys trusted at [k] and starts where link [k - 1]
    ends, and the last link ends at the hash of the latest block.  The keys
    trusted at link 1 are those of the latest block's roster; a new roster
    carried by link [k] is trusted from link [k + 1] on, link [k] itself
    being checked against the keys in effect before.  The first link that
    does not pass makes [verify] return the error of that link. *)
Theorem verify_walks_links_with_rotation (genesisID : Buffer) :
  (verify p genesisID = Return None <->
   is_rooted p /\
   (exists l0, links p !! 0%nat = Some l0 /\ to l0 = genesisID) /\
   (forall k link, (1 <= k)%nat -> links p !! k = Some link -> passes p k link) /\
   (exists l, last (links p) = Some l /\ to l = hash (latest p))) /\
  trusted_at p 1 = getServicePublics (roster (latest p)) serviceName /\
  (forall k link, (1 <= k)%nat -> links p !! k = Some link ->
     trusted_at p (S k) =
     match newRoster link with
     | Some r => getServicePublics r serviceName
     | None => trusted_at p k
     end) /\
  (forall k link l0,
     is_rooted p -> links p !! 0%nat = Some l0 -> to l0 = genesisID ->
     (1 <= k)%nat -> links p !! k = Some link ->
     (forall i l, (1 <= i < k)%nat -> links p !! i = Some l -> passes p i l) ->
     ~ passes p k link ->
     verify p genesisID =
     Return (Some (match link_verify link (trusted_at p k) with
                   | Some err => "invalid forward link signature: " ++ err
                   | None => "invalid chain of forward links"
                   end)%string)).
Proof.
  split; [|split; [reflexivity|split]].
  - split.
    + intros Hok.
      assert (Hr : is_rooted p) by (apply (verify_not_rooted genesisID None Hok); discriminate).
      rewrite (verify_rooted genesisID Hr) in Hok.
      destruct (links p !! 0%nat) as [l0|] eqn:Hl0; [|discriminate].
      destruct (equals (to l0) genesisID) eqn:Hto; [|discriminate].
      apply equals_eq in Hto.
      destruct (run_links _ _ _) as [msg|final] eqn:Hrun; [discriminate|].
      destruct (equals final (hash (latest p))) eqn:Hfin; [|discriminate].
      apply equals_eq in Hfin.
      apply (verify_links_through _ 1 l0 final (le_n 1) eq_refl Hl0) in Hrun.
      destruct Hrun as [Hall (l & Hlast & ->)].
      split; [exact Hr|]. split; [eauto|]. split; [exact Hall|]. eauto.
    + intros (Hr & (l0 & Hl0 & Hto) & Hall & (l & Hlast & Hfin)).
      subst genesisID.
      rewrite (verify_rooted (to l0) Hr), Hl0, equals_refl.
      assert (Hrun : run_links (drop 1 (links p)) (trusted_at p 1) (to l0) = inr (to l)).
      { apply (verify_links_through _ 1 l0 (to l) (le_n 1) eq_refl Hl0).
        split; [exact Hall|]. eauto. }
      rewrite Hrun, Hfin, equals_refl. reflexivity.
  - intros k link Hk Hl. apply trusted_step; assumption.
  - intros k link l0 Hr Hl0 Hto Hk Hl Hbefore Hbad. subst genesisID.
    rewrite (verify_rooted (to l0) Hr), Hl0, equals_refl.
    rewrite (verify_links_stops _ 1 k l0 link); try assumption; try reflexivity.
    lia.
Qed.

(** C2, as the code has it.  [verify] requires the first forward link to
    END at the genesis hash: it returns the error "first link must come from
    the genesis block", which no other check returns, exactly when steps (1)
    and (2) pass and [links[0].to] is not the genesis hash; and it returns no
    error only if [links[0].to] is the genesis hash.  Where the first link
    starts is not examined. *)
Theorem verify_first_link_ends_at_genesis (genesisID : Buffer) :
  (verify p genesisID = Return (Some "first link must come from the genesis block"%string) <->
   is_rooted p /\ exists l0, links p !! 0%nat = Some l0 /\ to l0 <> genesisID) /\
  (verify p genesisID = Return None ->
   exists l0, links p !! 0%nat = Some l0 /\ to l0 = genesisID) /\
  (forall l0 l0' : ForwardLink Roster,
     links p !! 0%nat = Some l0 -> to l0' = to l0 ->
     verify {| inclusionproof := inclusionproof p; latest := latest p;
               links := l0' :: drop 1 (links p) |} genesisID
     = verify p genesisID).
Proof.
  split; [split|split].
  - intros Herr.
    assert (Hr : is_rooted p)
      by (apply (verify_not_rooted genesisID _ Herr); discriminate).
    split; [exact Hr|].
    rewrite (verify_rooted genesisID Hr) in Herr.
    destruct (links p !! 0%nat) as [l0|] eqn:Hl0; [|discriminate].
    exists l0. split; [reflexivity|].
    destruct (equals (to l0) genesisID) eqn:Hto; [|apply equals_neq, Hto].
    destruct (run_links _ _ _) as [msg|final] eqn:Hrun.
    + injection Herr as ->. apply run_links_message in Hrun. contradiction.
    + destruct (equals final (hash (latest p))); discriminate.
  - intros (Hr & l0 & Hl0 & Hto).
    rewrite (verify_rooted genesisID Hr), Hl0.
    apply equals_neq in Hto. rewrite Hto. reflexivity.
  - intros Hok.
    assert (Hr : is_rooted p) by (apply (verify_not_rooted genesisID None Hok); discriminate).
    rewrite (verify_rooted genesisID Hr) in Hok.
    destruct (links p !! 0%nat) as [l0|] eqn:Hl0; [|discriminate].
    exists l0. split; [reflexivity|].
    destruct (equals (to l0) genesisID) eqn:Hto; [|discriminate].
    apply equals_eq, Hto.
  - intros l0 l0' Hl0 Hto. unfold Proof_verify. cbn [inclusionproof latest links].
    rewrite Hl0. cbn [lookup list_lookup]. rewrite Hto.
    destruct (links p) as [|x rest]; [discriminate|]. reflexivity.
Qed.

End Chain.

(** ** The trie walk on the fixtures *)

(** Digests of concrete buffers are evaluated by the virtual machine only. *)
#[global] Opaque sha256.

Lemma fixture_key_not_nil : Fixture.key <> [].
Proof. discriminate. Qed.

Lemma fixture_trie_nodes : interiors Fixture.trie <> [].
Proof. discriminate. Qed.

Lemma fixture_trie_chained (j : nat) :
  (j < length (interiors Fixture.trie))%nat ->
  expected_at Fixture.trie (hashToBits Fixture.key) j = node_hash Fixture.trie j.
Proof.
  destruct j as [|j]; intros Hj; [vm_compute; reflexivity|].
  exfalso. vm_compute in Hj. lia.
Qed.

Lemma fixture_trie_ends_on_leaf :
  expected_at Fixture.trie (hashToBits Fixture.key) (length (interiors Fixture.trie))
  = hashLeaf Fixture.trie.
Proof. vm_compute. reflexivity. Qed.

Lemma exists_follows_walk_fixture :
  Fixture.key <> [] /\ interiors Fixture.trie <> [] /\
  Proof_exists Fixture.trie Fixture.key = Return true.
Proof.
  split; [exact fixture_key_not_nil|]. split; [exact fixture_trie_nodes|].
  rewrite (proj1 (proj2 (proj2 (proj2
             (proj2 (exists_follows_walk Fixture.trie Fixture.key fixture_key_not_nil)
                    fixture_trie_nodes)))
             fixture_trie_chained) fixture_trie_ends_on_leaf).
  vm_compute. reflexivity.
Defined.

(** What the test on the declared prefix amounts to: every bit value that
    occurs among the bits walked also occurs somewhere in the prefix. *)
Lemma prefix_accepted_incl (walked prefix : list bool) :
  prefix_accepted walked prefix = true <-> (forall b, In b walked -> In b prefix).
Proof.
  unfold prefix_accepted, difference. rewrite Nat.eqb_eq, length_zero_iff_nil.
  induction walked as [|x walked IH]; simpl.
  - split; [intros _ b []|reflexivity].
  - destruct (existsb (Bool.eqb x) prefix) eqn:Hx; simpl.
    + rewrite IH. apply existsb_exists in Hx as (y & Hy & Hxy).
      apply Bool.eqb_prop in Hxy. subst y.
      split; [intros H b [<-|Hb]; auto|intros H b Hb; apply H; right; exact Hb].
    + split; [discriminate|]. intros H. exfalso.
      assert (Hin : In x prefix) by (apply H; left; reflexivity).
      assert (existsb (Bool.eqb x) prefix = true) as Ht.
      { apply existsb_exists. exists x. split; [exact Hin|]. destruct x; reflexivity. }
      congruence.
Qed.

Lemma prefix_accepted_same (walked : list bool) : prefix_accepted walked walked = true.
Proof. apply prefix_accepted_incl. auto. Qed.

(** C1, on the code.  The walk for the key ["k"] takes the bit [1] and ends
    on the hash of a leaf that declares the prefix [0 1]; [exists] returns
    [true] instead of throwing.  The walk for the key ["b"] takes the bit [0]
    and ends on the hash of an empty node that declares the prefix [1 0];
    [exists] returns [false] instead of throwing. *)
Theorem exists_accepts_unequal_prefix :
  (let ip := Fixture.leaf_elsewhere in
   let walked := firstn (length (interiors ip)) (hashToBits Fixture.key) in
   expected_at ip (hashToBits Fixture.key) (length (interiors ip)) = hashLeaf ip /\
   walked = [true] /\ leaf_prefix (leaf ip) = [false; true] /\
   Proof_exists ip Fixture.key = Return true) /\
  (let ip := Fixture.empty_elsewhere in
   let walked := firstn (length (interiors ip)) (hashToBits Fixture.other_key) in
   expected_at ip (hashToBits Fixture.other_key) (length (interiors ip)) = hashEmpty ip /\
   walked = [false] /\ empty_prefix (empty ip) = [true; false] /\
   Proof_exists ip Fixture.other_key = Return false).
Proof. vm_compute. repeat split; reflexivity. Qed.

(** ** The chain of forward links on the fixtures *)

Lemma fixture_rooted (p : Proof Fixture.Roster) :
  inclusionproof p = Fixture.trie ->
  latest p = Fixture.block Fixture.old_roster ->
  rooted Fixture.computeHash Fixture.decode_trieRoot p.
Proof.
  intros Hip Hlatest. unfold rooted. rewrite Hip, Hlatest.
  split; [vm_compute; reflexivity|].
  exists (node_hash Fixture.trie 0). split; vm_compute; reflexivity.
Qed.

Lemma fixture_chain_rooted (signers : Fixture.Roster) :
  rooted Fixture.computeHash Fixture.decode_trieRoot (Fixture.chain signers).
Proof. apply fixture_rooted; reflexivity. Qed.

Lemma fixture_chain_first (signers : Fixture.Roster) :
  links (Fixture.chain signers) !! 0%nat = Some (Fixture.link [] [] Fixture.genesis_hash None).
Proof. reflexivity. Qed.

Lemma fixture_chain_link_1 (signers : Fixture.Roster) :
  link_passes Fixture.getServicePublics Fixture.serviceName Fixture.link_verify
    (Fixture.chain signers) 1
    (Fixture.link Fixture.old_roster Fixture.genesis_hash Fixture.middle_hash
                  (Some Fixture.new_roster)).
Proof.
  split; [vm_compute; reflexivity|].
  exists (Fixture.link [] [] Fixture.genesis_hash None).
  split; [reflexivity|vm_compute; reflexivity].
Qed.

Lemma fixture_chain_link_2 :
  link_passes Fixture.getServicePublics Fixture.serviceName Fixture.link_verify
    (Fixture.chain Fixture.new_roster) 2
    (Fixture.link Fixture.new_roster Fixture.middle_hash
                  (hash (Fixture.block Fixture.old_roster)) None).
Proof.
  split; [vm_compute; reflexivity|].
  exists (Fixture.link Fixture.old_roster Fixture.genesis_hash Fixture.middle_hash
                       (Some Fixture.new_roster)).
  split; [reflexivity|vm_compute; reflexivity].
Qed.

Lemma fixture_chain_links_pass (k : nat) (l : ForwardLink Fixture.Roster) :
  (1 <= k)%nat -> links (Fixture.chain Fixture.new_roster) !! k = Some l ->
  link_passes Fixture.getServicePublics Fixture.serviceName Fixture.link_verify
    (Fixture.chain Fixture.new_roster) k l.
Proof.
  intros Hk. destruct k as [|[|[|k]]]; [lia| | |discriminate].
  - intros [= <-]. apply fixture_chain_link_1.
  - intros [= <-]. apply fixture_chain_link_2.
Qed.

Lemma fixture_chain_link_2_refused :
  Fixture.link_verify
    (Fixture.link Fixture.old_roster Fixture.middle_hash
                  (hash (Fixture.block Fixture.old_roster)) None)
    (trusted Fixture.getServicePublics Fixture.serviceName
             (Fixture.chain Fixture.old_roster) 2)
  = Some "signature mismatch"%string.
Proof. vm_compute. reflexivity. Qed.

(** A roster change in the middle of the chain: with link 2 signed by the new
    roster [verify] returns no error, with link 2 signed by the old roster it
    returns the signature error. *)
Lemma verify_walks_links_with_rotation_fixture :
  Fixture.verify (Fixture.chain Fixture.new_roster) Fixture.genesis_hash = Return None /\
  Fixture.verify (Fixture.chain Fixture.old_roster) Fixture.genesis_hash
  = Return (Some "invalid forward link signature: signature mismatch"%string).
Proof.
  pose proof (verify_walks_links_with_rotation
                Fixture.computeHash Fixture.decode_trieRoot Fixture.getServicePublics
                Fixture.serviceName Fixture.link_verify) as H.
  unfold Fixture.verify. split.
  - destruct (H (Fixture.chain Fixture.new_roster) Fixture.genesis_hash) as (Hok & _).
    apply Hok. split; [apply fixture_chain_rooted|].
    split; [exists (Fixture.link [] [] Fixture.genesis_hash None); split; reflexivity|].
    split; [exact fixture_chain_links_pass|].
    exists (Fixture.link Fixture.new_roster Fixture.middle_hash
                         (hash (Fixture.block Fixture.old_roster)) None).
    split; reflexivity.
  - destruct (H (Fixture.chain Fixture.old_roster) Fixture.genesis_hash) as (_ & _ & _ & Hstop).
    rewrite (Hstop 2%nat
               (Fixture.link Fixture.old_roster Fixture.middle_hash
                             (hash (Fixture.block Fixture.old_roster)) None)
               (Fixture.link [] [] Fixture.genesis_hash None)
               (fixture_chain_rooted _) eq_refl eq_refl ltac:(lia) eq_refl).
    + vm_compute. reflexivity.
    + intros [|[|i]] l Hi; [lia| |lia].
      intros [= <-]. apply fixture_chain_link_1.
    + intros [Hsig _]. rewrite fixture_chain_link_2_refused in Hsig. discriminate.
Defined.

(** C2, at a first link that starts at the genesis hash and ends elsewhere,
    and at one that starts elsewhere and ends at the genesis hash: the first
    is refused, the second accepted. *)
Lemma verify_ignores_start_of_first_link :
  let genesis := hash (Fixture.block Fixture.old_roster) in
  (from (Fixture.link [] genesis Fixture.middle_hash None) = genesis /\
   Fixture.verify (Fixture.single genesis Fixture.middle_hash) genesis
   = Return (Some "first link must come from the genesis block"%string)) /\
  (from (Fixture.link [] Fixture.middle_hash genesis None) <> genesis /\
   Fixture.verify (Fixture.single Fixture.middle_hash genesis) genesis = Return None).
Proof.
  vm_compute. repeat split; try reflexivity. discriminate.
Qed.

Lemma fixture_single_verifies :
  Fixture.verify
    (Fixture.single Fixture.middle_hash (hash (Fixture.block Fixture.old_roster)))
    (hash (Fixture.block Fixture.old_roster)) = Return None.
Proof. vm_compute. reflexivity. Qed.

Lemma verify_first_link_ends_at_genesis_fixture :
  exists l0,
    links (Fixture.single Fixture.middle_hash (hash (Fixture.block Fixture.old_roster)))
      !! 0%nat = Some l0 /\
    to l0 = hash (Fixture.block Fixture.old_roster).
Proof.
  exact (proj1 (proj2
           (verify_first_link_ends_at_genesis
              Fixture.computeHash Fixture.decode_trieRoot Fixture.getServicePublics
              Fixture.serviceName Fixture.link_verify
              (Fixture.single Fixture.middle_hash (hash (Fixture.block Fixture.old_roster)))
              (hash (Fixture.block Fixture.old_roster))))
           fixture_single_verifies).
Defined.

(** ** Hashing and signing transactions *)

Lemma fold_update {A} (f : A -> Buffer) (l : list A) (h : Buffer) :
  fold_left (fun h x => update h (f x)) l h = h ++ concat (map f l).
Proof.
  revert h; induction l as [|x l IH]; intros h; simpl.
  - rewrite app_nil_r. reflexivity.
  - rewrite IH. unfold update. rewrite <- app_assoc. reflexivity.
Qed.

Lemma Long_bytes_of_length (n : nat) :
  Long_toBytesLE (Long_fromNumber n) = bytesLE 8 (Z.of_nat n).
Proof.
  unfold Long_toBytesLE, Long_fromNumber, Long_wrap.
  generalize (Z.of_nat n). intros z.
  assert (H : forall k m z, (k <= m)%nat ->
            bytesLE k (z mod 2 ^ (8 * Z.of_nat m)) = bytesLE k z).
  { induction k as [|k IH]; intros m x Hk; [reflexivity|].
    destruct m as [|m]; [lia|].
    assert (Hm : 0 < 2 ^ (8 * Z.of_nat m)) by (apply Z.pow_pos_nonneg; lia).
    replace (8 * Z.of_nat (S m)) with (8 + 8 * Z.of_nat m) by lia.
    rewrite Z.pow_add_r by lia. change (2 ^ 8) with 256.
    rewrite (Z.rem_mul_r x 256 (2 ^ (8 * Z.of_nat m))) by lia.
    rewrite (Z.mul_comm 256).
    simpl bytesLE. f_equal.
    - unfold byte_of_Z. rewrite Z.mod_add by lia. rewrite Z.mod_mod by lia.
      reflexivity.
    - rewrite !Z.shiftr_div_pow2 by lia. change (2 ^ 8) with 256.
      rewrite Z.div_add by lia.
      rewrite (Z.div_small (x mod 256) 256) by (apply Z.mod_pos_bound; lia).
      rewrite Z.add_0_l. apply IH. lia. }
  apply (H 8%nat 8%nat z). lia.
Qed.

(** The hash object after the instructions have been fed to it. *)
Lemma hash_instructions_concat (l : list Instruction) :
  forall (h : Buffer) (hs : list Buffer),
    mapM Instruction_hash l = Return hs ->
    hash_instructions h l = Return (h ++ concat hs).
Proof.
  induction l as [|i l IH]; intros h hs; simpl.
  - intros [= <-]. simpl. rewrite app_nil_r. reflexivity.
  - destruct (Instruction_hash i) as [ih|msg]; simpl; [|discriminate].
    destruct (mapM Instruction_hash l) as [rest|msg] eqn:Hrest; simpl; [|discriminate].
    intros [= <-]. rewrite (IH (update h ih) rest eq_refl).
    unfold update. simpl. rewrite <- app_assoc. reflexivity.
Qed.

Lemma hash_instructions_throw (l : list Instruction) :
  forall (h : Buffer) (msg : string),
    mapM Instruction_hash l = Throw msg -> hash_instructions h l = Throw msg.
Proof.
  induction l as [|i l IH]; intros h msg; simpl; [discriminate|].
  destruct (Instruction_hash i) as [ih|m]; simpl; [|intros [= <-]; reflexivity].
  destruct (mapM Instruction_hash l) as [rest|m] eqn:Hrest; simpl; [discriminate|].
  intros [= <-]. apply IH. reflexivity.
Qed.

Lemma signWith_each_lookup (ctxHash : Buffer) (l : list Instruction) :
  forall signers : list (list Signer),
    length signers = length l ->
    exists l',
      signWith_each ctxHash l signers = Return l' /\
      length l' = length l /\
      forall k ins group,
        l !! k = Some ins -> signers !! k = Some group ->
        l' !! k = Some (Instruction_signWith ins ctxHash group).
Proof.
  induction l as [|i l IH]; intros signers Hlen.
  - exists []. split; [reflexivity|]. split; [reflexivity|]. intros k ins g Hk. discriminate.
  - destruct signers as [|g signers]; [discriminate|].
    destruct (IH signers ltac:(simpl in Hlen; lia)) as (l' & Hl' & Hlen' & Hall).
    exists (Instruction_signWith i ctxHash g :: l').
    split; [simpl; rewrite Hl'; reflexivity|].
    split; [simpl; lia|].
    intros [|k] ins group; simpl.
    + intros [= <-] [= <-]. reflexivity.
    + apply Hall.
Qed.

(** C5.  The transaction hash is the digest of the instruction hashes,
    concatenated in list order.  [signWith] throws when the number of signer
    groups is not the number of instructions; otherwise instruction [k]
    receives as its signatures those of the signers of group [k] over the
    transaction hash, its other fields being kept. *)
Theorem signWith_signs_transaction_hash (tx : ClientTransaction) (hs : list Buffer) :
  mapM Instruction_hash (instructions tx) = Return hs ->
  let ctxHash := sha256 (concat hs) in
  ClientTransaction_hash tx = Return ctxHash /\
  (forall signers : list (list Signer),
     length signers <> length (instructions tx) ->
     signWith tx signers = Throw "need same number of signers as instructions") /\
  (forall signers : list (list Signer),
     length signers = length (instructions tx) ->
     exists tx',
       signWith tx signers = Return tx' /\
       length (instructions tx') = length (instructions tx) /\
       forall k ins group,
         instructions tx !! k = Some ins -> signers !! k = Some group ->
         exists ins',
           instructions tx' !! k = Some ins' /\
           signatures ins' = map (fun s : Signer => sign s ctxHash) group /\
           (spawn ins', invoke ins', delete ins', instanceID ins') =
           (spawn ins, invoke ins, delete ins, instanceID ins) /\
           signerCounter ins' = signerCounter ins /\
           signerIdentities ins' = signerIdentities ins).
Proof.
  intros Hhs ctxHash.
  assert (Hhash : ClientTransaction_hash tx = Return ctxHash).
  { unfold ClientTransaction_hash.
    rewrite (hash_instructions_concat _ createHash hs Hhs). reflexivity. }
  split; [exact Hhash|]. split.
  - intros signers Hlen. unfold signWith. rewrite Hhash. simpl.
    apply Nat.eqb_neq in Hlen. rewrite Hlen. reflexivity.
  - intros signers Hlen. unfold signWith. rewrite Hhash. simpl.
    rewrite (proj2 (Nat.eqb_eq _ _) Hlen). simpl.
    destruct (signWith_each_lookup ctxHash (instructions tx) signers Hlen)
      as (l' & Hl' & Hlen' & Hall).
    rewrite Hl'. simpl. eexists. split; [reflexivity|]. split; [exact Hlen'|].
    intros k ins group Hins Hgroup.
    exists (Instruction_signWith ins ctxHash group).
    split; [apply (Hall k ins group Hins Hgroup)|]. repeat split.
Qed.

(** An instruction without a kind makes the transaction hash, and with it
    [signWith], throw. *)
Lemma signWith_untyped (tx : ClientTransaction) (signers : list (list Signer)) (msg : string) :
  mapM Instruction_hash (instructions tx) = Throw msg ->
  ClientTransaction_hash tx = Throw msg /\ signWith tx signers = Throw msg.
Proof.
  intros H. unfold signWith, ClientTransaction_hash.
  rewrite (hash_instructions_throw _ createHash msg H). split; reflexivity.
Qed.

Lemma fixture_transaction_hashes :
  exists hs, mapM Instruction_hash (instructions Fixture.transaction) = Return hs.
Proof. eexists. vm_compute. reflexivity. Qed.

Lemma signWith_signs_transaction_hash_fixture :
  exists hs,
    mapM Instruction_hash (instructions Fixture.transaction) = Return hs /\
    ClientTransaction_hash Fixture.transaction = Return (sha256 (concat hs)) /\
    signWith Fixture.transaction [[Fixture.signer "alice"]]
    = Throw "need same number of signers as instructions".
Proof.
  destruct fixture_transaction_hashes as [hs Hhs]. exists hs.
  split; [exact Hhs|].
  destruct (signWith_signs_transaction_hash Fixture.transaction hs Hhs) as (Hh & Hne & _).
  split; [exact Hh|]. apply Hne. simpl. lia.
Defined.

(** ** The canonical hash of an instruction *)

Lemma fold_hash_arg (args : list Argument) (h : Buffer) :
  fold_left hash_arg args h = h ++ concat (map encode_arg args).
Proof.
  revert h; induction args as [|a args IH]; intros h; simpl.
  - rewrite app_nil_r. reflexivity.
  - rewrite IH. unfold hash_arg, encode_arg, update.
    rewrite !Long_bytes_of_length, <- !app_assoc. reflexivity.
Qed.

Lemma fold_hash_counter (cs : list Z) (h : Buffer) :
  fold_left hash_counter cs h = h ++ concat (map encode_counter cs).
Proof. apply (fold_update encode_counter). Qed.

Lemma fold_hash_identity (ids : list IdentityWrapper) (h : Buffer) :
  fold_left hash_identity ids h = h ++ concat (map encode_identity ids).
Proof.
  revert h; induction ids as [|w ids IH]; intros h; simpl.
  - rewrite app_nil_r. reflexivity.
  - rewrite IH. unfold hash_identity, encode_identity, update.
    rewrite Long_bytes_of_length, <- !app_assoc. reflexivity.
Qed.

Lemma Instruction_hash_canonical (ins : Instruction) :
  Instruction_hash ins = canonical_hash ins.
Proof.
  unfold Instruction_hash, Instruction_hash_input, canonical_hash,
    contract_and_args, Instruction_type, type_contract_args.
  destruct (spawn ins) as [s|]; [|destruct (invoke ins) as [v|];
    [|destruct (delete ins) as [d|]; [|reflexivity]]];
    simpl; rewrite fold_hash_identity, fold_hash_counter, ?fold_hash_arg;
    unfold digest, update, createHash; simpl; rewrite <- ?app_assoc; simpl;
    rewrite ?app_nil_r; reflexivity.
Qed.

(** C6.  The hash of an instruction is a function of its target, kind,
    contract identifier, arguments, counters and identities: it is the digest
    of their encodings, the three lists being encoded element by element in
    list order, so that two instructions that agree on these fields have the
    same hash.  The order matters: there are instructions whose hash changes
    when two arguments, two counters or two identities are exchanged. *)
Theorem Instruction_hash_in_list_order :
  (forall ins, Instruction_hash ins = canonical_hash ins) /\
  (forall i1 i2,
     instanceID i1 = instanceID i2 ->
     contract_and_args i1 = contract_and_args i2 ->
     signerCounter i1 = signerCounter i2 ->
     signerIdentities i1 = signerIdentities i2 ->
     Instruction_hash i1 = Instruction_hash i2) /\
  (exists args args' cs ids,
     Permutation args args' /\
     Instruction_hash (Fixture.instruction args cs ids)
     <> Instruction_hash (Fixture.instruction args' cs ids)) /\
  (exists args cs cs' ids,
     Permutation cs cs' /\
     Instruction_hash (Fixture.instruction args cs ids)
     <> Instruction_hash (Fixture.instruction args cs' ids)) /\
  (exists args cs ids ids',
     Permutation ids ids' /\
     Instruction_hash (Fixture.instruction args cs ids)
     <> Instruction_hash (Fixture.instruction args cs ids')).
Proof.
  split; [exact Instruction_hash_canonical|]. split.
  - intros i1 i2 Hid Hca Hc Hi. rewrite !Instruction_hash_canonical.
    unfold canonical_hash. rewrite Hid, Hca, Hc, Hi. reflexivity.
  - split; [|split].
    + exists [Fixture.arg "a" "1"; Fixture.arg "b" "2"],
             [Fixture.arg "b" "2"; Fixture.arg "a" "1"], [1; 2], [Fixture.alice; Fixture.bob].
      split; [apply perm_swap|]. apply Return_differs. vm_compute. reflexivity.
    + exists [Fixture.arg "a" "1"; Fixture.arg "b" "2"], [1; 2], [2; 1],
             [Fixture.alice; Fixture.bob].
      split; [apply perm_swap|]. apply Return_differs. vm_compute. reflexivity.
    + exists [Fixture.arg "a" "1"; Fixture.arg "b" "2"], [1; 2],
             [Fixture.alice; Fixture.bob], [Fixture.bob; Fixture.alice].
      split; [apply perm_swap|]. apply Return_differs. vm_compute. reflexivity.
Qed.

(** ** Derived identifiers *)

Lemma fold_signatures (sigs : list Buffer) (h : Buffer) :
  fold_left (fun h sig =>
               let b := uint32LE (length sig) in
               let h := update h b in update h sig) sigs h
  = h ++ concat (map encode_signature sigs).
Proof.
  revert h; induction sigs as [|sig sigs IH]; intros h; simpl.
  - rewrite app_nil_r. reflexivity.
  - rewrite IH. unfold update, encode_signature, uint32LE.
    rewrite <- !app_assoc. reflexivity.
Qed.

Lemma derive_input_length (h : Buffer) (sigs : list Buffer) (what : string) :
  length (derive_input h sigs what)
  = (length (derive_input h sigs "") + length (utf8 what))%nat.
Proof.
  unfold derive_input. rewrite !length_app. simpl. lia.
Qed.

(** C7.  For an instruction whose hash is [h], [deriveId(what)] is the digest
    of [h], the number of signatures on four little-endian bytes, each
    signature preceded by its length on four little-endian bytes, and the
    discriminant.  It is a function of the instruction and the discriminant.
    The bytes digested for the discriminants [""] and ["x"] always differ, so
    the two identifiers can only coincide on a collision of SHA-256 between
    a message and the same message followed by the byte of ["x"]; on the
    fixture instruction they differ. *)
Theorem deriveId_digest :
  (forall ins h what,
     Instruction_hash ins = Return h ->
     deriveId ins what = Return (sha256 (derive_input h (signatures ins) what))) /\
  (forall ins ins' what what',
     ins = ins' -> what = what' -> deriveId ins what = deriveId ins' what') /\
  (forall ins h,
     Instruction_hash ins = Return h ->
     derive_input h (signatures ins) "" <> derive_input h (signatures ins) "x" /\
     (deriveId ins "" = deriveId ins "x" ->
      exists m, m ++ utf8 "x" <> m /\ sha256 (m ++ utf8 "x") = sha256 m)) /\
  (let ins := Fixture.instruction [Fixture.arg "a" "1"] [1] [Fixture.alice] in
   deriveId ins "" <> deriveId ins "x").
Proof.
  assert (Hd : forall ins h what,
             Instruction_hash ins = Return h ->
             deriveId ins what = Return (sha256 (derive_input h (signatures ins) what))).
  { intros ins h what Hh. unfold deriveId. rewrite Hh. simpl.
    rewrite fold_signatures. unfold digest, update, createHash, uint32LE, derive_input.
    simpl. rewrite <- !app_assoc. reflexivity. }
  assert (Hlonger : forall m : Buffer, m ++ utf8 "x" <> m).
  { intros m H. apply (f_equal (@length _)) in H. rewrite length_app in H.
    simpl in H. lia. }
  split; [exact Hd|]. split; [intros ins ins' what what' -> ->; reflexivity|].
  split.
  - intros ins h Hh. split.
    + intros H. apply (f_equal (@length _)) in H.
      rewrite (derive_input_length _ _ "x") in H. simpl in H. lia.
    + rewrite !(Hd ins h _ Hh). intros [= H].
      exists (derive_input h (signatures ins) ""). split; [apply Hlonger|].
      rewrite H. f_equal. unfold derive_input.
      rewrite <- !app_assoc. reflexivity.
  - intros ins. apply Return_differs. vm_compute. reflexivity.
Qed.

Lemma fixture_instruction_hash :
  exists h, Instruction_hash (Fixture.instruction [Fixture.arg "a" "1"] [1] [Fixture.alice])
            = Return h.
Proof. eexists. vm_compute. reflexivity. Qed.

Lemma deriveId_digest_fixture :
  let ins := Fixture.instruction [Fixture.arg "a" "1"] [1] [Fixture.alice] in
  exists h, Instruction_hash ins = Return h /\
            deriveId ins "x" = Return (sha256 (derive_input h (signatures ins) "x")).
Proof.
  intros ins. destruct fixture_instruction_hash as [h Hh]. exists h.
  split; [exact Hh|]. apply (proj1 deriveId_digest ins h "x" Hh).
Defined.

(** ** Replay counters *)

Lemma findIndex_bounds {A} (f : A -> bool) (l : list A) :
  -1 <= findIndex f l < Z.of_nat (length l).
Proof.
  induction l as [|x l IH]; simpl; [lia|].
  destruct (f x); [lia|]. destruct (findIndex f l <? 0) eqn:E; lia.
Qed.

Lemma findIndex_none {A} (f : A -> bool) (l : list A) :
  findIndex f l < 0 <-> forall x, In x l -> f x = false.
Proof.
  induction l as [|x l IH]; simpl.
  - split; [intros _ y []|lia].
  - destruct (f x) eqn:Hx.
    + split; [lia|]. intros H. rewrite (H x (or_introl eq_refl)) in Hx. discriminate.
    + pose proof (findIndex_bounds f l) as Hb.
      destruct (findIndex f l <? 0) eqn:E.
      * apply Z.ltb_lt in E. split; [|lia]. intros _ y [<-|Hy]; [exact Hx|].
        apply IH; assumption.
      * apply Z.ltb_ge in E. split; [lia|]. intros H.
        assert (Hneg : findIndex f l < 0) by (apply IH; intros y Hy; apply H; right; exact Hy).
        lia.
Qed.

Lemma findIndex_app_first {A} (f : A -> bool) (pre suf : list A) (x : A) :
  (forall y, In y pre -> f y = false) -> f x = true ->
  findIndex f (pre ++ x :: suf) = Z.of_nat (length pre).
Proof.
  induction pre as [|y pre IH]; intros Hpre Hx; simpl.
  - rewrite Hx. reflexivity.
  - rewrite (Hpre y (or_introl eq_refl)).
    rewrite IH by (try exact Hx; intros z Hz; apply Hpre; right; exact Hz).
    destruct (Z.of_nat (length pre) <? 0) eqn:E; [apply Z.ltb_lt in E|]; lia.
Qed.

Lemma findIndex_app_earlier {A} (f : A -> bool) (pre suf : list A) (y : A) :
  In y pre -> f y = true -> findIndex f (pre ++ suf) < Z.of_nat (length pre).
Proof.
  induction pre as [|z pre IH]; intros Hy Hfy; simpl; [destruct Hy|].
  destruct (f z) eqn:Hz; [lia|].
  destruct Hy as [->|Hy]; [congruence|].
  specialize (IH Hy Hfy).
  destruct (findIndex f (pre ++ suf) <? 0) eqn:E; lia.
Qed.

Lemma named_spec (s : string) (u : IIdentity) : named s u = true <-> toString u = s.
Proof. unfold named. apply String.eqb_eq. Qed.

Lemma named_self (u : IIdentity) : named (toString u) u = true.
Proof. apply named_spec. reflexivity. Qed.

(** The identities kept from the suffix [suf] of [pre ++ suf] are those whose
    name occurs neither earlier in the suffix nor in [pre]. *)
Lemma filter_index_unique (suf : list IIdentity) :
  forall pre : list IIdentity,
    let kept :=
      filter_index
        (fun us i => findIndex (fun usf => String.eqb (toString usf) (toString us))
                               (pre ++ suf) =? Z.of_nat i)
        suf (length pre) in
    (forall u, In u kept -> In u suf /\ ~ In (toString u) (map toString pre)) /\
    NoDup (map toString kept) /\
    (forall u, In u suf ->
       In (toString u) (map toString pre) \/ In (toString u) (map toString kept)).
Proof.
  induction suf as [|x suf IH]; intros pre kept.
  - split; [intros u []|]. split; [constructor|intros u []].
  - specialize (IH (pre ++ [x])). rewrite <- app_assoc in IH. simpl in IH.
    rewrite length_app in IH. simpl in IH. rewrite Nat.add_1_r in IH.
    destruct IH as (Hin & Hnd & Hcov).
    subst kept. cbn [filter_index].
    set (rest := filter_index _ suf (S (length pre))) in *.
    destruct (findIndex _ (pre ++ x :: suf) =? Z.of_nat (length pre)) eqn:E.
    + (* first occurrence of its name *)
      assert (Hfresh : ~ In (toString x) (map toString pre)).
      { intros Hx. apply in_map_iff in Hx as (y & Hy & Hyin).
        apply Z.eqb_eq in E.
        pose proof (findIndex_app_earlier
                      (fun usf => String.eqb (toString usf) (toString x))
                      pre (x :: suf) y Hyin (proj2 (String.eqb_eq _ _) Hy)).
        lia. }
      split; [|split].
      * intros u [<-|Hu]; [split; [left; reflexivity|exact Hfresh]|].
        destruct (Hin u Hu) as [Hsuf Hpre]. split; [right; exact Hsuf|].
        intros H. apply Hpre. rewrite map_app. apply in_or_app. left. exact H.
      * simpl. constructor; [|exact Hnd].
        intros Hx. apply list_elem_of_In in Hx. apply in_map_iff in Hx as (y & Hy & Hyin).
        destruct (Hin y Hyin) as [_ Hpre]. apply Hpre.
        rewrite map_app. apply in_or_app. right. left. symmetry. exact Hy.
      * intros u [<-|Hu]; [right; left; reflexivity|].
        destruct (Hcov u Hu) as [H|H]; [|right; right; exact H].
        rewrite map_app in H. apply in_app_or in H as [H|[H|[]]]; [left; exact H|].
        right. left. exact H.
    + (* its name occurred before *)
      assert (Hseen : In (toString x) (map toString pre)).
      { destruct (in_dec string_dec (toString x) (map toString pre)) as [H|H]; [exact H|].
        exfalso. apply Z.eqb_neq in E. apply E.
        apply findIndex_app_first; [|apply String.eqb_refl].
        intros y Hy. apply String.eqb_neq. intros Heq. apply H.
        apply in_map_iff. exists y. split; assumption. }
      split; [|split].
      * intros u Hu. destruct (Hin u Hu) as [Hsuf Hpre]. split; [right; exact Hsuf|].
        intros H. apply Hpre. rewrite map_app. apply in_or_app. left. exact H.
      * exact Hnd.
      * intros u [<-|Hu]; [left; exact Hseen|].
        destruct (Hcov u Hu) as [H|H]; [|right; exact H].
        rewrite map_app in H. apply in_app_or in H as [H|[H|[]]]; [left; exact H|].
        left. rewrite <- H. exact Hseen.
Qed.

(** [uniqueSigners] keeps one identity per name, and every name. *)
Lemma uniqueSigners_spec (all : list IIdentity) :
  NoDup (map toString (uniqueSigners all)) /\
  (forall u, In u (uniqueSigners all) -> In u all) /\
  (forall u, In u all -> In (toString u) (map toString (uniqueSigners all))).
Proof.
  destruct (filter_index_unique all []) as (Hin & Hnd & Hcov).
  split; [exact Hnd|]. split.
  - intros u Hu. apply (Hin u Hu).
  - intros u Hu. destruct (Hcov u Hu) as [[]|H]. exact H.
Qed.

Lemma store_counters_lookup (counters : list Z) (us : list IIdentity) :
  NoDup (map toString us) ->
  forall (i : nat) (m : gmap string Z) (s : string),
    store_counters us i counters m !! s =
    if findIndex (named s) us <? 0 then m !! s
    else counters !! (i + Z.to_nat (findIndex (named s) us))%nat.
Proof.
  induction us as [|u us IH]; intros Hnd i m s; [reflexivity|].
  apply NoDup_cons in Hnd as [Hu Hnd]. specialize (IH Hnd).
  cbn [store_counters findIndex]. rewrite IH.
  pose proof (findIndex_bounds (named s) us) as Hb.
  destruct (named s u) eqn:Hs.
  - apply named_spec in Hs. subst s.
    assert (Hnone : findIndex (named (toString u)) us < 0).
    { apply findIndex_none. intros y Hy.
      destruct (named (toString u) y) eqn:E; [|reflexivity].
      apply named_spec in E. exfalso. apply Hu.
      apply list_elem_of_In, in_map_iff. exists y. split; assumption. }
    rewrite (proj2 (Z.ltb_lt _ _) Hnone). simpl. rewrite Nat.add_0_r.
    destruct (counters !! i) as [c|].
    + apply lookup_insert_eq.
    + apply lookup_delete_eq.
  - assert (Hne : toString u <> s) by (intros H; apply named_spec in H; congruence).
    destruct (findIndex (named s) us <? 0) eqn:E.
    + simpl. destruct (counters !! i) as [c|].
      * apply lookup_insert_ne, Hne.
      * apply lookup_delete_ne, Hne.
    + apply Z.ltb_ge in E.
      rewrite (proj2 (Z.ltb_ge _ _)) by lia.
      f_equal. lia.
Qed.

Lemma occurrences_app (s : string) (l1 l2 : list IIdentity) :
  occurrences s (l1 ++ l2) = (occurrences s l1 + occurrences s l2)%nat.
Proof. unfold occurrences. rewrite List.filter_app, length_app. reflexivity. Qed.

Lemma counters_after_start (us : list IIdentity) (counters : list Z) :
  NoDup (map toString us) ->
  counters_after us counters [] (store_counters us 0 counters ∅).
Proof.
  intros Hnd s. rewrite (store_counters_lookup counters us Hnd 0 ∅ s).
  unfold fetched. simpl.
  destruct (findIndex (named s) us <? 0); [reflexivity|].
  destruct (counters !! _); reflexivity.
Qed.

Lemma push_counters_nil (ins : Instruction) : push_counters ins [] [] = ins.
Proof. destruct ins. unfold push_counters. simpl. rewrite !app_nil_r. reflexivity. Qed.

Lemma push_counter_counters (ins : Instruction) (w : IdentityWrapper) (c : Z)
    (ws : list IdentityWrapper) (cs : list Z) :
  push_counters (push_counter ins w c) ws cs = push_counters ins (w :: ws) (c :: cs).
Proof. unfold push_counters, push_counter. simpl. rewrite <- !app_assoc. reflexivity. Qed.

Section Allocation.

Variable us : list IIdentity.
Variable counters : list Z.

(** Serving one group of signers. *)
Lemma assign_signers_spec (group : list IIdentity) :
  forall (ins : Instruction) (sc : gmap string Z) (before : list IIdentity),
    counters_after us counters before sc ->
    (forall u, In u group -> is_Some (fetched us counters (toString u))) ->
    exists sc',
      assign_signers ins group sc
      = Return (push_counters ins (map toWrapper group)
                              (assigned us counters before group), sc') /\
      counters_after us counters (before ++ group) sc'.
Proof.
  induction group as [|u group IH]; intros ins sc before Hinv Hall.
  - exists sc. simpl. rewrite push_counters_nil, app_nil_r. split; [reflexivity|exact Hinv].
  - destruct (Hall u (or_introl eq_refl)) as [c0 Hc0].
    cbn [assign_signers assigned map]. rewrite (Hinv (toString u)), Hc0. simpl.
    set (c := advance (occurrences (toString u) before) c0).
    destruct (IH (push_counter ins (toWrapper u) c)
                 (<[toString u := Long_add c 1]> sc) (before ++ [u])) as (sc' & Hrun & Hinv').
    + intros s. rewrite occurrences_app. unfold occurrences at 2. simpl.
      destruct (named s u) eqn:Hs.
      * apply named_spec in Hs. subst s. rewrite lookup_insert_eq, Hc0. simpl.
        rewrite Nat.add_1_r. reflexivity.
      * rewrite lookup_insert_ne by (intros H; apply named_spec in H; congruence).
        simpl. rewrite Nat.add_0_r. apply Hinv.
    + intros y Hy. apply Hall. right. exact Hy.
    + exists sc'. rewrite Hrun, push_counter_counters.
      split; [reflexivity|]. rewrite <- app_assoc in Hinv'. exact Hinv'.
Qed.

(** Serving the instructions in order. *)
Lemma assign_instructions_spec (l : list Instruction) :
  forall (signers : list (list IIdentity)) (sc : gmap string Z) (before : list IIdentity),
    length signers = length l ->
    counters_after us counters before sc ->
    (forall g u, In g signers -> In u g -> is_Some (fetched us counters (toString u))) ->
    exists l',
      assign_instructions l signers sc = Return l' /\
      length l' = length l /\
      forall i ins g,
        l !! i = Some ins -> signers !! i = Some g ->
        l' !! i = Some (push_counters ins (map toWrapper g)
                          (assigned us counters (before ++ concat (take i signers)) g)).
Proof.
  induction l as [|ins l IH]; intros signers sc before Hlen Hinv Hall.
  - exists []. split; [reflexivity|]. split; [reflexivity|]. intros i x g Hx. discriminate.
  - destruct signers as [|g signers]; [discriminate|].
    destruct (assign_signers_spec g ins sc before Hinv) as (sc' & Hg & Hinv').
    { intros u Hu. apply (Hall g u); [left; reflexivity|exact Hu]. }
    destruct (IH signers sc' (before ++ g)) as (l' & Hl' & Hlen' & Hlook).
    { simpl in Hlen. lia. }
    { exact Hinv'. }
    { intros g' u Hg' Hu. apply (Hall g' u); [right; exact Hg'|exact Hu]. }
    exists (push_counters ins (map toWrapper g) (assigned us counters before g) :: l').
    split; [cbn [assign_instructions]; rewrite Hg; simpl; rewrite Hl'; reflexivity|].
    split; [simpl; lia|].
    intros [|i] x gx; simpl.
    + intros [= <-] [= <-]. rewrite app_nil_r. reflexivity.
    + intros Hx Hgx. rewrite (Hlook i x gx Hx Hgx), <- app_assoc. reflexivity.
Qed.

(** The counter at each position of a group. *)
Lemma assigned_lookup (group : list IIdentity) :
  forall (before : list IIdentity) (j : nat) (u : IIdentity) (c0 : Z),
    group !! j = Some u -> fetched us counters (toString u) = Some c0 ->
    assigned us counters before group !! j
    = Some (advance (occurrences (toString u) (before ++ take j group)) c0).
Proof.
  induction group as [|x group IH]; intros before j u c0 Hj Hc0; [discriminate|].
  destruct j as [|j]; simpl in *.
  - injection Hj as ->. rewrite Hc0, app_nil_r. reflexivity.
  - rewrite (IH (before ++ [x]) j u c0 Hj Hc0), <- app_assoc. reflexivity.
Qed.

Lemma length_assigned (group before : list IIdentity) :
  length (assigned us counters before group) = length group.
Proof.
  revert before; induction group as [|x group IH]; intros before; simpl;
    [|rewrite IH]; reflexivity.
Qed.

End Allocation.

Lemma reduce_concat_spec {A} (l : list (list A)) :
  l <> [] -> reduce_concat l = Return (concat l).
Proof.
  destruct l as [|first rest]; [contradiction|]. intros _. simpl. f_equal.
  revert first; induction rest as [|x rest IH]; intros first; simpl.
  - rewrite app_nil_r. reflexivity.
  - rewrite IH, <- app_assoc. reflexivity.
Qed.

Lemma fetched_is_Some (all : list IIdentity) (counters : list Z) (u : IIdentity) :
  (length (uniqueSigners all) <= length counters)%nat -> In u all ->
  is_Some (fetched (uniqueSigners all) counters (toString u)).
Proof.
  intros Hlen Hu. destruct (uniqueSigners_spec all) as (_ & _ & Hcov).
  specialize (Hcov u Hu). apply in_map_iff in Hcov as (y & Hy & Hyin).
  unfold fetched.
  pose proof (findIndex_bounds (named (toString u)) (uniqueSigners all)) as Hb.
  destruct (findIndex (named (toString u)) (uniqueSigners all) <? 0) eqn:E.
  - apply Z.ltb_lt in E.
    pose proof (proj1 (findIndex_none _ _) E y Hyin) as Hno.
    rewrite (proj2 (named_spec _ _) Hy) in Hno. discriminate.
  - apply Z.ltb_ge in E. apply lookup_lt_is_Some. lia.
Qed.

(** On a transaction with instructions and as many signer groups,
    [updateCounters] sends one request and then finishes without another. *)
Lemma updateCounters_shape (tx : ClientTransaction) (signers : list (list IIdentity)) :
  instructions tx <> [] -> length signers = length (instructions tx) ->
  updateCounters tx signers =
  Await (uniqueSigners (concat signers), 1)
    (fun reply =>
       match reply with
       | Throw msg => Done (Throw msg)
       | Return counters =>
           Done (l ← assign_instructions (instructions tx) signers
                      (store_counters (uniqueSigners (concat signers)) 0 counters ∅);
                 Return {| instructions := l |})
       end).
Proof.
  intros Hne Hlen. unfold updateCounters.
  assert (Hn : (length (instructions tx) =? 0)%nat = false).
  { apply Nat.eqb_neq. destruct (instructions tx); [contradiction|simpl; lia]. }
  rewrite Hn, (proj2 (Nat.eqb_eq _ _) Hlen). simpl.
  rewrite reduce_concat_spec; [reflexivity|].
  intros ->. simpl in Hlen. destruct (instructions tx); [contradiction|discriminate].
Qed.

(** With a reply that holds a counter for every identity asked for, every
    instruction receives the identities of its signers and their counters. *)
Lemma updateCounters_resolves (tx : ClientTransaction) (signers : list (list IIdentity))
    (peer : CounterRequest -> result (list Z)) (counters : list Z) :
  instructions tx <> [] -> length signers = length (instructions tx) ->
  let us := uniqueSigners (concat signers) in
  peer (us, 1) = Return counters -> (length us <= length counters)%nat ->
  exists l',
    run peer (updateCounters tx signers) = (Return {| instructions := l' |}, [(us, 1)]) /\
    length l' = length (instructions tx) /\
    forall i ins g,
      instructions tx !! i = Some ins -> signers !! i = Some g ->
      l' !! i = Some (push_counters ins (map toWrapper g)
                        (assigned us counters (concat (take i signers)) g)).
Proof.
  intros Hne Hlen us Hpeer Hcount.
  rewrite (updateCounters_shape tx signers Hne Hlen). fold us.
  destruct (uniqueSigners_spec (concat signers)) as (Hnd & _ & _).
  destruct (assign_instructions_spec us counters (instructions tx) signers
              (store_counters us 0 counters ∅) [] Hlen
              (counters_after_start us counters Hnd)) as (l' & Hl' & Hlen' & Hlook).
  { intros g u Hg Hu. apply fetched_is_Some; [exact Hcount|].
    apply in_concat. exists g. split; assumption. }
  exists l'. cbn [run]. rewrite Hpeer, Hl'. split; [reflexivity|].
  split; [exact Hlen'|exact Hlook].
Qed.

Lemma advance_succ (k : nat) (c : Z) : advance (S k) c = Long_add (advance k c) 1.
Proof. reflexivity. Qed.

Lemma Long_add_1_differs (c : Z) : Long_add c 1 <> c.
Proof.
  unfold Long_add, Long_wrap. intros H.
  assert (Hc : 0 <= c < 2 ^ 64) by (rewrite <- H; apply Z.mod_pos_bound; lia).
  destruct (Z_lt_dec (c + 1) (2 ^ 64)) as [Hlt|Hge].
  - rewrite Z.mod_small in H by lia. lia.
  - assert (Heq : c + 1 = 2 ^ 64) by lia. rewrite Heq, Z.mod_same in H by lia. lia.
Qed.

Lemma advance_small (k : nat) (c : Z) :
  0 <= c -> c + Z.of_nat k < 2 ^ 64 -> advance k c = c + Z.of_nat k.
Proof.
  induction k as [|k IH]; intros Hc Hk; [simpl; lia|].
  rewrite advance_succ, IH by lia. unfold Long_add, Long_wrap.
  rewrite Z.mod_small by lia. lia.
Qed.

(** C8.  A transaction of the specification has instructions, and on such
    a transaction with as many signer lists [updateCounters] sends
    exactly one request, for the increment 1 and for the identities of all
    signer lists with one identity kept per name.  With the reply, it serves
    the instructions in order and, in each, the signers in order: signer [j]
    of instruction [i] has its wrapper pushed on the identities and, on the
    counters, the counter fetched for its name advanced once for every signer
    of that name served before.  Two successive counters of one name differ,
    the second being the successor of the first. *)
Theorem updateCounters_allocates_in_one_round_trip
    (tx : ClientTransaction) (signers : list (list IIdentity)) :
  instructions tx <> [] -> length signers = length (instructions tx) ->
  let us := uniqueSigners (concat signers) in
  (NoDup (map toString us) /\
   (forall u, In u us -> In u (concat signers)) /\
   (forall u, In u (concat signers) -> In (toString u) (map toString us))) /\
  (forall peer, snd (run peer (updateCounters tx signers)) = [(us, 1)]) /\
  (forall peer counters,
     peer (us, 1) = Return counters -> (length us <= length counters)%nat ->
     exists tx',
       fst (run peer (updateCounters tx signers)) = Return tx' /\
       length (instructions tx') = length (instructions tx) /\
       forall i ins g,
         instructions tx !! i = Some ins -> signers !! i = Some g ->
         exists ins' cs,
           instructions tx' !! i = Some ins' /\
           signerIdentities ins' = signerIdentities ins ++ map toWrapper g /\
           signerCounter ins' = signerCounter ins ++ cs /\
           length cs = length g /\
           forall j u,
             g !! j = Some u ->
             exists c0,
               fetched us counters (toString u) = Some c0 /\
               cs !! j = Some (advance (occurrences (toString u)
                                          (concat (take i signers) ++ take j g)) c0)) /\
  (forall k c,
     advance (S k) c = Long_add (advance k c) 1 /\
     advance (S k) c <> advance k c /\
     (0 <= c -> c + Z.of_nat (S k) < 2 ^ 64 -> advance (S k) c = advance k c + 1)).
Proof.
  intros Hne Hlen us. split; [apply uniqueSigners_spec|]. split; [|split].
  - intros peer. rewrite (updateCounters_shape tx signers Hne Hlen). fold us.
    cbn [run]. destruct (peer (us, 1)) as [counters|msg]; reflexivity.
  - intros peer counters Hpeer Hcount.
    destruct (updateCounters_resolves tx signers peer counters Hne Hlen Hpeer Hcount)
      as (l' & Hrun & Hlen' & Hlook).
    exists {| instructions := l' |}. rewrite Hrun.
    split; [reflexivity|]. split; [exact Hlen'|].
    intros i ins g Hins Hg.
    exists (push_counters ins (map toWrapper g)
              (assigned us counters (concat (take i signers)) g)),
           (assigned us counters (concat (take i signers)) g).
    split; [exact (Hlook i ins g Hins Hg)|]. split; [reflexivity|].
    split; [reflexivity|]. split; [apply length_assigned|].
    intros j u Hu.
    destruct (fetched_is_Some (concat signers) counters u Hcount) as [c0 Hc0].
    { apply in_concat. exists g. split.
      - apply list_elem_of_In, list_elem_of_lookup. exists i. exact Hg.
      - apply list_elem_of_In, list_elem_of_lookup. exists j. exact Hu. }
    exists c0. split; [exact Hc0|]. apply assigned_lookup; assumption.
  - intros k c. split; [apply advance_succ|]. split.
    + rewrite advance_succ. apply Long_add_1_differs.
    + intros Hc Hk. rewrite !advance_small by lia. lia.
Qed.

(** A list of instructions that is empty, which no transaction of the
    specification has, is returned at once: nothing is fetched. *)
Lemma updateCounters_empty_sends_nothing :
  let tx := {| instructions := [] |} in
  let signers : list (list IIdentity) := [] in
  length signers = length (instructions tx) /\
  forall peer, run peer (updateCounters tx signers) = (Return tx, []).
Proof. split; reflexivity. Qed.

(** The signer sets {A}, {A}, {B} on three instructions, with the counters 5
    for A and 9 for B fetched: A receives 5 and 6, B receives 9, and one
    request is sent. *)
Lemma updateCounters_allocates_in_one_round_trip_fixture :
  let A := identity (Fixture.signer "A") in
  let B := identity (Fixture.signer "B") in
  let signers := [[A]; [A]; [B]] in
  let peer := fun _ : CounterRequest => Return [5; 9] in
  instructions Fixture.transaction <> [] /\
  length signers = length (instructions Fixture.transaction) /\
  snd (run peer (updateCounters Fixture.transaction signers)) = [([A; B], 1)] /\
  (fun tx' => map signerCounter (instructions tx'))
    <$> fst (run peer (updateCounters Fixture.transaction signers))
  = Return [[5]; [6]; [9]].
Proof.
  intros A B signers peer.
  assert (Hne : instructions Fixture.transaction <> []) by discriminate.
  assert (Hlen : length signers = length (instructions Fixture.transaction)) by reflexivity.
  split; [exact Hne|]. split; [exact Hlen|]. split.
  - exact (proj1 (proj2 (updateCounters_allocates_in_one_round_trip
                           Fixture.transaction signers Hne Hlen)) peer).
  - vm_compute. reflexivity.
Defined.

(** ** Counters and signatures in one call *)

Lemma run_bind {Req Resp A B} (peer : Req -> result Resp)
    (m : Async Req Resp A) (f : A -> Async Req Resp B) :
  run peer (Async_bind m f) =
  match run peer m with
  | (Return a, sent) => let '(r, sent') := run peer (f a) in (r, sent ++ sent')
  | (Throw msg, sent) => (Throw msg, sent)
  end.
Proof.
  induction m as [[a|msg]|req k IH]; simpl.
  - destruct (run peer (f a)); reflexivity.
  - reflexivity.
  - rewrite IH. destruct (run peer (k (peer req))) as [[a|msg] sent]; [|reflexivity].
    destruct (run peer (f a)); reflexivity.
Qed.

Lemma typed_hashes (l : list Instruction) :
  (forall ins, In ins l -> contract_and_args ins <> None) ->
  exists hs, mapM Instruction_hash l = Return hs.
Proof.
  induction l as [|ins l IH]; intros Hall; [exists []; reflexivity|].
  destruct IH as [hs Hhs]; [intros x Hx; apply Hall; right; exact Hx|].
  pose proof (Hall ins (or_introl eq_refl)) as Hins.
  simpl. rewrite Instruction_hash_canonical. unfold canonical_hash.
  destruct (contract_and_args ins) as [[[type contract] args]|]; [|contradiction].
  simpl. rewrite Hhs. simpl. eexists. reflexivity.
Qed.

Lemma signWith_resolves (tx : ClientTransaction) (hs : list Buffer)
    (signers : list (list Signer)) :
  mapM Instruction_hash (instructions tx) = Return hs ->
  length signers = length (instructions tx) ->
  exists l',
    signWith tx signers = Return {| instructions := l' |} /\
    length l' = length (instructions tx) /\
    forall k ins group,
      instructions tx !! k = Some ins -> signers !! k = Some group ->
      l' !! k = Some (Instruction_signWith ins (sha256 (concat hs)) group).
Proof.
  intros Hhs Hlen. unfold signWith, ClientTransaction_hash.
  rewrite (hash_instructions_concat _ createHash hs Hhs). simpl.
  rewrite (proj2 (Nat.eqb_eq _ _) Hlen). simpl.
  destruct (signWith_each_lookup (sha256 (concat hs)) (instructions tx) signers Hlen)
    as (l' & Hl' & Hlen' & Hall).
  exists l'. unfold digest. rewrite Hl'. split; [reflexivity|].
  split; [exact Hlen'|exact Hall].
Qed.

Lemma extend_single {A} (n : nat) (g : list A) :
  (1 <= n)%nat -> extend_signers n [g] = repeat g n.
Proof.
  intros Hn. destruct n as [|n]; [lia|]. simpl. rewrite Nat.sub_0_r. reflexivity.
Qed.

Lemma extend_other {A} (n : nat) (signers : list (list A)) :
  length signers <> 1%nat -> extend_signers n signers = signers.
Proof.
  destruct signers as [|g [|g' rest]]; simpl; try reflexivity. intros H. lia.
Qed.

Lemma lookup_repeat {A} (x : A) (n i : nat) :
  (i < n)%nat -> repeat x n !! i = Some x.
Proof.
  revert i; induction n as [|n IH]; intros i Hi; [lia|].
  destruct i as [|i]; simpl; [reflexivity|]. apply IH. lia.
Qed.

Lemma updateCounters_keeps_kind (tx : ClientTransaction) (signers : list (list IIdentity))
    (l' : list Instruction) (cs : nat -> list IIdentity -> list Z) :
  length signers = length (instructions tx) ->
  length l' = length (instructions tx) ->
  (forall i ins g,
     instructions tx !! i = Some ins -> signers !! i = Some g ->
     l' !! i = Some (push_counters ins (map toWrapper g) (cs i g))) ->
  (forall ins, In ins (instructions tx) -> contract_and_args ins <> None) ->
  forall ins', In ins' l' -> contract_and_args ins' <> None.
Proof.
  intros Hlen Hlen' Hlook Htyped ins' Hin.
  apply list_elem_of_In, list_elem_of_lookup in Hin as [i Hi].
  pose proof (lookup_lt_Some _ _ _ Hi) as Hlt.
  destruct (lookup_lt_is_Some_2 (instructions tx) i ltac:(lia)) as [ins Hins].
  destruct (lookup_lt_is_Some_2 signers i ltac:(lia)) as [g Hg].
  rewrite (Hlook i ins g Hins Hg) in Hi. injection Hi as <-.
  change (contract_and_args (push_counters ins (map toWrapper g) (cs i g)))
    with (contract_and_args ins).
  apply Htyped, list_elem_of_In, list_elem_of_lookup. exists i. exact Hins.
Qed.

(** C10.  Called with one signer group on a transaction of [n > 1]
    instructions, [updateCountersAndSign] works with that group repeated [n]
    times: the counter request is sent, and, when the reply holds a counter
    for every identity and every instruction has a kind, the call resolves
    with every instruction carrying the identities of the group and its
    signatures over the transaction hash.  With a number of groups that is
    neither 1 nor [n], the call is rejected on the length check, before any
    request. *)
Theorem updateCountersAndSign_repeats_single_group
    (tx : ClientTransaction) (group : list Signer) :
  (1 < length (instructions tx))%nat ->
  let n := length (instructions tx) in
  let ids := map identity group in
  let us := uniqueSigners (concat (repeat ids n)) in
  extend_signers n [group] = repeat group n /\
  (forall peer, snd (run peer (updateCountersAndSign tx [group])) = [(us, 1)]) /\
  (forall peer counters,
     (forall ins, In ins (instructions tx) -> contract_and_args ins <> None) ->
     peer (us, 1) = Return counters -> (length us <= length counters)%nat ->
     exists tx1 ctxHash tx',
       fst (run peer (updateCounters tx (repeat ids n))) = Return tx1 /\
       ClientTransaction_hash tx1 = Return ctxHash /\
       fst (run peer (updateCountersAndSign tx [group])) = Return tx' /\
       length (instructions tx') = n /\
       forall i ins,
         instructions tx !! i = Some ins ->
         exists ins',
           instructions tx' !! i = Some ins' /\
           signerIdentities ins' = signerIdentities ins ++ map toWrapper ids /\
           length (signerCounter ins') = (length (signerCounter ins) + length group)%nat /\
           signatures ins' = map (fun s : Signer => sign s ctxHash) group) /\
  (forall signers peer,
     length signers <> 1%nat -> length signers <> n ->
     run peer (updateCountersAndSign tx signers)
     = (Throw "length of signers and instructions do not match", [])).
Proof.
  intros Hn n ids us.
  assert (Hne : instructions tx <> []).
  { intros H. rewrite H in Hn. simpl in Hn. lia. }
  assert (Hext : extend_signers n [group] = repeat group n) by (apply extend_single; lia).
  assert (Hids : map (map identity) (repeat group n) = repeat ids n) by apply map_repeat.
  assert (Hlen : length (repeat ids n) = length (instructions tx)) by apply repeat_length.
  assert (Hunfold : updateCountersAndSign tx [group] =
                    Async_bind (updateCounters tx (repeat ids n))
                               (fun tx' => Done (signWith tx' (repeat group n)))).
  { unfold updateCountersAndSign. fold n. rewrite Hext, Hids. reflexivity. }
  split; [exact Hext|]. split; [|split].
  - intros peer. rewrite Hunfold, run_bind.
    rewrite (updateCounters_shape tx (repeat ids n) Hne Hlen). fold us. cbn [run].
    destruct (peer (us, 1)) as [counters|msg]; [|reflexivity].
    destruct (assign_instructions _ _ _); reflexivity.
  - intros peer counters Htyped Hpeer Hcount.
    destruct (updateCounters_resolves tx (repeat ids n) peer counters Hne Hlen Hpeer Hcount)
      as (l1 & Hrun1 & Hlen1 & Hlook1).
    fold us in Hrun1, Hlook1.
    destruct (typed_hashes l1) as [hs Hhs].
    { apply (updateCounters_keeps_kind tx (repeat ids n) l1
               (fun i g => assigned us counters (concat (take i (repeat ids n))) g)
               Hlen Hlen1 Hlook1 Htyped). }
    destruct (signWith_resolves {| instructions := l1 |} hs (repeat group n) Hhs)
      as (l' & Hsign & Hlen' & Hlook').
    { simpl. rewrite repeat_length. symmetry. exact Hlen1. }
    exists {| instructions := l1 |}, (sha256 (concat hs)), {| instructions := l' |}.
    split; [rewrite Hrun1; reflexivity|].
    split; [unfold ClientTransaction_hash; cbn [instructions];
            rewrite (hash_instructions_concat _ createHash hs Hhs); reflexivity|].
    split; [rewrite Hunfold, run_bind, Hrun1; simpl; rewrite Hsign; reflexivity|].
    split; [simpl in *; lia|].
    intros i ins Hins.
    pose proof (lookup_lt_Some _ _ _ Hins) as Hlt.
    assert (Hg : repeat group n !! i = Some group).
    { apply lookup_repeat. exact Hlt. }
    assert (Hi : repeat ids n !! i = Some ids).
    { apply lookup_repeat. exact Hlt. }
    pose proof (Hlook1 i ins ids Hins Hi) as H1.
    pose proof (Hlook' i _ group H1 Hg) as H2.
    eexists. split; [exact H2|]. split; [reflexivity|]. split; [|reflexivity].
    simpl. rewrite length_app, length_assigned. unfold ids. rewrite length_map.
    reflexivity.
  - intros signers peer H1 Hn'. unfold updateCountersAndSign. fold n.
    rewrite (extend_other n signers H1). unfold updateCounters.
    assert (Hz : (length (instructions tx) =? 0)%nat = false) by (apply Nat.eqb_neq; lia).
    rewrite Hz, length_map. unfold n in Hn'.
    rewrite (proj2 (Nat.eqb_neq _ _) Hn'). reflexivity.
Qed.

Lemma updateCountersAndSign_repeats_single_group_fixture :
  (1 < length (instructions Fixture.transaction))%nat /\
  extend_signers 3 [[Fixture.signer "A"]]
  = [[Fixture.signer "A"]; [Fixture.signer "A"]; [Fixture.signer "A"]] /\
  run (fun _ : CounterRequest => Return [5])
      (updateCountersAndSign Fixture.transaction
         [[Fixture.signer "A"]; [Fixture.signer "B"]])
  = (Throw "length of signers and instructions do not match", []).
Proof.
  assert (Hn : (1 < length (instructions Fixture.transaction))%nat) by (simpl; lia).
  destruct (updateCountersAndSign_repeats_single_group
              Fixture.transaction [Fixture.signer "A"] Hn) as (Hext & _ & _ & Hother).
  split; [exact Hn|]. split; [exact Hext|].
  apply Hother; simpl; lia.
Defined.

(** The single group on the three instructions of the fixture: every
    instruction is signed by A, with the counters 5, 6 and 7. *)
Lemma updateCountersAndSign_fixture_counters :
  (fun tx' => map (fun ins => (signerCounter ins, length (signatures ins)))
                  (instructions tx'))
    <$> fst (run (fun _ : CounterRequest => Return [5])
                 (updateCountersAndSign Fixture.transaction [[Fixture.signer "A"]]))
  = Return [([5], 1%nat); ([6], 1%nat); ([7], 1%nat)].
Proof. vm_compute. reflexivity. Qed.

(** ** Proof queries *)

(** C9.  [getProof] sends one request, for the key asked and the hash of the
    genesis block kept by the client, and resolves with the proof of the
    reply as it came: the outcome is the reply's proof whenever the peer
    replies, and a rejection only when the request itself is rejected.  What
    [verify] has to say about the proof plays no part: a proof that [verify]
    refuses is returned all the same. *)
Theorem getProof_returns_reply_unverified :
  (forall (Roster : Type) (genesis : SkipBlock Roster) (id : Buffer)
          (peer : GetProof -> result (GetProofResponse Roster)),
     let req := {| req_id := hash genesis; req_key := id; req_version := currentVersion |} in
     run peer (getProof genesis id)
     = (match peer req with
        | Return reply => Return (proof reply)
        | Throw msg => Throw msg
        end, [req])) /\
  (forall (Roster Publics : Type) computeHash decode getServicePublics serviceName
          link_verify (genesis : SkipBlock Roster) (id : Buffer)
          (peer : GetProof -> result (GetProofResponse Roster)) reply,
     peer {| req_id := hash genesis; req_key := id; req_version := currentVersion |}
     = Return reply ->
     forall outcome,
       @Proof_verify Roster Publics computeHash decode getServicePublics serviceName
                     link_verify (proof reply) (hash genesis) = outcome ->
       fst (run peer (getProof genesis id)) = Return (proof reply)) /\
  (let genesis := {| hash := Fixture.genesis_hash; data := []; roster := Fixture.old_roster |} in
   let forged := Fixture.chain Fixture.old_roster in
   Fixture.verify forged (hash genesis)
   = Return (Some "invalid forward link signature: signature mismatch"%string) /\
   fst (run (fun _ => Return {| proof := forged |}) (getProof genesis Fixture.key))
   = Return forged).
Proof.
  split; [|split].
  - intros Roster genesis id peer req. cbn [getProof run].
    fold req. destruct (peer req); reflexivity.
  - intros Roster Publics computeHash decode getServicePublics serviceName link_verify
           genesis id peer reply Hreply outcome _.
    cbn [getProof run]. rewrite Hreply. reflexivity.
  - split; [vm_compute; reflexivity|reflexivity].
Qed.


(** * Further properties of the code *)

(** ** Bits and bytes *)

Lemma Z_of_byte_range (b : Byte.byte) : 0 <= Z_of_byte b < 256.
Proof.
  unfold Z_of_byte. pose proof (Byte.to_N_bounded b) as H. lia.
Qed.

Lemma Z_of_byte_of_Z (z : Z) : Z_of_byte (byte_of_Z z) = z mod 256.
Proof.
  unfold byte_of_Z, Z_of_byte.
  pose proof (Z.mod_pos_bound z 256 ltac:(lia)) as Hz.
  destruct (Byte.of_N (Z.to_N (z mod 256))) as [b|] eqn:E.
  - apply Byte.to_of_N in E. rewrite E. lia.
  - apply Byte.of_N_None_iff in E. lia.
Qed.

Lemma Z_of_byte_inj (a b : Byte.byte) : Z_of_byte a = Z_of_byte b -> a = b.
Proof.
  unfold Z_of_byte. intros H. apply N2Z.inj in H.
  pose proof (Byte.of_to_N a) as Ha. rewrite H, Byte.of_to_N in Ha. congruence.
Qed.

(** A byte is known by its eight bits. *)
Lemma byte_bits_ext (a b : Byte.byte) :
  (forall t, 0 <= t < 8 -> Z.testbit (Z_of_byte a) t = Z.testbit (Z_of_byte b) t) ->
  a = b.
Proof.
  intros H. apply Z_of_byte_inj, Z.bits_inj'. intros n Hn.
  destruct (Z_lt_dec n 8) as [Hlt|Hge]; [apply H; lia|].
  pose proof (Z_of_byte_range a) as Ha. pose proof (Z_of_byte_range b) as Hb.
  rewrite <- (Z.mod_small (Z_of_byte a) (2 ^ 8)), <- (Z.mod_small (Z_of_byte b) (2 ^ 8))
    by (change (2 ^ 8) with 256; lia).
  rewrite !Z.mod_pow2_bits_high by lia. reflexivity.
Qed.

Lemma digest_bit_outside (buf : Buffer) (j : nat) :
  (length buf * 8 <= j)%nat -> digest_bit buf j = false.
Proof.
  intros Hj. unfold digest_bit. rewrite nth_overflow; [apply Z.testbit_0_l|].
  apply Nat.div_le_lower_bound; lia.
Qed.

(** A buffer is known by its length and its bits. *)
Lemma buffer_bits_ext (a : Buffer) :
  forall b : Buffer,
    length a = length b ->
    (forall j, digest_bit a j = digest_bit b j) -> a = b.
Proof.
  induction a as [|x a IH]; intros [|y b] Hlen Hbits; try discriminate; [reflexivity|].
  f_equal.
  - apply byte_bits_ext. intros t Ht.
    specialize (Hbits (Z.to_nat (7 - t))). unfold digest_bit in Hbits.
    rewrite Nat.div_small, Nat.mod_small in Hbits by lia. simpl in Hbits.
    replace (7 - Z.of_nat (Z.to_nat (7 - t))) with t in Hbits by lia. exact Hbits.
  - apply IH; [simpl in Hlen; lia|]. intros j.
    specialize (Hbits (8 + j)%nat). unfold digest_bit in *.
    replace ((8 + j) / 8)%nat with (S (j / 8)) in Hbits
      by (change (8 + j)%nat with (1 * 8 + j)%nat; rewrite Nat.div_add_l by lia; reflexivity).
    replace ((8 + j) mod 8)%nat with (j mod 8)%nat in Hbits
      by (replace (8 + j)%nat with (j + 1 * 8)%nat by lia; symmetry; apply Nat.Div0.mod_add).
    exact Hbits.
Qed.

Lemma nth_insert (l : Buffer) (i j : nat) (x : Byte.byte) :
  nth j (<[i := x]> l) Byte.x00 =
  if (i =? j)%nat && (i <? length l)%nat then x else nth j l Byte.x00.
Proof.
  rewrite !nth_lookup.
  destruct (Nat.eqb_spec i j) as [->|Hne]; simpl.
  - destruct (Nat.ltb_spec j (length l)) as [Hlt|Hge].
    + rewrite list_lookup_insert_eq by exact Hlt. reflexivity.
    + rewrite list_insert_ge by exact Hge. reflexivity.
  - rewrite list_lookup_insert_ne by exact Hne. reflexivity.
Qed.

Lemma mask_bit (s t : nat) :
  (s < 8)%nat -> (t < 8)%nat ->
  Z.testbit (Z.shiftr (Z.shiftl 1 7) (Z.of_nat s)) (7 - Z.of_nat t) = (s =? t)%nat.
Proof.
  intros Hs Ht. rewrite Z.shiftr_spec by lia.
  change (Z.shiftl 1 7) with (2 ^ 7). rewrite Z.pow2_bits_eqb by lia.
  destruct (Nat.eqb_spec s t) as [->|Hne].
  - apply Z.eqb_eq. lia.
  - apply Z.eqb_neq. lia.
Qed.

Section BoolToBuffer.

Variable bits : list bool.

Local Abbreviation set_bit :=
  (fun (buf : Buffer) (i : nat) =>
     if nth i bits false then
       let j := Nat.shiftr i 3 in
       <[ j := byte_of_Z (Z.lor (Z_of_byte (nth j buf Byte.x00))
                                (Z.shiftr (Z.shiftl 1 7) (Z.of_nat (i mod 8)))) ]> buf
     else buf).

(** After the first [k] bits have been visited the buffer holds them, and
    zeros elsewhere. *)
Lemma boolToBuffer_visited (k : nat) :
  (k <= length bits)%nat ->
  let buf := fold_left set_bit (seq 0 k)
               (repeat Byte.x00 (Nat.shiftr (length bits + 7) 3)) in
  length buf = ((length bits + 7) / 8)%nat /\
  forall j, digest_bit buf j = (j <? k)%nat && nth j bits false.
Proof.
  rewrite Nat.shiftr_div_pow2. change (2 ^ 3)%nat with 8%nat.
  induction k as [|k IH]; intros Hk buf.
  - subst buf. simpl. split; [apply repeat_length|].
    intros j. unfold digest_bit.
    rewrite nth_repeat. apply Z.testbit_0_l.
  - destruct (IH ltac:(lia)) as [Hlen Hbits]. subst buf.
    rewrite seq_S, fold_left_app. cbn [fold_left Nat.add].
    set (old := fold_left _ (seq 0 k) _) in *.
    destruct (nth k bits false) eqn:Hbit.
    + split; [rewrite length_insert; exact Hlen|].
      intros j. unfold digest_bit. rewrite Nat.shiftr_div_pow2.
      change (2 ^ 3)%nat with 8%nat. rewrite nth_insert.
      assert (Hin : (k / 8 <? length old)%nat = true).
      { apply Nat.ltb_lt. rewrite Hlen. apply Nat.Div0.div_lt_upper_bound.
        pose proof (Nat.div_mod_eq (length bits + 7) 8) as Hd.
        pose proof (Nat.mod_upper_bound (length bits + 7) 8). lia. }
      rewrite Hin, andb_true_r.
      destruct (Nat.eqb_spec (k / 8) (j / 8)) as [Heq|Hne].
      * rewrite Z_of_byte_of_Z. change 256 with (2 ^ 8).
        rewrite Z.mod_pow2_bits_low by lia.
        rewrite Z.lor_spec, mask_bit by (apply Nat.mod_upper_bound; lia).
        rewrite Heq. fold (digest_bit old j). rewrite Hbits.
        pose proof (Nat.div_mod_eq k 8). pose proof (Nat.div_mod_eq j 8).
        destruct (Nat.eqb_spec (k mod 8) (j mod 8)) as [Hm|Hm].
        -- assert (j = k) as -> by lia. rewrite Hbit.
           rewrite orb_true_r. symmetry.
           rewrite (proj2 (Nat.ltb_lt k (S k))) by lia. reflexivity.
        -- rewrite orb_false_r.
           assert (Hjk : j <> k) by (intros ->; contradiction).
           f_equal. destruct (Nat.ltb_spec j k), (Nat.ltb_spec j (S k)); try reflexivity; lia.
      * fold (digest_bit old j). rewrite Hbits.
        assert (Hjk : j <> k) by (intros ->; contradiction).
        f_equal. destruct (Nat.ltb_spec j k), (Nat.ltb_spec j (S k)); try reflexivity; lia.
    + split; [exact Hlen|]. intros j. rewrite Hbits.
      destruct (Nat.eq_dec j k) as [->|Hjk].
      * rewrite Hbit, !andb_false_r. reflexivity.
      * f_equal. destruct (Nat.ltb_spec j k), (Nat.ltb_spec j (S k)); try reflexivity; lia.
Qed.

End BoolToBuffer.

Lemma boolToBuffer_packs (bits : list bool) :
  length (boolToBuffer bits) = ((length bits + 7) / 8)%nat /\
  forall j, digest_bit (boolToBuffer bits) j = nth j bits false.
Proof.
  destruct (boolToBuffer_visited bits (length bits) (le_n _)) as [Hlen Hbits].
  split; [exact Hlen|]. intros j. unfold boolToBuffer. rewrite Hbits.
  destruct (Nat.ltb_spec j (length bits)) as [Hlt|Hge]; [reflexivity|].
  rewrite nth_overflow by exact Hge. reflexivity.
Qed.

(** X1.  [boolToBuffer] packs the bits eight to a byte, first bit in the
    most significant place: the buffer has one byte for every started group
    of eight bits, bit [j] of the buffer is bit [j] of the list, and the bits
    behind the last one are zero. *)
Theorem boolToBuffer_layout (bits : list bool) :
  length (boolToBuffer bits) = ((length bits + 7) / 8)%nat /\
  forall j, digest_bit (boolToBuffer bits) j = nth j bits false.
Proof.
  destruct (boolToBuffer_visited bits (length bits) (le_n _)) as [Hlen Hbits].
  split; [exact Hlen|]. intros j. unfold boolToBuffer. rewrite Hbits.
  destruct (Nat.ltb_spec j (length bits)) as [Hlt|Hge]; [reflexivity|].
  rewrite nth_overflow by exact Hge. reflexivity.
Qed.

Lemma hashToBits_bits_of (key : Buffer) : hashToBits key = bits_of (sha256 key).
Proof.
  unfold hashToBits, bits_of, digest, update, createHash. cbn [app].
  apply map_ext. intros i. cbv beta zeta.
  rewrite Nat.shiftr_div_pow2. change (2 ^ 3)%nat with 8%nat.
  unfold digest_bit. apply bit_of_byte.
  pose proof (Nat.mod_upper_bound i 8). lia.
Qed.

Lemma nth_bits_of (buf : Buffer) (j : nat) : nth j (bits_of buf) false = digest_bit buf j.
Proof.
  unfold bits_of.
  destruct (Nat.ltb_spec j (length buf * 8)) as [Hlt|Hge].
  - rewrite (nth_indep _ false (digest_bit buf 0))
      by (rewrite length_map, length_seq; exact Hlt).
    rewrite map_nth, seq_nth by exact Hlt. reflexivity.
  - rewrite nth_overflow by (rewrite length_map, length_seq; exact Hge).
    symmetry. apply digest_bit_outside, Hge.
Qed.

(** X2.  Packing is the inverse of reading bits: the bits of any buffer pack
    back to that buffer, so that [boolToBuffer(hashToBits(key))] is the
    digest of the key; and the first bits read from a packed list are the
    list. *)
Theorem boolToBuffer_hashToBits :
  (forall buf : Buffer, boolToBuffer (bits_of buf) = buf) /\
  (forall key : Buffer, boolToBuffer (hashToBits key) = sha256 key) /\
  (forall bits : list bool,
     firstn (length bits) (bits_of (boolToBuffer bits)) = bits).
Proof.
  assert (Hback : forall buf : Buffer, boolToBuffer (bits_of buf) = buf).
  { intros buf. destruct (boolToBuffer_packs (bits_of buf)) as [Hlen Hbits].
    apply buffer_bits_ext.
    - rewrite Hlen. unfold bits_of. rewrite length_map, length_seq.
      replace (length buf * 8 + 7)%nat with (7 + length buf * 8)%nat by lia.
      rewrite Nat.div_add by lia. reflexivity.
    - intros j. rewrite Hbits. apply nth_bits_of. }
  split; [exact Hback|]. split.
  - intros key. rewrite hashToBits_bits_of. apply Hback.
  - intros bits. destruct (boolToBuffer_packs bits) as [Hlen Hbits].
    apply nth_ext with (d := false) (d' := false).
    + rewrite length_firstn. unfold bits_of. rewrite length_map, length_seq, Hlen.
      pose proof (Nat.div_mod_eq (length bits + 7) 8).
      pose proof (Nat.mod_upper_bound (length bits + 7) 8). lia.
    + intros j Hj. rewrite length_firstn in Hj.
      rewrite nth_firstn. rewrite (proj2 (Nat.ltb_lt j (length bits))) by lia.
      rewrite nth_bits_of. apply Hbits.
Qed.

Lemma Z_of_bytesLE_bytesLE (k : nat) :
  forall z : Z, Z_of_bytesLE (bytesLE k z) = z mod 2 ^ (8 * Z.of_nat k).
Proof.
  induction k as [|k IH]; intros z.
  - simpl. rewrite Z.mod_1_r. reflexivity.
  - cbn [bytesLE Z_of_bytesLE]. rewrite Z_of_byte_of_Z, IH.
    rewrite Z.shiftr_div_pow2 by lia. change (2 ^ 8) with 256.
    replace (8 * Z.of_nat (S k)) with (8 + 8 * Z.of_nat k) by lia.
    rewrite Z.pow_add_r by lia. change (2 ^ 8) with 256.
    assert (Hm : 0 < 2 ^ (8 * Z.of_nat k)) by (apply Z.pow_pos_nonneg; lia).
    rewrite (Z.rem_mul_r z 256 (2 ^ (8 * Z.of_nat k))) by lia. reflexivity.
Qed.

(** A prefix is known by its packed bytes and its length. *)
Lemma prefix_encoding_inj (p q : list bool) :
  boolToBuffer p = boolToBuffer q -> int32LE (length p) = int32LE (length q) -> p = q.
Proof.
  intros Hb Hl.
  destruct (boolToBuffer_packs p) as [Hlp Hbp].
  destruct (boolToBuffer_packs q) as [Hlq Hbq].
  assert (Hlen : length p = length q).
  { apply (f_equal Z_of_bytesLE) in Hl. unfold int32LE in Hl.
    rewrite !Z_of_bytesLE_bytesLE in Hl. change (2 ^ (8 * Z.of_nat 4)) with 4294967296 in Hl.
    rewrite Hb, Hlq in Hlp.
    pose proof (Nat.div_mod_eq (length p + 7) 8).
    pose proof (Nat.mod_upper_bound (length p + 7) 8).
    pose proof (Nat.div_mod_eq (length q + 7) 8).
    pose proof (Nat.mod_upper_bound (length q + 7) 8).
    pose proof (Z.div_mod (Z.of_nat (length p)) 4294967296).
    pose proof (Z.div_mod (Z.of_nat (length q)) 4294967296).
    lia. }
  apply nth_ext with (d := false) (d' := false); [exact Hlen|].
  intros j _. rewrite <- Hbp, <- Hbq, Hb. reflexivity.
Qed.

(** X3.  The leaf hash and the empty-node hash are digests of bytes that
    determine the declared prefix: between two proofs with the same nonce
    (and, for leaves, the same key and value), different prefixes give
    different bytes to digest. *)
Theorem prefix_bound_by_node_hash (ip ip' : InclusionProof) :
  nonce ip = nonce ip' ->
  hashLeaf ip = sha256 (leaf_input ip) /\
  hashEmpty ip = sha256 (empty_input ip) /\
  (leaf_key (leaf ip) = leaf_key (leaf ip') ->
   leaf_value (leaf ip) = leaf_value (leaf ip') ->
   leaf_input ip = leaf_input ip' ->
   leaf_prefix (leaf ip) = leaf_prefix (leaf ip')) /\
  (empty_input ip = empty_input ip' ->
   empty_prefix (empty ip) = empty_prefix (empty ip')).
Proof.
  intros Hnonce.
  assert (Hsplit : forall (p q : list bool) (rest : Buffer),
             boolToBuffer p ++ int32LE (length p) ++ rest
             = boolToBuffer q ++ int32LE (length q) ++ rest -> p = q).
  { intros p q rest H.
    assert (Hlen : length (boolToBuffer p) = length (boolToBuffer q)).
    { apply (f_equal (@length _)) in H. rewrite !length_app in H.
      unfold int32LE in H. rewrite !length_bytesLE in H. lia. }
    apply app_inj_1 in H as [Hb Hrest]; [|exact Hlen].
    apply app_inv_tail in Hrest. apply prefix_encoding_inj; assumption. }
  split; [|split; [|split]].
  - unfold hashLeaf, leaf_input, digest, update, createHash.
    cbn [app]. rewrite <- !app_assoc. reflexivity.
  - unfold hashEmpty, empty_input, digest, update, createHash.
    cbn [app]. rewrite <- !app_assoc. reflexivity.
  - intros Hk Hv H. unfold leaf_input in H. rewrite Hnonce, Hk, Hv in H.
    cbn [app] in H. injection H as H. apply app_inv_head in H.
    apply (Hsplit _ _ _ H).
  - intros H. unfold empty_input in H. rewrite Hnonce in H.
    cbn [app] in H. injection H as H. apply app_inv_head in H.
    apply (Hsplit _ _ []). rewrite !app_nil_r. exact H.
Qed.

Lemma prefix_bound_by_node_hash_fixture :
  nonce Fixture.trie = nonce Fixture.leaf_elsewhere /\
  leaf_input Fixture.trie <> leaf_input Fixture.leaf_elsewhere.
Proof.
  split; [reflexivity|]. intros H.
  destruct (prefix_bound_by_node_hash Fixture.trie Fixture.leaf_elsewhere eq_refl)
    as (_ & _ & Hleaf & _).
  specialize (Hleaf eq_refl eq_refl H). discriminate Hleaf.
Defined.

(** ** What the outcome of [exists] tells *)

Lemma exists_loop_returns (ip : InclusionProof) (bits : list bool) (fuel : nat) :
  forall (i : nat) (e : Buffer),
    (i + fuel = length (interiors ip))%nat ->
    exists_loop ip bits fuel i (expected_at ip bits i) = Return e ->
    (forall j, (i <= j < length (interiors ip))%nat ->
               expected_at ip bits j = node_hash ip j) /\
    e = expected_at ip bits (length (interiors ip)).
Proof.
  induction fuel as [|fuel IH]; intros i e Hlen Hrun.
  - simpl in Hrun. injection Hrun as <-. split; [intros j Hj; lia|].
    f_equal. lia.
  - rewrite exists_loop_step in Hrun by lia.
    destruct (equals (expected_at ip bits i) (node_hash ip i)) eqn:Heq; [|discriminate].
    apply equals_eq in Heq.
    destruct (IH (S i) e ltac:(lia) Hrun) as [Hall He].
    split; [|exact He]. intros j Hj.
    destruct (Nat.eq_dec j i) as [->|Hne]; [exact Heq|]. apply Hall. lia.
Qed.

Lemma exists_outcome (ip : InclusionProof) (key : Buffer) (b : bool) :
  Proof_exists ip key = Return b ->
  let bits := hashToBits key in
  let n := length (interiors ip) in
  key <> [] /\ interiors ip <> [] /\
  (forall j, (j < n)%nat -> expected_at ip bits j = node_hash ip j) /\
  ((expected_at ip bits n = hashLeaf ip /\
    prefix_accepted (firstn n bits) (leaf_prefix (leaf ip)) = true /\
    (b = true <-> leaf_key (leaf ip) = key)) \/
   (expected_at ip bits n <> hashLeaf ip /\ expected_at ip bits n = hashEmpty ip /\
    prefix_accepted (firstn n bits) (empty_prefix (empty ip)) = true /\
    b = false)).
Proof.
  intros Hrun bits n. unfold Proof_exists in Hrun.
  destruct (length key =? 0)%nat eqn:Hk; [discriminate|].
  destruct (length (interiors ip) =? 0)%nat eqn:Hn; [discriminate|].
  apply Nat.eqb_neq in Hk, Hn.
  assert (Hkey : key <> []) by (intros ->; apply Hk; reflexivity).
  assert (Hnodes : interiors ip <> []) by (intros H; apply Hn; rewrite H; reflexivity).
  rewrite (hashInterior_lookup ip 0) in Hrun by lia. cbn [mbind result_bind] in Hrun.
  fold bits n in Hrun.
  change (node_hash ip 0) with (expected_at ip bits 0) in Hrun.
  destruct (exists_loop ip bits n 0 (expected_at ip bits 0)) as [e|msg] eqn:Hloop;
    [|discriminate].
  destruct (exists_loop_returns ip bits n 0 e eq_refl Hloop) as [Hall ->].
  cbn [mbind result_bind] in Hrun.
  split; [exact Hkey|]. split; [exact Hnodes|].
  split; [intros j Hj; apply Hall; lia|].
  fold n in Hrun.
  destruct (equals (expected_at ip bits n) (hashLeaf ip)) eqn:Hleaf.
  - apply equals_eq in Hleaf. left.
    change (length (difference (firstn n bits) (leaf_prefix (leaf ip))) =? 0)%nat
      with (prefix_accepted (firstn n bits) (leaf_prefix (leaf ip))) in Hrun.
    destruct (prefix_accepted _ _); [|discriminate]. simpl in Hrun.
    injection Hrun as <-. split; [exact Hleaf|]. split; [reflexivity|].
    apply equals_eq.
  - apply equals_neq in Hleaf. right.
    destruct (equals (expected_at ip bits n) (hashEmpty ip)) eqn:Hempty; [|discriminate].
    apply equals_eq in Hempty.
    change (length (difference (firstn n bits) (empty_prefix (empty ip))) =? 0)%nat
      with (prefix_accepted (firstn n bits) (empty_prefix (empty ip))) in Hrun.
    destruct (prefix_accepted _ _); [|discriminate]. simpl in Hrun.
    injection Hrun as <-. repeat split; assumption.
Qed.

(** X4.  When [exists] returns at all, the key is not empty, every interior
    node carries the hash expected at its depth, and the walk has ended on the
    leaf hash or on the empty-node hash.  It returns [true] only on the leaf
    hash with the key of the leaf; it returns [false] on the leaf hash of
    another key or on the empty-node hash. *)
Theorem exists_returns_only_on_chained_walk (ip : InclusionProof) (key : Buffer) (b : bool) :
  Proof_exists ip key = Return b ->
  let bits := hashToBits key in
  let n := length (interiors ip) in
  key <> [] /\ interiors ip <> [] /\
  (forall j, (j < n)%nat -> expected_at ip bits j = node_hash ip j) /\
  ((expected_at ip bits n = hashLeaf ip /\
    prefix_accepted (firstn n bits) (leaf_prefix (leaf ip)) = true /\
    (b = true <-> leaf_key (leaf ip) = key)) \/
   (expected_at ip bits n <> hashLeaf ip /\ expected_at ip bits n = hashEmpty ip /\
    prefix_accepted (firstn n bits) (empty_prefix (empty ip)) = true /\
    b = false)).
Proof. exact (exists_outcome ip key b). Qed.

Lemma fixture_trie_exists : Proof_exists Fixture.trie Fixture.key = Return true.
Proof. vm_compute. reflexivity. Qed.

Lemma exists_returns_only_on_chained_walk_fixture :
  Proof_exists Fixture.trie Fixture.key = Return true /\
  Fixture.key <> [] /\ interiors Fixture.trie <> [].
Proof.
  split; [exact fixture_trie_exists|].
  destruct (exists_returns_only_on_chained_walk Fixture.trie Fixture.key true
              fixture_trie_exists) as (Hk & Hn & _).
  split; assumption.
Defined.

(** ** Verified instances *)

Section Instances.

Context {Roster Publics : Type}.
Variable computeHash : SkipBlock Roster -> Buffer.
Variable DataHeader_decode_trieRoot : Buffer -> result Buffer.
Variable getServicePublics : Roster -> string -> Publics.
Variable serviceName : string.
Variable link_verify : ForwardLink Roster -> Publics -> option string.
Variable StateChangeBody_decode : Buffer -> result StateChangeBody.

Local Abbreviation verify_chain :=
  (Proof_verify computeHash DataHeader_decode_trieRoot getServicePublics
                serviceName link_verify).
Local Abbreviation verified_instance :=
  (getVerifiedInstance computeHash DataHeader_decode_trieRoot getServicePublics
                       serviceName link_verify StateChangeBody_decode).
Local Abbreviation body := (@stateChangeBody Roster StateChangeBody_decode).
Local Abbreviation instance_of := (@fromProof Roster StateChangeBody_decode).

(** X5.  The checks of [verify] come in a fixed order, and two of them end in
    a thrown [TypeError] instead of a returned error: a latest block with a
    wrong hash is reported whatever else the proof holds; past that check a
    payload that does not decode throws, a proof without interior nodes
    throws, a trie root that is not the hash of interior node 0 is reported,
    and, past these, a proof without forward links throws. *)
Theorem verify_order_of_checks (p : Proof Roster) (genesisID : Buffer) :
  (computeHash (latest p) <> hash (latest p) ->
   verify_chain p genesisID = Return (Some "invalid latest block"%string)) /\
  (computeHash (latest p) = hash (latest p) ->
   (forall msg, DataHeader_decode_trieRoot (data (latest p)) = Throw msg ->
                verify_chain p genesisID = Throw msg) /\
   (forall root, DataHeader_decode_trieRoot (data (latest p)) = Return root ->
      (interiors (inclusionproof p) = [] -> verify_chain p genesisID = Throw TypeError) /\
      (interiors (inclusionproof p) <> [] -> node_hash (inclusionproof p) 0 <> root ->
       verify_chain p genesisID = Return (Some "invalid root"%string)) /\
      (interiors (inclusionproof p) <> [] -> node_hash (inclusionproof p) 0 = root ->
       links p = [] -> verify_chain p genesisID = Throw TypeError))).
Proof.
  split.
  - intros H. unfold Proof_verify. apply equals_neq in H. rewrite H. reflexivity.
  - intros Hhash. unfold Proof_verify. rewrite Hhash, equals_refl. cbn [negb].
    split; [intros msg ->; reflexivity|]. intros root ->. cbn [mbind result_bind].
    split; [|split].
    + intros Hnil. unfold hashInterior. rewrite Hnil. reflexivity.
    + intros Hne Hroot. rewrite hashInterior_lookup
        by (destruct (interiors (inclusionproof p)); [contradiction|simpl; lia]).
      cbn [mbind result_bind]. apply equals_neq in Hroot. rewrite Hroot. reflexivity.
    + intros Hne Hroot Hlinks. rewrite hashInterior_lookup
        by (destruct (interiors (inclusionproof p)); [contradiction|simpl; lia]).
      cbn [mbind result_bind]. rewrite Hroot, equals_refl, Hlinks. reflexivity.
Qed.

(** X6.  [getVerifiedInstance] resolves with an instance exactly when
    [verify] returns no error, the walk for the key of the leaf ends on the
    leaf, and the value of the leaf decodes to a body of the contract asked
    for; the instance is then made of the key of the leaf and of the contract,
    access-control object and value of that body.  An error returned by
    [verify] is the reason of the rejection, before anything else is looked
    at. *)
Theorem getVerifiedInstance_only_after_verify (p : Proof Roster) (genesisID : Buffer)
    (contractID : string) :
  (forall inst,
     verified_instance p genesisID contractID = Return inst <->
     verify_chain p genesisID = Return None /\
     Proof_exists (inclusionproof p) (Proof_key p) = Return true /\
     exists scb,
       body p = Return scb /\ scb_contractid scb = contractID /\
       inst = {| inst_id := Proof_key p; inst_contractID := contractID;
                 inst_darcID := scb_darcid scb; inst_data := scb_value scb |}) /\
  (forall msg,
     verify_chain p genesisID = Return (Some msg) ->
     verified_instance p genesisID contractID = Throw msg) /\
  (verify_chain p genesisID = Return None ->
   Proof_exists (inclusionproof p) (Proof_key p) = Return false ->
   verified_instance p genesisID contractID
   = Throw "cannot return an Instance from a proof of absence").
Proof.
  unfold getVerifiedInstance. split; [|split].
  - intros inst. split.
    + destruct (verify_chain p genesisID) as [[msg|]|msg]; try discriminate.
      cbn [mbind result_bind].
      destruct (Proof_exists (inclusionproof p) (Proof_key p)) as [[|]|msg];
        try discriminate.
      cbn [mbind result_bind negb].
      destruct (body p) as [scb|msg]; [|discriminate]. cbn [mbind result_bind].
      destruct (String.eqb (scb_contractid scb) contractID) eqn:Hcid; [|discriminate].
      apply String.eqb_eq in Hcid. cbn [negb]. intros [= <-].
      split; [reflexivity|]. split; [reflexivity|].
      exists scb. split; [reflexivity|]. split; [exact Hcid|].
      unfold fromFields. rewrite Hcid. reflexivity.
    + intros (Hv & He & scb & Hb & Hcid & ->). rewrite Hv. cbn [mbind result_bind].
      rewrite He. cbn [mbind result_bind negb]. rewrite Hb. cbn [mbind result_bind].
      rewrite Hcid, String.eqb_refl. reflexivity.
  - intros msg ->. reflexivity.
  - intros -> ->. reflexivity.
Qed.

(** X7.  [Instance.fromProof] looks at the inclusion proof only: two proofs
    with the same inclusion proof give the same outcome, whatever their
    blocks and links.  An instance it returns carries the key asked for, which
    is then the key of the leaf on which the walk ended; when [exists] returns
    [false] it throws, naming the key in hexadecimal. *)
Theorem fromProof_reads_inclusion_proof_only (key : Buffer) (p : Proof Roster) :
  (forall p', inclusionproof p' = inclusionproof p ->
              instance_of key p' = instance_of key p) /\
  (forall inst,
     instance_of key p = Return inst ->
     inst_id inst = key /\ leaf_key (leaf (inclusionproof p)) = key /\
     expected_at (inclusionproof p) (hashToBits key) (length (interiors (inclusionproof p)))
     = hashLeaf (inclusionproof p) /\
     exists scb, body p = Return scb /\
                 inst = fromFields key (scb_contractid scb) (scb_darcid scb) (scb_value scb)) /\
  (Proof_exists (inclusionproof p) key = Return false ->
   instance_of key p = Throw ("key not in proof: " ++ to_hex key)%string).
Proof.
  split; [|split].
  - intros p' Hip. unfold fromProof, stateChangeBody. rewrite Hip. reflexivity.
  - intros inst. unfold fromProof.
    destruct (Proof_exists (inclusionproof p) key) as [[|]|msg] eqn:Hex; try discriminate.
    cbn [mbind result_bind negb].
    destruct (body p) as [scb|msg] eqn:Hb; [|discriminate].
    cbn [mbind result_bind]. intros [= <-].
    destruct (exists_outcome _ _ _ Hex) as (_ & _ & _ & [(Hleaf & _ & Hiff)|(_ & _ & _ & Hf)]);
      [|discriminate].
    pose proof (proj1 Hiff eq_refl) as Hkey.
    split; [reflexivity|]. split; [exact Hkey|]. split; [exact Hleaf|].
    exists scb. split; reflexivity.
  - intros Hex. unfold fromProof. rewrite Hex. reflexivity.
Qed.

(** X8.  [Instance.fromByzCoin] sends the one request of [getProof] and
    hands the proof of the reply to [fromProof] without verifying it: the
    outcome is that of [fromProof] on the reply, or the rejection of the
    request. *)
Theorem fromByzCoin_one_request (genesis : SkipBlock Roster) (id : Buffer)
    (peer : GetProof -> result (GetProofResponse Roster)) :
  let req := {| req_id := hash genesis; req_key := id; req_version := currentVersion |} in
  run peer (fromByzCoin StateChangeBody_decode genesis id)
  = (match peer req with
     | Return reply => instance_of id (proof reply)
     | Throw msg => Throw msg
     end, [req]) /\
  (forall reply inst,
     peer req = Return reply ->
     fst (run peer (fromByzCoin StateChangeBody_decode genesis id)) = Return inst ->
     inst_id inst = id /\ leaf_key (leaf (inclusionproof (proof reply))) = id).
Proof.
  intros req.
  assert (Hrun : run peer (fromByzCoin StateChangeBody_decode genesis id)
                 = (match peer req with
                    | Return reply => instance_of id (proof reply)
                    | Throw msg => Throw msg
                    end, [req])).
  { unfold fromByzCoin. rewrite run_bind. cbn [getProof run]. fold req.
    destruct (peer req) as [reply|msg]; reflexivity. }
  split; [exact Hrun|]. intros reply inst Hreply. rewrite Hrun, Hreply. cbn [fst].
  unfold fromProof.
  destruct (Proof_exists (inclusionproof (proof reply)) id) as [[|]|msg] eqn:Hex;
    try discriminate.
  cbn [mbind result_bind negb].
  destruct (body (proof reply)) as [scb|msg]; [|discriminate].
  cbn [mbind result_bind]. intros [= <-].
  destruct (exists_outcome _ _ _ Hex) as (_ & _ & _ & [(_ & _ & Hiff)|(_ & _ & _ & Hf)]);
    [|discriminate].
  split; [reflexivity|exact (proj1 Hiff eq_refl)].
Qed.

End Instances.

(** ** What the hashes of a transaction leave out *)

Lemma hash_instructions_ext (l l' : list Instruction) :
  map Instruction_hash l = map Instruction_hash l' ->
  forall h, hash_instructions h l = hash_instructions h l'.
Proof.
  revert l'; induction l as [|i l IH]; intros [|i' l'] Hmap h; try discriminate;
    [reflexivity|].
  injection Hmap as Hi Hl. cbn [hash_instructions]. rewrite Hi.
  destruct (Instruction_hash i') as [ih|msg]; [|reflexivity].
  cbn [mbind result_bind]. apply IH, Hl.
Qed.

(** X9.  The command of an invocation is not hashed.  Two invocations that
    differ in their command only have the same hash and, with the same
    signatures, the same derived identifiers; exchanging one for the other
    inside a transaction keeps the hash of the transaction, which is what the
    signers sign. *)
Theorem Instruction_hash_ignores_command (iid : Buffer) (contractID cmd cmd' : string)
    (args : list Argument) (cs : list Z) (ids : list IdentityWrapper) :
  let i1 := setCounters (createInvoke iid contractID cmd args) cs ids in
  let i2 := setCounters (createInvoke iid contractID cmd' args) cs ids in
  (cmd <> cmd' -> i1 <> i2) /\
  Instruction_hash i1 = Instruction_hash i2 /\
  (forall ctxHash group what,
     deriveId (Instruction_signWith i1 ctxHash group) what
     = deriveId (Instruction_signWith i2 ctxHash group) what) /\
  (forall before after,
     ClientTransaction_hash {| instructions := before ++ i1 :: after |}
     = ClientTransaction_hash {| instructions := before ++ i2 :: after |}).
Proof.
  intros i1 i2.
  assert (Hh : Instruction_hash i1 = Instruction_hash i2).
  { rewrite !Instruction_hash_canonical. reflexivity. }
  split; [|split; [exact Hh|split]].
  - intros Hne [= H]. exact (Hne H).
  - intros ctxHash group what. unfold deriveId.
    replace (Instruction_hash (Instruction_signWith i1 ctxHash group))
      with (Instruction_hash (Instruction_signWith i2 ctxHash group))
      by (rewrite !Instruction_hash_canonical; reflexivity).
    reflexivity.
  - intros before after. unfold ClientTransaction_hash. cbn [instructions].
    rewrite (hash_instructions_ext (before ++ i1 :: after) (before ++ i2 :: after));
      [reflexivity|].
    rewrite !map_app. cbn [map]. rewrite Hh. reflexivity.
Qed.

(** X10.  The lists of an instruction are hashed without their number of
    elements, so the bytes do not tell where the arguments end and the
    counters begin: a last argument with an empty name and an empty value
    is hashed as two counters 0 in front of the counters. *)
Theorem Instruction_hash_blurs_arguments_and_counters (iid : Buffer) (contractID : string)
    (args : list Argument) (cs : list Z) (ids : list IdentityWrapper) :
  let blank := {| name := ""; value := [] |} in
  Instruction_hash (setCounters (createSpawn iid contractID (args ++ [blank])) cs ids)
  = Instruction_hash (setCounters (createSpawn iid contractID args) (0 :: 0 :: cs) ids).
Proof.
  intros blank. rewrite !Instruction_hash_canonical. unfold canonical_hash.
  cbn [contract_and_args setCounters createSpawn spawn invoke delete instanceID
       signerCounter signerIdentities spawn_contractID spawn_args].
  do 2 f_equal. rewrite map_app, concat_app. cbn [map concat].
  unfold encode_arg, encode_counter, blank. cbn [name value utf8 length].
  change (utf8 "") with (@nil Byte.byte). change (Z.of_nat 0) with 0.
  rewrite !app_nil_r, !app_nil_l, <- !app_assoc. reflexivity.
Qed.






(** ** Derived identifiers *)

Lemma bytesLE_inj (k : nat) (a b : Z) :
  0 <= a < 2 ^ (8 * Z.of_nat k) -> 0 <= b < 2 ^ (8 * Z.of_nat k) ->
  bytesLE k a = bytesLE k b -> a = b.
Proof.
  intros Ha Hb H. apply (f_equal Z_of_bytesLE) in H.
  rewrite !Z_of_bytesLE_bytesLE, !Z.mod_small in H by assumption. exact H.
Qed.

Lemma utf8_inj (s t : string) : utf8 s = utf8 t -> s = t.
Proof.
  intros H. apply (f_equal string_of_list_byte) in H. unfold utf8 in H.
  rewrite !string_of_list_byte_of_string in H. exact H.
Qed.

Lemma encode_signatures_inj (sigs : list Buffer) :
  forall (sigs' : list Buffer) (rest rest' : Buffer),
    length sigs = length sigs' -> Forall short sigs -> Forall short sigs' ->
    concat (map encode_signature sigs) ++ rest
    = concat (map encode_signature sigs') ++ rest' ->
    sigs = sigs' /\ rest = rest'.
Proof.
  induction sigs as [|sig sigs IH]; intros [|sig' sigs'] rest rest' Hlen Hs Hs' H;
    try discriminate.
  - split; [reflexivity|exact H].
  - apply Forall_cons in Hs as [Hsig Hs]. apply Forall_cons in Hs' as [Hsig' Hs'].
    cbn [map concat] in H. unfold encode_signature at 1 3 in H.
    rewrite <- !app_assoc in H.
    apply app_inj_1 in H as [Hl H]; [|rewrite !length_bytesLE; reflexivity].
    apply bytesLE_inj in Hl;
      [|unfold short in *; change (2 ^ (8 * Z.of_nat 4)) with (2 ^ 32); lia ..].
    apply app_inj_1 in H as [-> H]; [|lia].
    destruct (IH sigs' rest rest') as [-> ->]; try assumption.
    + simpl in Hlen. lia.
    + split; reflexivity.
Qed.

Lemma derive_input_inj (h h' : Buffer) (sigs sigs' : list Buffer) (what what' : string) :
  length h = length h' -> short sigs -> short sigs' ->
  Forall short sigs -> Forall short sigs' ->
  derive_input h sigs what = derive_input h' sigs' what' ->
  h = h' /\ sigs = sigs' /\ what = what'.
Proof.
  intros Hh Hn Hn' Hs Hs' H. unfold derive_input in H.
  apply app_inj_1 in H as [-> H]; [|exact Hh].
  apply app_inj_1 in H as [Hl H]; [|rewrite !length_bytesLE; reflexivity].
  apply bytesLE_inj in Hl;
    [|unfold short in *; change (2 ^ (8 * Z.of_nat 4)) with (2 ^ 32); lia ..].
  apply encode_signatures_inj in H as [-> Hw]; try assumption; [|lia].
  split; [reflexivity|]. split; [reflexivity|]. apply utf8_inj, Hw.
Qed.

Lemma deriveId_input (ins : Instruction) (h : Buffer) (what : string) :
  Instruction_hash ins = Return h ->
  deriveId ins what = Return (sha256 (derive_input h (signatures ins) what)).
Proof.
  intros Hh. unfold deriveId. rewrite Hh. simpl.
  rewrite fold_signatures. unfold digest, update, createHash, uint32LE, derive_input.
  simpl. rewrite <- !app_assoc. reflexivity.
Qed.

Lemma length_Instruction_hash (ins : Instruction) (h : Buffer) :
  Instruction_hash ins = Return h -> length h = 32%nat.
Proof.
  rewrite Instruction_hash_canonical. unfold canonical_hash.
  destruct (contract_and_args ins) as [[[type contract] args]|]; [|discriminate].
  intros [= <-]. apply length_sha256.
Qed.

(** X12.  The bytes that [deriveId] digests tell the instruction hash, the
    signatures and the discriminant apart, as long as there are fewer than
    2^32 signatures of fewer than 2^32 bytes each: when two instructions with
    their discriminants differ in one of the three, their derived identifiers
    are the digests of two different messages, and can be equal only if
    SHA-256 gives these two messages the same digest. *)
Theorem deriveId_unambiguous (ins ins' : Instruction) (what what' : string) (h h' : Buffer) :
  Instruction_hash ins = Return h -> Instruction_hash ins' = Return h' ->
  short (signatures ins) -> short (signatures ins') ->
  Forall short (signatures ins) -> Forall short (signatures ins') ->
  (h, signatures ins, what) <> (h', signatures ins', what') ->
  let m := derive_input h (signatures ins) what in
  let m' := derive_input h' (signatures ins') what' in
  deriveId ins what = Return (sha256 m) /\
  deriveId ins' what' = Return (sha256 m') /\
  m <> m' /\
  (deriveId ins what = deriveId ins' what' -> sha256 m = sha256 m').
Proof.
  intros Hh Hh' Hn Hn' Hs Hs' Hdiffer m m'.
  pose proof (deriveId_input ins h what Hh) as Hid.
  pose proof (deriveId_input ins' h' what' Hh') as Hid'.
  fold m in Hid. fold m' in Hid'.
  split; [exact Hid|]. split; [exact Hid'|]. split.
  - intros Heq. apply Hdiffer. unfold m, m' in Heq.
    apply derive_input_inj in Heq; try assumption.
    + destruct Heq as (-> & -> & ->). reflexivity.
    + rewrite (length_Instruction_hash ins h Hh), (length_Instruction_hash ins' h' Hh').
      reflexivity.
  - rewrite Hid, Hid'. congruence.
Qed.

(** Two discriminants on the fixture instruction. *)
Lemma deriveId_unambiguous_fixture :
  let ins := Fixture.instruction [Fixture.arg "a" "1"] [1] [Fixture.alice] in
  exists h,
    Instruction_hash ins = Return h /\
    derive_input h (signatures ins) "x" <> derive_input h (signatures ins) "y".
Proof.
  intros ins. destruct fixture_instruction_hash as [h Hh]. exists h.
  assert (Hn : short (signatures ins)) by (vm_compute; reflexivity).
  assert (Hs : Forall short (signatures ins))
    by (repeat constructor; vm_compute; reflexivity).
  assert (Hdiffer : (h, signatures ins, "x"%string) <> (h, signatures ins, "y"%string))
    by (intros H; discriminate H).
  split; [exact Hh|].
  exact (proj1 (proj2 (proj2 (deriveId_unambiguous ins ins "x" "y" h h
                                Hh Hh Hn Hn Hs Hs Hdiffer)))).
Defined.

(** X13.  Whatever is hashed, the hashes have the 32 bytes of an instance
    identifier: so have the hash of an instruction, the identifier derived
    from it and the hash of a transaction, whenever they are returned. *)
Theorem hashes_have_32_bytes (tx : ClientTransaction) (ins : Instruction)
    (what : string) (h : Buffer) :
  Instruction_hash ins = Return h \/ deriveId ins what = Return h \/
  ClientTransaction_hash tx = Return h ->
  length h = 32%nat.
Proof.
  intros [H|[H|H]].
  - exact (length_Instruction_hash ins h H).
  - unfold deriveId in H. destruct (Instruction_hash ins) as [ih|msg]; [|discriminate].
    cbn [mbind result_bind] in H. injection H as <-. apply length_sha256.
  - unfold ClientTransaction_hash in H.
    destruct (hash_instructions createHash (instructions tx)) as [x|msg]; [|discriminate].
    cbn [mbind result_bind] in H. injection H as <-. apply length_sha256.
Qed.

Lemma fixture_transaction_hash :
  exists h, ClientTransaction_hash Fixture.transaction = Return h.
Proof. eexists. vm_compute. reflexivity. Qed.

Lemma hashes_have_32_bytes_fixture :
  exists h, ClientTransaction_hash Fixture.transaction = Return h /\ length h = 32%nat.
Proof.
  destruct fixture_transaction_hash as [h Hh]. exists h. split; [exact Hh|].
  apply (hashes_have_32_bytes Fixture.transaction
           (Fixture.instruction [] [] []) "" h).
  right. right. exact Hh.
Defined.

(** ** One identity per name *)

Lemma existsb_name (s : string) (seen : list string) :
  existsb (String.eqb s) seen = true <-> In s seen.
Proof.
  rewrite existsb_exists. split.
  - intros (x & Hx & Heq). apply String.eqb_eq in Heq. subst x. exact Hx.
  - intros H. exists s. split; [exact H|apply String.eqb_refl].
Qed.

Lemma keep_first_seen (l : list IIdentity) :
  forall seen seen' : list string,
    (forall s, In s seen <-> In s seen') -> keep_first seen l = keep_first seen' l.
Proof.
  induction l as [|u l IH]; intros seen seen' Hsame; [reflexivity|].
  cbn [keep_first].
  assert (Hb : existsb (String.eqb (toString u)) seen
               = existsb (String.eqb (toString u)) seen').
  { destruct (existsb _ seen) eqn:E; symmetry.
    - apply existsb_name, Hsame, existsb_name. exact E.
    - destruct (existsb _ seen') eqn:E'; [|reflexivity].
      apply existsb_name, Hsame, existsb_name in E'. congruence. }
  rewrite <- Hb. destruct (existsb _ seen).
  - apply IH, Hsame.
  - f_equal. apply IH. intros s. rewrite !in_app_iff, Hsame. reflexivity.
Qed.

Lemma filter_index_keep_first (suf : list IIdentity) :
  forall pre : list IIdentity,
    filter_index (fun us i =>
                    findIndex (fun usf => String.eqb (toString usf) (toString us))
                              (pre ++ suf) =? Z.of_nat i)
                 suf (length pre)
    = keep_first (map toString pre) suf.
Proof.
  induction suf as [|x suf IH]; intros pre; [reflexivity|].
  specialize (IH (pre ++ [x])). rewrite <- app_assoc in IH. cbn [app] in IH.
  rewrite length_app, map_app in IH. cbn [length map] in IH. rewrite Nat.add_1_r in IH.
  cbn [filter_index keep_first]. rewrite IH.
  destruct (existsb (String.eqb (toString x)) (map toString pre)) eqn:Hseen.
  - apply existsb_name in Hseen. pose proof Hseen as Hin.
    apply in_map_iff in Hin as (y & Hy & Hyin).
    pose proof (findIndex_app_earlier
                  (fun usf => String.eqb (toString usf) (toString x))
                  pre (x :: suf) y Hyin (proj2 (String.eqb_eq _ _) Hy)) as Hearlier.
    rewrite (proj2 (Z.eqb_neq _ _)) by lia.
    apply keep_first_seen. intros s. rewrite in_app_iff. split; [|tauto].
    intros [H|[<-|[]]]; assumption.
  - rewrite findIndex_app_first, Z.eqb_refl; [reflexivity| |apply String.eqb_refl].
    intros y Hy. apply String.eqb_neq. intros Heq.
    assert (Hin : In (toString x) (map toString pre))
      by (apply in_map_iff; exists y; split; assumption).
    apply existsb_name in Hin. congruence.
Qed.

Lemma keep_first_distinct (l : list IIdentity) :
  forall seen : list string,
    NoDup (seen ++ map toString l) -> keep_first seen l = l.
Proof.
  induction l as [|u l IH]; intros seen Hnd; [reflexivity|].
  cbn [keep_first]. cbn [map] in Hnd.
  destruct (existsb (String.eqb (toString u)) seen) eqn:E.
  - apply existsb_name in E. apply NoDup_app in Hnd as (_ & Hdis & _).
    exfalso. apply (Hdis (toString u)); [apply list_elem_of_In, E|left].
  - f_equal. apply IH. rewrite <- app_assoc. exact Hnd.
Qed.

(** X14.  [uniqueSigners] keeps, in the order of the list, the first
    identity of every name and drops the later ones of that name.  It leaves
    a list of identities with different names as it is, so filtering twice
    is filtering once. *)
Theorem uniqueSigners_keeps_first_of_each_name (all : list IIdentity) :
  uniqueSigners all = keep_first [] all /\
  (NoDup (map toString all) -> uniqueSigners all = all) /\
  uniqueSigners (uniqueSigners all) = uniqueSigners all.
Proof.
  assert (Hk : forall l, uniqueSigners l = keep_first [] l)
    by (intros l; exact (filter_index_keep_first l [])).
  assert (Hd : forall l, NoDup (map toString l) -> uniqueSigners l = l)
    by (intros l Hnd; rewrite Hk; apply keep_first_distinct; exact Hnd).
  split; [apply Hk|]. split; [apply Hd|].
  apply Hd. apply uniqueSigners_spec.
Qed.

(** ** Counters for name-distinct signers and for short replies *)

Lemma names_before (us : list IIdentity) (j : nat) (u : IIdentity) :
  NoDup (map toString us) -> us !! j = Some u ->
  forall y, In y (take j us) -> named (toString u) y = false.
Proof.
  intros Hnd Hu y Hy. destruct (named (toString u) y) eqn:E; [|reflexivity].
  apply named_spec in E. exfalso.
  apply list_elem_of_In, list_elem_of_lookup in Hy as [i Hi].
  apply lookup_take_Some in Hi as [Hi Hlt].
  assert (Hij : i = j).
  { apply (NoDup_lookup (map toString us) i j (toString u)); [exact Hnd| |].
    - rewrite list_lookup_fmap, Hi. simpl. f_equal. exact E.
    - rewrite list_lookup_fmap, Hu. reflexivity. }
  lia.
Qed.

Lemma findIndex_distinct (us : list IIdentity) (j : nat) (u : IIdentity) :
  NoDup (map toString us) -> us !! j = Some u ->
  findIndex (named (toString u)) us = Z.of_nat j.
Proof.
  intros Hnd Hu. rewrite <- (take_drop_middle us j u Hu) at 1.
  rewrite findIndex_app_first.
  - rewrite length_take. apply lookup_lt_Some in Hu. lia.
  - apply names_before; assumption.
  - apply named_self.
Qed.

Lemma fetched_distinct (us : list IIdentity) (counters : list Z) (j : nat) (u : IIdentity) :
  NoDup (map toString us) -> us !! j = Some u ->
  fetched us counters (toString u) = counters !! j.
Proof.
  intros Hnd Hu. unfold fetched. rewrite (findIndex_distinct us j u Hnd Hu).
  rewrite (proj2 (Z.ltb_ge _ _)) by lia. rewrite Nat2Z.id. reflexivity.
Qed.

Lemma filter_none {A} (f : A -> bool) (l : list A) :
  (forall y, In y l -> f y = false) -> List.filter f l = [].
Proof.
  induction l as [|x l IH]; intros H; [reflexivity|]. simpl.
  rewrite (H x (or_introl eq_refl)). apply IH. intros y Hy. apply H. right. exact Hy.
Qed.

Lemma assigned_distinct (us : list IIdentity) (counters : list Z) :
  NoDup (map toString us) -> length counters = length us ->
  assigned us counters [] us = counters.
Proof.
  intros Hnd Hlen. apply list_eq. intros j.
  destruct (us !! j) as [u|] eqn:Hu.
  - pose proof (lookup_lt_Some _ _ _ Hu) as Hlt.
    destruct (lookup_lt_is_Some_2 counters j ltac:(lia)) as [c Hc].
    rewrite (assigned_lookup us counters us [] j u c Hu)
      by (rewrite (fetched_distinct us counters j u Hnd Hu); exact Hc).
    rewrite Hc. f_equal. cbn [app]. unfold occurrences.
    replace (List.filter (named (toString u)) (take j us)) with (@nil IIdentity);
      [reflexivity|].
    symmetry. apply filter_none. apply (names_before us j u Hnd Hu).
  - apply lookup_ge_None in Hu.
    rewrite (proj2 (lookup_ge_None _ _)) by (rewrite length_assigned; lia).
    symmetry. apply lookup_ge_None. lia.
Qed.

(** X15.  For a new instruction and signers of different names,
    [Instruction.updateCounters] and [ClientTransaction.updateCounters] on the
    transaction of that instruction alone do the same when the reply holds
    one counter for each signer: the same request is sent and the instruction
    leaves with the counters of the reply and the wrappers of the signers. *)
Theorem Instruction_updateCounters_as_transaction (ins : Instruction)
    (signers : list IIdentity) (peer : CounterRequest -> result (list Z))
    (counters : list Z) :
  NoDup (map toString signers) ->
  signerCounter ins = [] -> signerIdentities ins = [] ->
  peer (signers, 1) = Return counters -> length counters = length signers ->
  let ins' := setCounters ins counters (map toWrapper signers) in
  run peer (Instruction_updateCounters ins signers) = (Return ins', [(signers, 1)]) /\
  run peer (updateCounters {| instructions := [ins] |} [signers])
  = (Return {| instructions := [ins'] |}, [(signers, 1)]).
Proof.
  intros Hnd Hcs Hids Hpeer Hlen ins'. split.
  - cbn [Instruction_updateCounters run]. rewrite Hpeer. reflexivity.
  - assert (Hus : uniqueSigners (concat [signers]) = signers).
    { cbn [concat]. rewrite app_nil_r.
      exact (eq_trans (filter_index_keep_first signers [])
                      (keep_first_distinct signers [] Hnd)). }
    destruct (updateCounters_resolves {| instructions := [ins] |} [signers] peer counters)
      as (l' & Hrun & Hlen' & Hlook).
    + discriminate.
    + reflexivity.
    + rewrite Hus. exact Hpeer.
    + rewrite Hus, Hlen. reflexivity.
    + rewrite Hrun, Hus. do 3 f_equal.
      specialize (Hlook 0%nat ins signers eq_refl eq_refl).
      rewrite Hus in Hlook. cbn [take concat] in Hlook.
      rewrite (assigned_distinct signers counters Hnd Hlen) in Hlook.
      destruct l' as [|x [|y l']]; try discriminate.
      injection Hlook as ->. f_equal.
      unfold push_counters, ins', setCounters. rewrite Hcs, Hids. reflexivity.
Qed.

Lemma Instruction_updateCounters_as_transaction_fixture :
  let A := identity (Fixture.signer "A") in
  let B := identity (Fixture.signer "B") in
  let ins := createDelete [] "coin" in
  let peer := fun _ : CounterRequest => Return [5; 9] in
  NoDup (map toString [A; B]) /\
  fst (run peer (updateCounters {| instructions := [ins] |} [[A; B]]))
  = Return {| instructions := [setCounters ins [5; 9] (map toWrapper [A; B])] |}.
Proof.
  intros A B ins peer.
  assert (Hnd : NoDup (map toString [A; B])).
  { apply NoDup_ListNoDup. repeat constructor; simpl; intros H;
      repeat (destruct H as [H|H]; [discriminate H|]); exact H. }
  split; [exact Hnd|].
  destruct (Instruction_updateCounters_as_transaction ins [A; B] peer [5; 9]
              Hnd eq_refl eq_refl eq_refl eq_refl) as [_ Htx].
  rewrite Htx. reflexivity.
Defined.

Lemma assign_signers_known (group : list IIdentity) :
  forall (ins ins' : Instruction) (sc sc' : gmap string Z),
    assign_signers ins group sc = Return (ins', sc') ->
    (forall u, In u group -> is_Some (sc !! toString u)) /\
    (forall s, is_Some (sc' !! s) <-> is_Some (sc !! s)).
Proof.
  induction group as [|u group IH]; intros ins ins' sc sc'.
  - simpl. intros [= <- <-]. split; [intros u []|reflexivity].
  - cbn [assign_signers]. destruct (sc !! toString u) as [c|] eqn:Hc; [|discriminate].
    intros Hrun. destruct (IH _ _ _ _ Hrun) as [Hall Hdom].
    assert (Hsame : forall s, is_Some (<[toString u := Long_add c 1]> sc !! s)
                              <-> is_Some (sc !! s)).
    { intros s. destruct (decide (toString u = s)) as [<-|Hne].
      - rewrite lookup_insert_eq, Hc. split; intros _; eexists; reflexivity.
      - rewrite lookup_insert_ne by exact Hne. reflexivity. }
    split.
    + intros y [<-|Hy]; [rewrite Hc; eexists; reflexivity|].
      apply Hsame, Hall, Hy.
    + intros s. rewrite Hdom. apply Hsame.
Qed.

Lemma assign_signers_throws (group : list IIdentity) :
  forall (ins : Instruction) (sc : gmap string Z) (msg : string),
    assign_signers ins group sc = Throw msg -> msg = TypeError.
Proof.
  induction group as [|u group IH]; intros ins sc msg; [discriminate|].
  cbn [assign_signers]. destruct (sc !! toString u) as [c|].
  - apply IH.
  - intros [= <-]. reflexivity.
Qed.

Lemma assign_instructions_known (l : list Instruction) :
  forall (signers : list (list IIdentity)) (sc : gmap string Z) (l' : list Instruction),
    length signers = length l ->
    assign_instructions l signers sc = Return l' ->
    forall g u, In g signers -> In u g -> is_Some (sc !! toString u).
Proof.
  induction l as [|ins l IH]; intros [|g0 signers] sc l' Hlen Hrun g u Hg Hu;
    try discriminate; [destruct Hg|].
  cbn [assign_instructions] in Hrun.
  destruct (assign_signers ins g0 sc) as [[ins' sc']|msg] eqn:Hg0; [|discriminate].
  cbn [mbind result_bind] in Hrun.
  destruct (assign_instructions l signers sc') as [rest|msg] eqn:Hrest; [|discriminate].
  destruct (assign_signers_known g0 ins ins' sc sc' Hg0) as [Hall Hdom].
  destruct Hg as [<-|Hg]; [apply Hall, Hu|].
  apply Hdom. apply (IH signers sc' rest ltac:(simpl in Hlen; lia) Hrest g u Hg Hu).
Qed.

Lemma assign_instructions_throws (l : list Instruction) :
  forall (signers : list (list IIdentity)) (sc : gmap string Z) (msg : string),
    assign_instructions l signers sc = Throw msg -> msg = TypeError.
Proof.
  induction l as [|ins l IH]; intros [|g0 signers] sc msg; try discriminate.
  - intros [= <-]. reflexivity.
  - cbn [assign_instructions].
    destruct (assign_signers ins g0 sc) as [[ins' sc']|m] eqn:Hg0.
    + cbn [mbind result_bind].
      destruct (assign_instructions l signers sc') as [rest|m] eqn:Hrest; [discriminate|].
      cbn [mbind result_bind]. intros [= <-]. apply (IH signers sc' m Hrest).
    + cbn [mbind result_bind]. intros [= <-]. apply (assign_signers_throws g0 ins sc m Hg0).
Qed.

(** X16.  A reply with fewer counters than identities asked for is not
    refused as such: the request has been sent, and the call is rejected with
    a [TypeError], raised when the counter of an identity left without one is
    advanced.  Nothing else makes the call fail once the reply is in. *)
Theorem updateCounters_short_reply (tx : ClientTransaction)
    (signers : list (list IIdentity)) (peer : CounterRequest -> result (list Z))
    (counters : list Z) :
  instructions tx <> [] -> length signers = length (instructions tx) ->
  let us := uniqueSigners (concat signers) in
  peer (us, 1) = Return counters ->
  ((length counters < length us)%nat ->
   run peer (updateCounters tx signers) = (Throw TypeError, [(us, 1)])) /\
  (forall msg, fst (run peer (updateCounters tx signers)) = Throw msg ->
               (length counters < length us)%nat /\ msg = TypeError).
Proof.
  intros Hne Hlen us Hpeer.
  rewrite (updateCounters_shape tx signers Hne Hlen). fold us. cbn [run].
  rewrite Hpeer. cbn [run].
  destruct (uniqueSigners_spec (concat signers)) as (Hnd & Hin & _). fold us in Hnd, Hin.
  assert (Hshort : (length counters < length us)%nat ->
            forall l', assign_instructions (instructions tx) signers
                         (store_counters us 0 counters ∅) <> Return l').
  { intros Hlt l' Hrun.
    destruct (lookup_lt_is_Some_2 us (length counters) Hlt) as [u Hu].
    assert (Hall : In u (concat signers)).
    { apply Hin, list_elem_of_In, list_elem_of_lookup. exists (length counters). exact Hu. }
    apply in_concat in Hall as (g & Hg & Hug).
    pose proof (assign_instructions_known _ _ _ _ Hlen Hrun g u Hg Hug) as [c Hc].
    rewrite (store_counters_lookup counters us Hnd 0 ∅ (toString u)) in Hc.
    rewrite (findIndex_distinct us _ u Hnd Hu) in Hc.
    rewrite (proj2 (Z.ltb_ge _ _)) in Hc by lia.
    rewrite Nat2Z.id in Hc. cbn [Nat.add] in Hc.
    rewrite (proj2 (lookup_ge_None counters (length counters))) in Hc by lia.
    discriminate. }
  destruct (assign_instructions (instructions tx) signers (store_counters us 0 counters ∅))
    as [l'|m] eqn:Hrun; cbn [mbind result_bind fst].
  - split; [|discriminate]. intros Hlt. exfalso. exact (Hshort Hlt l' eq_refl).
  - pose proof (assign_instructions_throws _ _ _ _ Hrun) as ->.
    split; [reflexivity|]. intros msg [= <-]. split; [|reflexivity].
    destruct (Nat.lt_ge_cases (length counters) (length us)) as [Hlt|Hge]; [exact Hlt|].
    exfalso.
    destruct (assign_instructions_spec us counters (instructions tx) signers
                (store_counters us 0 counters ∅) [] Hlen
                (counters_after_start us counters Hnd)) as (l' & Hl' & _).
    + intros g u Hg Hu. apply fetched_is_Some; [exact Hge|].
      apply in_concat. exists g. split; assumption.
    + rewrite Hl' in Hrun. discriminate.
Qed.

Lemma updateCounters_short_reply_fixture :
  let A := identity (Fixture.signer "A") in
  let B := identity (Fixture.signer "B") in
  let signers := [[A]; [A]; [B]] in
  let peer := fun _ : CounterRequest => Return [5] in
  run peer (updateCounters Fixture.transaction signers)
  = (Throw TypeError, [(uniqueSigners (concat signers), 1)]).
Proof.
  intros A B signers peer.
  apply (updateCounters_short_reply Fixture.transaction signers peer [5]).
  - discriminate.
  - reflexivity.
  - reflexivity.
  - vm_compute. lia.
Defined.

(** ** Counters fetched through the client *)

Lemma run_via {Req1 Resp1 Req2 Resp2 A}
    (serve : Req1 -> Async Req2 Resp2 Resp1) (q : Req1 -> Req2)
    (post : Req1 -> result Resp2 -> result Resp1) :
  (forall req, exists k, serve req = Await (q req) k /\
                         forall r, k r = Done (post req r)) ->
  forall (conn : Req2 -> result Resp2) (m : Async Req1 Resp1 A),
    run conn (Async_via serve m)
    = (fst (run (fun req => post req (conn (q req))) m),
       map q (snd (run (fun req => post req (conn (q req))) m))).
Proof.
  intros Hserve conn m. induction m as [r|req k IH]; [reflexivity|].
  cbn [Async_via]. destruct (Hserve req) as (k' & -> & Hk).
  cbn [Async_then run]. rewrite Hk. cbn [Async_then]. rewrite IH.
  destruct (run _ (k (post req (conn (q req))))) as [r sent]. reflexivity.
Qed.

Section ThroughClient.

Context {Roster : Type}.
Variable rcatch : string -> result (list Z).
Variable genesis : SkipBlock Roster.

Local Abbreviation query :=
  (fun req : CounterRequest =>
     {| signerIDs := map toString (fst req); skipchainID := hash genesis |}).
Local Abbreviation answer :=
  (fun (req : CounterRequest) (r : result GetSignerCountersResponse) =>
     match r with
     | Return rep => Return (map (fun c => Long_add c (snd req)) (counters rep))
     | Throw e => rcatch e
     end).

Lemma counter_service_single (req : CounterRequest) :
  exists k, counter_service rcatch genesis req = Await (query req) k /\
            forall r, k r = Done (answer req r).
Proof.
  eexists. split; [reflexivity|]. intros [rep|e]; reflexivity.
Qed.

(** X17.  With the client as the source of counters, [updateCounters]
    sends one message: the names of the signers, each name once, with the
    identifier of the genesis block.  The counters assigned are those of the
    reply plus one, advanced once more for every earlier signer of the same
    name.  When the message fails, the outcome of [Log.rcatch] stands for
    the reply. *)
Theorem updateCounters_through_client (tx : ClientTransaction)
    (signers : list (list IIdentity))
    (conn : GetSignerCounters -> result GetSignerCountersResponse) :
  instructions tx <> [] -> length signers = length (instructions tx) ->
  let us := uniqueSigners (concat signers) in
  let req := {| signerIDs := map toString us; skipchainID := hash genesis |} in
  let call := Async_via (counter_service rcatch genesis) (updateCounters tx signers) in
  snd (run conn call) = [req] /\
  NoDup (signerIDs req) /\
  (forall rep,
     conn req = Return rep -> (length us <= length (counters rep))%nat ->
     exists l',
       fst (run conn call) = Return {| instructions := l' |} /\
       length l' = length (instructions tx) /\
       forall i ins g,
         instructions tx !! i = Some ins -> signers !! i = Some g ->
         l' !! i = Some (push_counters ins (map toWrapper g)
                           (assigned us (map (fun c => Long_add c 1) (counters rep))
                                     (concat (take i signers)) g))) /\
  (forall e msg,
     conn req = Throw e -> rcatch e = Throw msg -> fst (run conn call) = Throw msg).
Proof.
  intros Hne Hlen us req call. unfold call.
  rewrite (run_via (counter_service rcatch genesis) query answer counter_service_single).
  cbn [fst snd].
  set (peer := fun r : CounterRequest => answer r (conn (query r))).
  assert (Hsent : snd (run peer (updateCounters tx signers)) = [(us, 1)]).
  { rewrite (updateCounters_shape tx signers Hne Hlen). fold us. cbn [run].
    destruct (peer (us, 1)); reflexivity. }
  split; [rewrite Hsent; reflexivity|].
  split; [apply uniqueSigners_spec|]. split.
  - intros rep Hrep Hcount.
    destruct (updateCounters_resolves tx signers peer
                (map (fun c => Long_add c 1) (counters rep)) Hne Hlen)
      as (l' & Hrun & Hlen' & Hlook).
    + unfold peer. cbn [fst snd]. fold us. fold req. rewrite Hrep. reflexivity.
    + rewrite length_map. exact Hcount.
    + exists l'. rewrite Hrun. split; [reflexivity|]. split; [exact Hlen'|exact Hlook].
  - intros e msg He Hmsg.
    rewrite (updateCounters_shape tx signers Hne Hlen). fold us. cbn [run].
    assert (Hpeer : peer (us, 1) = Throw msg).
    { unfold peer. cbn [fst snd]. fold req. rewrite He. exact Hmsg. }
    rewrite Hpeer. reflexivity.
Qed.

End ThroughClient.

Lemma updateCounters_through_client_fixture :
  let A := identity (Fixture.signer "A") in
  let B := identity (Fixture.signer "B") in
  let signers := [[A]; [A]; [B]] in
  let genesis := Fixture.block Fixture.old_roster in
  let conn := fun _ : GetSignerCounters => Return {| counters := [4; 8] |} in
  snd (run conn (Async_via (counter_service (fun e => Throw e) genesis)
                           (updateCounters Fixture.transaction signers)))
  = [ {| signerIDs := map toString (uniqueSigners (concat signers));
         skipchainID := hash genesis |} ].
Proof.
  intros A B signers genesis conn.
  refine (proj1 (updateCounters_through_client (fun e => Throw e) genesis
                   Fixture.transaction signers conn _ _)).
  - discriminate.
  - reflexivity.
Defined.

(** ** Rules of an access-control object *)

Lemma find_findIndex {A} (f : A -> bool) (l : list A) :
  List.find f l = if findIndex f l <? 0 then None else l !! Z.to_nat (findIndex f l).
Proof.
  induction l as [|x l IH]; [reflexivity|]. cbn [List.find findIndex].
  destruct (f x); [reflexivity|]. rewrite IH.
  pose proof (findIndex_bounds f l) as Hb.
  destruct (findIndex f l <? 0) eqn:E; [reflexivity|].
  apply Z.ltb_ge in E. rewrite (proj2 (Z.ltb_ge _ _)) by lia.
  replace (Z.to_nat (findIndex f l + 1)) with (S (Z.to_nat (findIndex f l))) by lia.
  reflexivity.
Qed.

Lemma find_holds {A} (f : A -> bool) (l : list A) (x : A) :
  List.find f l = Some x -> f x = true.
Proof.
  induction l as [|y l IH]; [discriminate|]. simpl.
  destruct (f y) eqn:Hy; [intros [= <-]; exact Hy|exact IH].
Qed.

Lemma find_insert_first {A} (f : A -> bool) (l : list A) (y : A) :
  0 <= findIndex f l -> f y = true ->
  List.find f (<[Z.to_nat (findIndex f l) := y]> l) = Some y.
Proof.
  intros Hidx Hy. induction l as [|x l IH]; [simpl in Hidx; lia|].
  cbn [findIndex] in *. destruct (f x) eqn:Hx.
  - simpl. rewrite Hy. reflexivity.
  - pose proof (findIndex_bounds f l) as Hb.
    destruct (findIndex f l <? 0) eqn:E; [lia|]. apply Z.ltb_ge in E.
    replace (Z.to_nat (findIndex f l + 1)) with (S (Z.to_nat (findIndex f l))) by lia.
    cbn [insert list_insert List.find]. rewrite Hx. apply IH. exact E.
Qed.

Lemma find_insert_other {A} (g : A -> bool) (l : list A) :
  forall (k : nat) (x y : A),
    l !! k = Some x -> g x = false -> g y = false ->
    List.find g (<[k := y]> l) = List.find g l.
Proof.
  induction l as [|z l IH]; intros k x y Hk Hx Hy; [discriminate|].
  destruct k as [|k]; simpl in *.
  - injection Hk as ->. rewrite Hx, Hy. reflexivity.
  - destruct (g z); [reflexivity|]. apply (IH k x y Hk Hx Hy).
Qed.

Lemma find_app_last {A} (g : A -> bool) (l : list A) (r : A) :
  List.find g (l ++ [r])
  = match List.find g l with Some x => Some x | None => if g r then Some r else None end.
Proof.
  induction l as [|z l IH]; simpl; [reflexivity|]. destruct (g z); [reflexivity|exact IH].
Qed.

Lemma has_action_other (a b : string) (r : Rule) :
  b <> a -> action r = a -> has_action b r = false.
Proof. intros Hne <-. apply String.eqb_neq. congruence. Qed.

Lemma map_action_insert (l : list Rule) :
  forall (k : nat) (x y : Rule),
    l !! k = Some x -> action y = action x ->
    map action (<[k := y]> l) = map action l.
Proof.
  induction l as [|z l IH]; intros k x y Hk Hy; [discriminate|].
  destruct k as [|k]; simpl in *.
  - injection Hk as ->. rewrite Hy. reflexivity.
  - f_equal. apply (IH k x y Hk Hy).
Qed.

(** The rule found for an action, with its place in the list. *)
Lemma getRule_place (rs : Rules) (a : string) :
  match getRule rs a with
  | Some r =>
      0 <= findIndex (has_action a) (rules rs) /\
      rules rs !! Z.to_nat (findIndex (has_action a) (rules rs)) = Some r /\
      action r = a
  | None => findIndex (has_action a) (rules rs) < 0
  end.
Proof.
  unfold getRule. pose proof (find_findIndex (has_action a) (rules rs)) as Hf.
  destruct (List.find (has_action a) (rules rs)) as [r|] eqn:Hfind.
  - pose proof (find_holds _ _ _ Hfind) as Hr. apply String.eqb_eq in Hr.
    destruct (findIndex (has_action a) (rules rs) <? 0) eqn:E; [discriminate|].
    apply Z.ltb_ge in E. split; [exact E|]. split; [symmetry; exact Hf|exact Hr].
  - destruct (findIndex (has_action a) (rules rs) <? 0) eqn:E; [apply Z.ltb_lt, E|].
    apply Z.ltb_ge in E. pose proof (findIndex_bounds (has_action a) (rules rs)) as Hb.
    symmetry in Hf. apply lookup_ge_None in Hf. lia.
Qed.

(** X18.  After [setRule(action, identity)], [getRule(action)] is the rule
    that names this identity alone, and [getRule] of any other action is what
    it was.  The rule takes the place of the first rule of that action when
    there is one, and the end of the list otherwise, so the actions of the
    list change only by the new action at the end. *)
Theorem getRule_after_setRule (rs : Rules) (a : string) (identity : IIdentity) :
  getRule (setRule rs a identity) a
  = Some {| action := a; expr := utf8 (toString identity) |} /\
  (forall b, b <> a -> getRule (setRule rs a identity) b = getRule rs b) /\
  map action (rules (setRule rs a identity))
  = match getRule rs a with
    | Some _ => map action (rules rs)
    | None => map action (rules rs) ++ [a]
    end.
Proof.
  pose proof (getRule_place rs a) as Hplace. unfold setRule.
  set (r := {| action := a; expr := utf8 (toString identity) |}).
  assert (Hr : has_action a r = true) by apply String.eqb_refl.
  destruct (getRule rs a) as [old|] eqn:Hold.
  - destruct Hplace as (Hidx & Hat & Hact).
    rewrite (proj2 (Z.geb_le _ _)) by lia. unfold getRule. cbn [rules].
    split; [apply find_insert_first; assumption|]. split.
    + intros b Hb. apply (find_insert_other _ _ _ old r Hat).
      * apply (has_action_other a b old Hb Hact).
      * apply (has_action_other a b r Hb eq_refl).
    + apply (map_action_insert _ _ old r Hat). rewrite Hact. reflexivity.
  - assert (Hgeb : (findIndex (has_action a) (rules rs) >=? 0) = false)
      by (rewrite Z.geb_leb; apply Z.leb_gt; exact Hplace).
    rewrite Hgeb. unfold getRule in *. cbn [rules]. split; [|split].
    + rewrite find_app_last, Hold, Hr. reflexivity.
    + intros b Hb. rewrite find_app_last, (has_action_other a b r Hb eq_refl).
      destruct (List.find (has_action b) (rules rs)); reflexivity.
    + rewrite map_app. reflexivity.
Qed.

Lemma appendToRule_spec (rs : Rules) (a : string) (identity : IIdentity)
    (op : string) :
  exists rs',
    appendToRule rs a identity op = Return rs' /\
    getRule rs' a
    = Some {| action := a;
              expr := match getRule rs a with
                      | Some old => expr old ++ utf8 (" " ++ op ++ " " ++ toString identity)
                      | None => utf8 (toString identity)
                      end |} /\
    (forall b, b <> a -> getRule rs' b = getRule rs b) /\
    map action (rules rs')
    = match getRule rs a with
      | Some _ => map action (rules rs)
      | None => map action (rules rs) ++ [a]
      end.
Proof.
  pose proof (getRule_place rs a) as Hplace. unfold appendToRule.
  destruct (getRule rs a) as [old|] eqn:Hold.
  - destruct Hplace as (Hidx & Hat & Hact).
    rewrite (proj2 (Z.geb_le _ _)) by lia. rewrite Hat. eexists. split; [reflexivity|].
    set (r := {| action := action old;
                 expr := expr old ++ utf8 (" " ++ op ++ " " ++ toString identity) |}).
    assert (Hr : has_action a r = true) by (apply String.eqb_eq; exact Hact).
    unfold getRule. cbn [rules]. split; [|split].
    + rewrite find_insert_first by assumption. unfold r. rewrite Hact. reflexivity.
    + intros b Hb. apply (find_insert_other _ _ _ old r Hat).
      * apply (has_action_other a b old Hb Hact).
      * apply (has_action_other a b r Hb Hact).
    + apply (map_action_insert _ _ old r Hat). reflexivity.
  - assert (Hgeb : (findIndex (has_action a) (rules rs) >=? 0) = false)
      by (rewrite Z.geb_leb; apply Z.leb_gt; exact Hplace).
    rewrite Hgeb. eexists. split; [reflexivity|].
    set (r := {| action := a; expr := utf8 (toString identity) |}).
    assert (Hr : has_action a r = true) by apply String.eqb_refl.
    unfold getRule in *. cbn [rules]. split; [|split].
    + rewrite find_app_last, Hold, Hr. reflexivity.
    + intros b Hb. rewrite find_app_last, (has_action_other a b r Hb eq_refl).
      destruct (List.find (has_action b) (rules rs)); reflexivity.
    + rewrite map_app. reflexivity.
Qed.

(** X19.  [appendToRule(action, identity, op)] never throws.  Afterwards
    [getRule(action)] is the former rule of that action with the operator
    and the name of the identity added behind its expression, between single
    spaces, or, when there was no such rule, the rule that names the identity
    alone; [getRule] of any other action is what it was, and the actions of
    the list change only by a new action at the end. *)
Theorem getRule_after_appendToRule (rs : Rules) (a : string) (identity : IIdentity)
    (op : string) :
  exists rs',
    appendToRule rs a identity op = Return rs' /\
    getRule rs' a
    = Some {| action := a;
              expr := match getRule rs a with
                      | Some old => expr old ++ utf8 (" " ++ op ++ " " ++ toString identity)
                      | None => utf8 (toString identity)
                      end |} /\
    (forall b, b <> a -> getRule rs' b = getRule rs b) /\
    map action (rules rs')
    = match getRule rs a with
      | Some _ => map action (rules rs)
      | None => map action (rules rs) ++ [a]
      end.
Proof. exact (appendToRule_spec rs a identity op). Qed.

(** X20.  Appending identities one after the other to an action that has no
    rule yet builds one expression: the name of the first identity, then,
    for each further identity in turn, a space, the operator, a space and its
    name.  The other rules are left as they were, and the action is added
    once, at the end of the list. *)
Theorem appendToRule_joins (rs : Rules) (a op : string) (first : IIdentity)
    (more : list IIdentity) :
  getRule rs a = None ->
  exists rs',
    fold_left (fun acc u => rs ← acc; appendToRule rs a u op) more
              (appendToRule rs a first op) = Return rs' /\
    getRule rs' a = Some {| action := a; expr := joined_expr op first more |} /\
    (forall b, b <> a -> getRule rs' b = getRule rs b) /\
    map action (rules rs') = map action (rules rs) ++ [a].
Proof.
  intros Hnone.
  assert (Hloop : forall (more : list IIdentity) (rs0 : Rules) (e : Buffer),
            getRule rs0 a = Some {| action := a; expr := e |} ->
            exists rs',
              fold_left (fun acc u => rs ← acc; appendToRule rs a u op) more (Return rs0)
              = Return rs' /\
              getRule rs' a
              = Some {| action := a;
                        expr := e ++ concat (map (fun u => utf8 (" " ++ op ++ " " ++ toString u))
                                                 more) |} /\
              (forall b, b <> a -> getRule rs' b = getRule rs0 b) /\
              map action (rules rs') = map action (rules rs0)).
  { clear. intros more. induction more as [|u more IH]; intros rs0 e Hrs0.
    - exists rs0. cbn [fold_left map concat]. rewrite app_nil_r. repeat split; assumption.
    - destruct (appendToRule_spec rs0 a u op) as (rs1 & Hrun & Hget & Hother & Hact).
      rewrite Hrs0 in Hget, Hact. cbn [expr] in Hget.
      destruct (IH rs1 _ Hget) as (rs' & Hfold & Hget' & Hother' & Hact').
      exists rs'. cbn [fold_left mbind result_bind]. rewrite Hrun, Hfold.
      split; [reflexivity|]. split; [|split].
      + rewrite Hget'. cbn [map concat]. rewrite <- app_assoc. reflexivity.
      + intros b Hb. rewrite (Hother' b Hb). apply (Hother b Hb).
      + rewrite Hact'. exact Hact. }
  destruct (appendToRule_spec rs a first op) as (rs1 & Hrun & Hget & Hother & Hact).
  rewrite Hnone in Hget, Hact.
  destruct (Hloop more rs1 _ Hget) as (rs' & Hfold & Hget' & Hother' & Hact').
  exists rs'. rewrite Hrun. split; [exact Hfold|]. split; [exact Hget'|]. split.
  - intros b Hb. rewrite (Hother' b Hb). apply (Hother b Hb).
  - rewrite Hact'. exact Hact.
Qed.

Lemma appendToRule_joins_fixture :
  let A := identity (Fixture.signer "A") in
  let B := identity (Fixture.signer "B") in
  exists rs',
    (rs ← appendToRule {| rules := [] |} "spawn:coin" A Rules_OR;
     appendToRule rs "spawn:coin" B Rules_OR) = Return rs' /\
    getRule rs' "spawn:coin"
    = Some {| action := "spawn:coin"; expr := joined_expr Rules_OR A [B] |}.
Proof.
  intros A B.
  destruct (appendToRule_joins {| rules := [] |} "spawn:coin" Rules_OR A [B] eq_refl)
    as (rs' & Hrun & Hget & _).
  exists rs'. split; [exact Hrun|exact Hget].
Defined.

(** ** Names of delegated identities *)

Lemma hex_digit_inj (n m : Z) :
  0 <= n < 16 -> 0 <= m < 16 -> hex_digit n = hex_digit m -> n = m.
Proof.
  intros Hn Hm H. unfold hex_digit in H. apply (f_equal nat_of_ascii) in H.
  rewrite !nat_ascii_embedding in H.
  - destruct (n <? 10) eqn:En; destruct (m <? 10) eqn:Em;
      try apply Z.ltb_lt in En; try apply Z.ltb_ge in En;
      try apply Z.ltb_lt in Em; try apply Z.ltb_ge in Em; lia.
  - destruct (m <? 10); lia.
  - destruct (n <? 10); lia.
Qed.

Lemma to_hex_inj (a : Buffer) : forall b : Buffer, to_hex a = to_hex b -> a = b.
Proof.
  induction a as [|x a IH]; intros [|y b] H; try discriminate; [reflexivity|].
  cbn [to_hex] in H. injection H as Hhi Hlo Hrest.
  pose proof (Z_of_byte_range x) as Hx. pose proof (Z_of_byte_range y) as Hy.
  apply hex_digit_inj in Hhi;
    [|split; [apply Z.div_pos; lia|apply Z.div_lt_upper_bound; lia] ..].
  apply hex_digit_inj in Hlo; [|apply Z.mod_pos_bound; lia ..].
  f_equal; [|apply IH, Hrest]. apply Z_of_byte_inj.
  rewrite (Z.div_mod (Z_of_byte x) 16), (Z.div_mod (Z_of_byte y) 16) by lia.
  rewrite Hhi, Hlo. reflexivity.
Qed.

Lemma IdentityDarc_toString_inj (d d' : IdentityDarc) :
  IdentityDarc_toString d = IdentityDarc_toString d' -> d = d'.
Proof.
  unfold IdentityDarc_toString. intros H. cbn [String.append] in H.
  injection H as H. apply to_hex_inj in H. destruct d, d'. simpl in H. congruence.
Qed.

(** X21.  Two delegated identities have the same name exactly when they
    hold the same identifier, which is also what they are encoded as; so
    among the signers of a transaction, delegated identities count as one
    signer exactly when they are equal, and [uniqueSigners] leaves a list of
    different delegated identities as it is. *)
Theorem IdentityDarc_named_by_id :
  (forall d d', IdentityDarc_toString d = IdentityDarc_toString d' <-> id d = id d') /\
  (forall d d', IdentityDarc_toString d = IdentityDarc_toString d' ->
                IdentityDarc_toBytes d = IdentityDarc_toBytes d') /\
  (forall ds, NoDup ds ->
              uniqueSigners (map IdentityDarc_IIdentity ds) = map IdentityDarc_IIdentity ds).
Proof.
  split; [|split].
  - intros d d'. split; [intros H; f_equal; apply IdentityDarc_toString_inj, H|].
    unfold IdentityDarc_toString. intros ->. reflexivity.
  - intros d d' H. f_equal. apply IdentityDarc_toString_inj, H.
  - intros ds Hnd.
    refine (eq_trans (filter_index_keep_first (map IdentityDarc_IIdentity ds) []) _).
    apply keep_first_distinct. cbn [app map]. rewrite <- list_fmap_compose.
    apply NoDup_fmap_2; [|exact Hnd].
    intros d d' H. apply IdentityDarc_toString_inj, H.
Qed.

(** ** The attendees of a party *)

Section AttendeeList.

Context {Point : Type}.
Variable Point_equals : Point -> Point -> bool.
Hypothesis Point_equals_eq : forall p q, Point_equals p q = true <-> p = q.

Local Abbreviation is_attendee attendee := (fun pub : Point => Point_equals pub attendee).

Lemma attendee_index (attendee : Point) (l : list Point) :
  (findIndex (is_attendee attendee) l = -1 /\ ~ In attendee l) \/
  (0 <= findIndex (is_attendee attendee) l /\
   l !! Z.to_nat (findIndex (is_attendee attendee) l) = Some attendee).
Proof.
  pose proof (findIndex_bounds (is_attendee attendee) l) as Hb.
  destruct (Z.ltb_spec (findIndex (is_attendee attendee) l) 0) as [Hlt|Hge].
  - left. split; [lia|]. intros Hin.
    pose proof (proj1 (findIndex_none (is_attendee attendee) l) Hlt attendee Hin) as Hf.
    cbv beta in Hf. rewrite (proj2 (Point_equals_eq attendee attendee) eq_refl) in Hf.
    discriminate.
  - right. split; [exact Hge|].
    pose proof (find_findIndex (is_attendee attendee) l) as Hfind.
    rewrite (proj2 (Z.ltb_ge _ _) Hge) in Hfind.
    destruct (List.find (is_attendee attendee) l) as [x|] eqn:Hx.
    + apply find_holds in Hx. cbv beta in Hx. apply Point_equals_eq in Hx. subst x.
      symmetry. exact Hfind.
    + symmetry in Hfind. apply lookup_ge_None in Hfind. lia.
Qed.

Lemma attendee_found (attendee : Point) (l : list Point) :
  In attendee l ->
  0 <= findIndex (is_attendee attendee) l /\
  l !! Z.to_nat (findIndex (is_attendee attendee) l) = Some attendee.
Proof.
  intros Hin. destruct (attendee_index attendee l) as [[_ Hnot]|H]; [contradiction|exact H].
Qed.

Lemma attendee_missing (attendee : Point) (l : list Point) :
  ~ In attendee l -> findIndex (is_attendee attendee) l = -1.
Proof.
  intros Hnot. destruct (attendee_index attendee l) as [[H _]|[_ H]]; [exact H|].
  exfalso. apply Hnot, list_elem_of_In, list_elem_of_lookup. eexists. exact H.
Qed.

Lemma scanning_guard (this : PopPartyInstance Point) :
  party_state this = SCANNING -> negb (party_state this =? SCANNING) = false.
Proof. intros ->. reflexivity. Qed.

(** X22.  [addAttendee] throws unless the party is scanning.  While
    scanning it puts the attendee at the end of the list unless the list
    holds it already: nobody is dropped, a list without repetition stays so,
    and adding the same attendee again changes nothing. *)
Theorem addAttendee_keeps_a_set (this : PopPartyInstance Point) (attendee : Point) :
  (party_state this <> SCANNING ->
   addAttendee Point_equals this attendee = Throw "party is not in attendee-adding mode") /\
  (party_state this = SCANNING ->
   exists this',
     addAttendee Point_equals this attendee = Return this' /\
     party_state this' = SCANNING /\
     (In attendee (tmpAttendees this) -> this' = this) /\
     (~ In attendee (tmpAttendees this) ->
      tmpAttendees this' = tmpAttendees this ++ [attendee]) /\
     (forall p, In p (tmpAttendees this') <-> In p (tmpAttendees this) \/ p = attendee) /\
     (NoDup (tmpAttendees this) -> NoDup (tmpAttendees this')) /\
     addAttendee Point_equals this' attendee = Return this').
Proof.
  split.
  - intros Hstate. unfold addAttendee. apply Z.eqb_neq in Hstate. rewrite Hstate.
    reflexivity.
  - intros Hstate. unfold addAttendee at 1. rewrite (scanning_guard this Hstate).
    destruct (attendee_index attendee (tmpAttendees this)) as [[Hidx Hnot]|[Hidx Hat]].
    + rewrite Hidx. cbn [Z.eqb Pos.eqb]. eexists. split; [reflexivity|].
      cbn [party_state tmpAttendees].
      split; [exact Hstate|]. split; [contradiction|]. split; [reflexivity|].
      split; [|split].
      * intros p. rewrite in_app_iff. simpl. intuition.
      * intros Hnd. apply NoDup_app. split; [exact Hnd|]. split.
        -- intros x Hx Hx'. apply list_elem_of_In in Hx. apply list_elem_of_In in Hx'.
           destruct Hx' as [<-|[]]. contradiction.
        -- apply NoDup_singleton.
      * unfold addAttendee. cbn [party_state tmpAttendees].
        rewrite (scanning_guard this Hstate).
        destruct (attendee_found attendee (tmpAttendees this ++ [attendee])) as [Hge _].
        { apply in_or_app. right. left. reflexivity. }
        rewrite (proj2 (Z.eqb_neq _ _)) by lia. reflexivity.
    + assert (Hin : In attendee (tmpAttendees this)).
      { apply list_elem_of_In, list_elem_of_lookup. eexists. exact Hat. }
      rewrite (proj2 (Z.eqb_neq _ _)) by lia. exists this.
      split; [reflexivity|]. split; [exact Hstate|]. split; [reflexivity|].
      split; [contradiction|]. split; [|split].
      * intros p. split; [tauto|]. intros [H| ->]; assumption.
      * tauto.
      * unfold addAttendee. rewrite (scanning_guard this Hstate).
        rewrite (proj2 (Z.eqb_neq _ _)) by lia. reflexivity.
Qed.

Lemma findIndex_first {A} (f : A -> bool) (l : list A) :
  0 <= findIndex f l ->
  forall y, In y (take (Z.to_nat (findIndex f l)) l) -> f y = false.
Proof.
  induction l as [|x l IH]; cbn [findIndex]; [lia|].
  destruct (f x) eqn:Hx; [intros _ y []|].
  pose proof (findIndex_bounds f l) as Hb.
  destruct (findIndex f l <? 0) eqn:E; [lia|]. apply Z.ltb_ge in E. intros _.
  replace (Z.to_nat (findIndex f l + 1)) with (S (Z.to_nat (findIndex f l))) by lia.
  intros y [<-|Hy]; [exact Hx|]. apply (IH E y Hy).
Qed.

Lemma delete_first (attendee : Point) (l : list Point) (i : nat) :
  l !! i = Some attendee ->
  (length (base.delete i l) + 1 = length l)%nat /\
  (forall p, In p (base.delete i l) -> In p l) /\
  (NoDup l -> ~ In attendee (base.delete i l)).
Proof.
  intros Hat. pose proof (take_drop_middle l i attendee Hat) as Hsplit.
  rewrite delete_take_drop. split; [|split].
  - rewrite <- Hsplit at 3. rewrite !length_app. simpl. lia.
  - intros p Hp. rewrite <- Hsplit. apply in_app_or in Hp. apply in_or_app.
    destruct Hp as [Hp|Hp]; [left; exact Hp|right; right; exact Hp].
  - intros Hnd Hin. rewrite <- Hsplit in Hnd.
    apply NoDup_app in Hnd as (_ & Hdis & Hnd).
    apply NoDup_cons in Hnd as [Hnot _].
    apply in_app_or in Hin as [Hin|Hin].
    + apply (Hdis attendee); [apply list_elem_of_In, Hin|left].
    + apply Hnot, list_elem_of_In, Hin.
Qed.

(** X23.  [removeAttendee] throws unless the party is scanning.  While
    scanning it returns the number of attendees left and takes the first
    occurrence of the attendee out of the list: the attendees in front of
    that occurrence, none of whom is the attendee, and those behind it stay,
    in their order.  So a list without repetition no longer holds the
    attendee; an attendee who is not in the list leaves everything as it was.
    Removing an attendee who has just been added to a list that did not hold
    them gives the list back. *)
Theorem removeAttendee_takes_one_out (this : PopPartyInstance Point) (attendee : Point) :
  (party_state this <> SCANNING ->
   removeAttendee Point_equals this attendee
   = Throw "party is not in attendee-adding mode") /\
  (party_state this = SCANNING ->
   exists this',
     removeAttendee Point_equals this attendee
     = Return (length (tmpAttendees this'), this') /\
     party_state this' = SCANNING /\
     (~ In attendee (tmpAttendees this) -> this' = this) /\
     (In attendee (tmpAttendees this) ->
      (exists before after,
         tmpAttendees this = before ++ attendee :: after /\
         ~ In attendee before /\
         tmpAttendees this' = before ++ after) /\
      (length (tmpAttendees this') + 1 = length (tmpAttendees this))%nat /\
      (forall p, In p (tmpAttendees this') -> In p (tmpAttendees this)) /\
      (NoDup (tmpAttendees this) -> ~ In attendee (tmpAttendees this'))) /\
     (~ In attendee (tmpAttendees this) ->
      (added ← addAttendee Point_equals this attendee;
       removeAttendee Point_equals added attendee)
      = Return (length (tmpAttendees this), this))).
Proof.
  split.
  - intros Hstate. unfold removeAttendee. apply Z.eqb_neq in Hstate. rewrite Hstate.
    reflexivity.
  - intros Hstate. unfold removeAttendee at 1. rewrite (scanning_guard this Hstate).
    cbv zeta.
    destruct (attendee_index attendee (tmpAttendees this)) as [[Hidx Hnot]|[Hidx Hat]].
    + rewrite Hidx. cbn [Z.geb Z.compare]. exists this.
      split; [destruct this; reflexivity|]. split; [exact Hstate|].
      split; [reflexivity|]. split; [contradiction|]. intros _.
      unfold addAttendee. rewrite (scanning_guard this Hstate), Hidx.
      cbn [Z.eqb Pos.eqb mbind result_bind]. unfold removeAttendee.
      cbn [party_state tmpAttendees]. rewrite (scanning_guard this Hstate). cbv zeta.
      assert (Hlast : findIndex (is_attendee attendee) (tmpAttendees this ++ [attendee])
                      = Z.of_nat (length (tmpAttendees this))).
      { apply findIndex_app_first.
        - intros y Hy. cbv beta. destruct (Point_equals y attendee) eqn:E; [|reflexivity].
          apply Point_equals_eq in E. subst y. contradiction.
        - apply Point_equals_eq. reflexivity. }
      rewrite Hlast, (proj2 (Z.geb_le _ _)) by lia. rewrite Nat2Z.id.
      rewrite delete_take_drop, take_app_length.
      rewrite drop_ge by (rewrite length_app; simpl; lia).
      rewrite app_nil_r. destruct this; reflexivity.
    + assert (Hin : In attendee (tmpAttendees this)).
      { apply list_elem_of_In, list_elem_of_lookup. eexists. exact Hat. }
      rewrite (proj2 (Z.geb_le _ _)) by lia.
      exists {| party_state := party_state this;
                tmpAttendees :=
                  base.delete
                    (Z.to_nat (findIndex (is_attendee attendee) (tmpAttendees this)))
                    (tmpAttendees this) |}.
      split; [reflexivity|].
      cbn [party_state tmpAttendees]. split; [exact Hstate|].
      split; [contradiction|]. split; [|contradiction].
      intros _. split; [|apply delete_first; exact Hat].
      exists (take (Z.to_nat (findIndex (is_attendee attendee) (tmpAttendees this)))
                   (tmpAttendees this)),
             (drop (S (Z.to_nat (findIndex (is_attendee attendee) (tmpAttendees this))))
                   (tmpAttendees this)).
      split; [symmetry; apply take_drop_middle; exact Hat|]. split.
      * intros Hbefore.
        pose proof (findIndex_first (is_attendee attendee) (tmpAttendees this) Hidx
                      attendee Hbefore) as Hf.
        cbv beta in Hf. rewrite (proj2 (Point_equals_eq attendee attendee) eq_refl) in Hf.
        discriminate.
      * apply delete_take_drop.
Qed.

End AttendeeList.

Lemma addAttendee_keeps_a_set_fixture :
  let party := {| party_state := SCANNING; tmpAttendees := [4; 7] |} in
  exists party',
    addAttendee Z.eqb party 9 = Return party' /\ tmpAttendees party' = [4; 7; 9].
Proof.
  intros party.
  destruct (proj2 (addAttendee_keeps_a_set Z.eqb Z.eqb_eq party 9) eq_refl)
    as (party' & Hrun & _ & _ & Hnew & _).
  exists party'. split; [exact Hrun|]. apply Hnew. simpl. lia.
Defined.

Lemma removeAttendee_takes_one_out_fixture :
  let party := {| party_state := SCANNING; tmpAttendees := [4; 7] |} in
  (added ← addAttendee Z.eqb party 9; removeAttendee Z.eqb added 9)
  = Return (2%nat, party).
Proof.
  intros party.
  destruct (proj2 (removeAttendee_takes_one_out Z.eqb Z.eqb_eq party 9) eq_refl)
    as (party' & _ & _ & _ & _ & Hround).
  apply Hround. simpl. lia.
Defined.

(** ** Coin instances *)

Lemma run_calls_bind {E : Type -> Type} {A B} (conn : forall X, E X -> result X)
    (m : Calls E A) (f : A -> Calls E B) :
  run_calls conn (Calls_bind m f) =
  match run_calls conn m with
  | (Return a, sent) => let '(r, sent') := run_calls conn (f a) in (r, sent ++ sent')
  | (Throw msg, sent) => (Throw msg, sent)
  end.
Proof.
  induction m as [[a|msg]|X e k IH]; cbn [Calls_bind run_calls].
  - destruct (run_calls conn (f a)); reflexivity.
  - reflexivity.
  - rewrite IH. destruct (run_calls conn (k (conn X e))) as [[a|msg] sent]; [|reflexivity].
    destruct (run_calls conn (f a)); reflexivity.
Qed.

Lemma run_calls_on_conn {E : Type -> Type} {Req Resp A}
    (conn : forall X, E X -> result X) (send : Req -> E Resp) (m : Async Req Resp A) :
  run_calls conn (on_conn send m)
  = (fst (run (fun req => conn _ (send req)) m),
     map (fun req => existT _ (send req)) (snd (run (fun req => conn _ (send req)) m))).
Proof.
  induction m as [r|req k IH]; [reflexivity|]. cbn [on_conn run_calls run]. rewrite IH.
  destruct (run _ (k (conn Resp (send req)))) as [r sent]. reflexivity.
Qed.

Lemma sign_single (inst : Instruction) (signers : list Signer) (h : Buffer) :
  Instruction_hash inst = Return h ->
  signWith {| instructions := [inst] |} [signers]
  = Return {| instructions := [Instruction_signWith inst (sha256 h) signers] |}.
Proof.
  intros Hh. unfold signWith, ClientTransaction_hash.
  cbn [instructions hash_instructions]. rewrite Hh. reflexivity.
Qed.

Section CoinCalls.

Context {Roster AddTxResponse Coin : Type}.
Variable rcatch : string -> result (list Z).
Variable StateChangeBody_decode : Buffer -> result StateChangeBody.
Variable Coin_decode : Buffer -> result Coin.
Variable genesis : SkipBlock Roster.
Variable conn : forall X, Message Roster AddTxResponse X -> result X.

Local Abbreviation counters_request signers :=
  {| signerIDs := map toString (map identity signers); skipchainID := hash genesis |}.
Local Abbreviation sending tx wait :=
  {| inclusionwait := wait; atx_skipchainID := hash genesis; transaction := tx;
     atx_version := currentVersion |}.

Lemma run_fetch_counters (inst : Instruction) (signers : list Signer) :
  run_calls conn (fetch_counters rcatch genesis inst signers)
  = (cs ← match conn _ (send_GetSignerCounters (counters_request signers)) with
          | Return rep => Return (map (fun c => Long_add c 1) (counters rep))
          | Throw e => rcatch e
          end;
     Return (setCounters inst cs (map toWrapper (map identity signers))),
     [existT _ (send_GetSignerCounters (counters_request signers))]).
Proof.
  unfold fetch_counters. rewrite run_calls_on_conn.
  rewrite (run_via (counter_service rcatch genesis)
             (fun req : CounterRequest =>
                {| signerIDs := map toString (fst req); skipchainID := hash genesis |})
             (fun (req : CounterRequest) (r : result GetSignerCountersResponse) =>
                match r with
                | Return rep => Return (map (fun c => Long_add c (snd req)) (counters rep))
                | Throw e => rcatch e
                end)).
  - cbn [Instruction_updateCounters run fst snd map].
    destruct (conn _ (send_GetSignerCounters (counters_request signers))) as [rep|e].
    + reflexivity.
    + destruct (rcatch e); reflexivity.
  - intros req. eexists. split; [reflexivity|]. intros [rep|e]; reflexivity.
Qed.

(** The run of the steps shared by [spawn], [transfer] and [mint]: counters,
    signatures, and the transaction sent. *)
Lemma run_signed_and_sent {B} (inst0 : Instruction) (signers : list Signer)
    (wait : option Z) (next : Instruction -> Calls (Message Roster AddTxResponse) B)
    (rep : GetSignerCountersResponse) :
  contract_and_args inst0 <> None ->
  conn _ (send_GetSignerCounters (counters_request signers)) = Return rep ->
  let inst := setCounters inst0 (map (fun c => Long_add c 1) (counters rep))
                (map toWrapper (map identity signers)) in
  exists h,
    Instruction_hash inst = Return h /\
    let signed := Instruction_signWith inst (sha256 h) signers in
    let areq := sending {| instructions := [signed] |}
                        (match wait with Some w => w | None => 10 end) in
    run_calls conn
      (Calls_bind (fetch_counters rcatch genesis inst0 signers)
         (fun inst =>
            match signWith {| instructions := [inst] |} [signers] with
            | Throw msg => Finished (Throw msg)
            | Return ctx =>
                Calls_bind (on_conn send_AddTxRequest
                              (sendTransactionAndWait genesis ctx wait))
                  (fun _ => next (List.hd inst (instructions ctx)))
            end))
    = match conn _ (send_AddTxRequest areq) with
      | Return _ =>
          let '(r, sent) := run_calls conn (next signed) in
          (r, [existT _ (send_GetSignerCounters (counters_request signers));
               existT _ (send_AddTxRequest areq)] ++ sent)
      | Throw msg =>
          (Throw msg, [existT _ (send_GetSignerCounters (counters_request signers));
                       existT _ (send_AddTxRequest areq)])
      end.
Proof.
  intros Htyped Hrep inst.
  assert (Hh : exists h, Instruction_hash inst = Return h).
  { rewrite Instruction_hash_canonical. unfold canonical_hash.
    change (contract_and_args inst) with (contract_and_args inst0).
    destruct (contract_and_args inst0) as [[[t c] a]|]; [|contradiction].
    eexists. reflexivity. }
  destruct Hh as [h Hh]. exists h. split; [exact Hh|]. intros signed areq.
  rewrite run_calls_bind, run_fetch_counters, Hrep. cbn [mbind result_bind].
  fold inst. rewrite (sign_single inst signers h Hh). fold signed.
  rewrite run_calls_bind, run_calls_on_conn.
  cbn [sendTransactionAndWait run fst snd map instructions List.hd]. fold areq.
  destruct (conn _ (send_AddTxRequest areq)) as [added|msg]; [|reflexivity].
  destruct (run_calls conn (next signed)) as [r sent]. reflexivity.
Qed.

(** X24.  [transfer] and [mint] send two messages.  The first asks for
    the counters of the signers, by name and in the order given.  When it is
    answered, whatever the number of counters in the answer, the second
    carries one invocation on the coin contract for this instance, with the
    counters of the answer plus one, the identities of the signers and their
    signatures over the hash of the transaction; it waits 10 blocks unless
    [mint] is told otherwise.  The outcome is that of the second message.
    When the first message fails and [Log.rcatch] throws, nothing else is
    sent. *)
Theorem CoinInstance_transfer_and_mint (this : CoinInstance Coin) (coins : Z)
    (to : Buffer) (signers : list Signer) (wait : option Z)
    (call : Calls (Message Roster AddTxResponse) unit) (inst0 : Instruction) (w : Z) :
  let id := inst_id (coin_instance this) in
  (call = CoinInstance_transfer rcatch genesis this coins to signers /\
   inst0 = createInvoke id "coin" "transfer"
             [ {| name := "coins"; value := bytesLE 8 coins |};
               {| name := "destination"; value := to |} ] /\
   w = 10) \/
  (call = CoinInstance_mint rcatch genesis this signers coins wait /\
   inst0 = createInvoke id "coin" "mint" [ {| name := "coins"; value := bytesLE 8 coins |} ] /\
   w = match wait with Some blocks => blocks | None => 10 end) ->
  let creq := counters_request signers in
  (forall e msg,
     conn _ (send_GetSignerCounters creq) = Throw e -> rcatch e = Throw msg ->
     run_calls conn call = (Throw msg, [existT _ (send_GetSignerCounters creq)])) /\
  (forall rep,
     conn _ (send_GetSignerCounters creq) = Return rep ->
     let inst := setCounters inst0 (map (fun c => Long_add c 1) (counters rep))
                   (map toWrapper (map identity signers)) in
     exists h,
       Instruction_hash inst = Return h /\
       let ctx := {| instructions := [Instruction_signWith inst (sha256 h) signers] |} in
       ClientTransaction_hash {| instructions := [inst] |} = Return (sha256 h) /\
       run_calls conn call
       = (match conn _ (send_AddTxRequest (sending ctx w)) with
          | Return _ => Return tt
          | Throw msg => Throw msg
          end,
          [existT _ (send_GetSignerCounters creq);
           existT _ (send_AddTxRequest (sending ctx w))])).
Proof.
  intros id Hcall creq.
  assert (Hshape : exists wait',
            w = match wait' with Some blocks => blocks | None => 10 end /\
            contract_and_args inst0 <> None /\
            call = Calls_bind (fetch_counters rcatch genesis inst0 signers)
                     (fun inst =>
                        match signWith {| instructions := [inst] |} [signers] with
                        | Throw msg => Finished (Throw msg)
                        | Return ctx =>
                            Calls_bind (on_conn send_AddTxRequest
                                          (sendTransactionAndWait genesis ctx wait'))
                              (fun _ => (fun _ : Instruction => Finished (Return tt))
                                          (List.hd inst (instructions ctx)))
                        end)).
  { destruct Hcall as [(-> & -> & ->)|(-> & -> & ->)].
    - exists (Some 10). split; [reflexivity|]. split; [discriminate|reflexivity].
    - exists wait. split; [reflexivity|]. split; [discriminate|reflexivity]. }
  destruct Hshape as (wait' & -> & Htyped & ->). clear Hcall. split.
  - intros e msg He Hmsg. rewrite run_calls_bind, run_fetch_counters.
    fold creq. rewrite He, Hmsg. reflexivity.
  - intros rep Hrep inst.
    destruct (run_signed_and_sent inst0 signers wait'
                (fun _ => Finished (Return tt)) rep Htyped Hrep) as (h & Hh & Hrun).
    exists h. split; [exact Hh|]. cbv zeta in Hrun |- *. split.
    + unfold ClientTransaction_hash. cbn [instructions hash_instructions].
      fold inst in Hh. rewrite Hh. reflexivity.
    + fold inst in Hrun. rewrite Hrun.
      destruct (conn _ (send_AddTxRequest _)); reflexivity.
Qed.

(** X25.  [spawn] sends three messages: the request for counters, the
    transaction with the spawn instruction signed, waiting 10 blocks, and the
    request for the proof of the new instance.  The key asked for is the
    identifier derived from the instruction as signed: the digest of its
    hash, the number of signatures, the signatures with their lengths, and
    nothing for the discriminant.  A transaction that is refused ends the
    call before any proof is asked for; the proof received is not verified
    against the chain. *)
Theorem CoinInstance_spawn_messages (darcID : Buffer) (signers : list Signer)
    (type : Buffer) (rep : GetSignerCountersResponse) :
  let creq := counters_request signers in
  let call := CoinInstance_spawn rcatch StateChangeBody_decode Coin_decode genesis
                darcID signers type in
  conn _ (send_GetSignerCounters creq) = Return rep ->
  let inst := setCounters (createSpawn darcID "coin" [ {| name := "type"; value := type |} ])
                (map (fun c => Long_add c 1) (counters rep))
                (map toWrapper (map identity signers)) in
  exists h,
    Instruction_hash inst = Return h /\
    let sigs := map (fun s : Signer => sign s (sha256 h)) signers in
    let ctx := {| instructions := [Instruction_signWith inst (sha256 h) signers] |} in
    let iid := sha256 (derive_input h sigs "") in
    let preq := {| req_id := hash genesis; req_key := iid; req_version := currentVersion |} in
    (forall msg,
       conn _ (send_AddTxRequest (sending ctx 10)) = Throw msg ->
       run_calls conn call
       = (Throw msg, [existT _ (send_GetSignerCounters creq);
                      existT _ (send_AddTxRequest (sending ctx 10))])) /\
    (forall added,
       conn _ (send_AddTxRequest (sending ctx 10)) = Return added ->
       run_calls conn call
       = (match conn _ (send_GetProof preq) with
          | Return reply =>
              inst ← fromProof StateChangeBody_decode iid (proof reply);
              CoinInstance_new Coin_decode inst
          | Throw msg => Throw msg
          end,
          [existT _ (send_GetSignerCounters creq);
           existT _ (send_AddTxRequest (sending ctx 10));
           existT _ (send_GetProof preq)])).
Proof.
  intros creq call Hrep inst.
  destruct (run_signed_and_sent
              (createSpawn darcID "coin" [ {| name := "type"; value := type |} ])
              signers (Some 10)
              (fun inst => match deriveId inst "" with
                           | Throw msg => Finished (Throw msg)
                           | Return iid =>
                               CoinInstance_fromByzcoin StateChangeBody_decode Coin_decode
                                                        genesis iid
                           end)
              rep ltac:(discriminate) Hrep) as (h & Hh & Hrun).
  exists h. split; [exact Hh|]. intros sigs ctx iid preq.
  cbv zeta in Hrun. fold inst in Hrun.
  change (run_calls conn call = _) in Hrun || idtac.
  split.
  - intros msg Hmsg. unfold call, CoinInstance_spawn. cbv zeta. etransitivity; [exact Hrun|].
    fold ctx. rewrite Hmsg. reflexivity.
  - intros added Hadded. unfold call, CoinInstance_spawn. cbv zeta.
    etransitivity; [exact Hrun|]. fold ctx. rewrite Hadded.
    assert (Hid : deriveId (Instruction_signWith inst (sha256 h) signers) "" = Return iid).
    { apply (deriveId_input (Instruction_signWith inst (sha256 h) signers) h "").
      rewrite Instruction_hash_canonical. rewrite Instruction_hash_canonical in Hh.
      exact Hh. }
    rewrite Hid. unfold CoinInstance_fromByzcoin.
    rewrite run_calls_bind, run_calls_on_conn. unfold fromByzCoin. rewrite run_bind.
    cbn [getProof run fst snd map]. fold preq.
    destruct (conn _ (send_GetProof preq)) as [reply|msg]; cbn [run fst snd map app];
      [|reflexivity].
    destruct (fromProof StateChangeBody_decode iid (proof reply)) as [i|msg];
      reflexivity.
Qed.

(** X26.  [update] sends one request for the proof of this instance and
    does not verify the proof against the chain.  It resolves only when the
    walk for the identifier of the instance ends on a leaf with that key, and
    then replaces the coin by the one decoded from the value of the leaf; the
    fields of the instance, its data among them, stay as they were. *)
Theorem CoinInstance_update_replaces_coin (this : CoinInstance Coin) :
  let id := inst_id (coin_instance this) in
  let preq := {| req_id := hash genesis; req_key := id; req_version := currentVersion |} in
  let call := CoinInstance_update StateChangeBody_decode Coin_decode genesis this in
  snd (run_calls conn call) = [existT _ (send_GetProof preq)] /\
  (forall this',
     fst (run_calls conn call) = Return this' ->
     coin_instance this' = coin_instance this /\
     exists reply scb,
       conn _ (send_GetProof preq) = Return reply /\
       Proof_exists (inclusionproof (proof reply)) id = Return true /\
       leaf_key (leaf (inclusionproof (proof reply))) = id /\
       stateChangeBody StateChangeBody_decode (proof reply) = Return scb /\
       Coin_decode (scb_value scb) = Return (coin this')) /\
  (forall reply,
     conn _ (send_GetProof preq) = Return reply ->
     Proof_exists (inclusionproof (proof reply)) id = Return false ->
     fst (run_calls conn call) = Throw "fail to get a matching proof").
Proof.
  intros id preq call. unfold call, CoinInstance_update.
  rewrite run_calls_bind, run_calls_on_conn. cbn [getProof run fst snd map]. fold id preq.
  destruct (conn _ (send_GetProof preq)) as [reply|msg] eqn:Hconn;
    cbn [run fst snd map run_calls app].
  - split; [reflexivity|]. split.
    + intros this'.
      destruct (Proof_exists (inclusionproof (proof reply)) id) as [[|]|m] eqn:Hex;
        try discriminate.
      cbn [mbind result_bind negb].
      destruct (stateChangeBody StateChangeBody_decode (proof reply)) as [scb|m] eqn:Hscb;
        [|discriminate].
      cbn [mbind result_bind].
      destruct (Coin_decode (scb_value scb)) as [c|m] eqn:Hc; [|discriminate].
      cbn [mbind result_bind]. intros [= <-]. split; [reflexivity|].
      exists reply, scb. split; [reflexivity|]. split; [exact Hex|].
      split; [|split; [exact Hscb|exact Hc]].
      destruct (exists_outcome _ _ _ Hex) as (_ & _ & _ & [(_ & _ & Hiff)|(_ & _ & _ & Hf)]);
        [exact (proj1 Hiff eq_refl)|discriminate].
    + intros reply' [= <-] Hex. rewrite Hex. reflexivity.
  - split; [reflexivity|]. split; [discriminate|]. intros reply' Hreply. discriminate.
Qed.

End CoinCalls.

Lemma CoinInstance_transfer_and_mint_fixture :
  let genesis := Fixture.block Fixture.old_roster in
  let this := {| coin_instance := fromFields (utf8 "purse") "coin" [] []; coin := tt |} in
  let signers := [Fixture.signer "A"] in
  fst (run_calls Fixture.refusing
         (CoinInstance_transfer (fun e => Throw e) genesis this 3 (utf8 "to") signers))
  = Throw "refused".
Proof.
  intros genesis this signers.
  destruct (CoinInstance_transfer_and_mint (fun e => Throw e) genesis Fixture.refusing
              this 3 (utf8 "to") signers None _ _ 10
              (or_introl (conj eq_refl (conj eq_refl eq_refl)))) as [_ Hsent].
  destruct (Hsent {| counters := [5] |} eq_refl) as (h & _ & _ & Hrun).
  rewrite Hrun. reflexivity.
Defined.

Lemma CoinInstance_spawn_messages_fixture :
  let genesis := Fixture.block Fixture.old_roster in
  let signers := [Fixture.signer "A"] in
  fst (run_calls Fixture.refusing
         (CoinInstance_spawn (Coin := unit) (fun e => Throw e) (fun _ => Throw "no body")
            (fun _ => Return tt) genesis (utf8 "darc") signers (utf8 "gold")))
  = Throw "refused".
Proof.
  intros genesis signers.
  destruct (CoinInstance_spawn_messages (Coin := unit) (fun e => Throw e)
              (fun _ => Throw "no body") (fun _ => Return tt) genesis Fixture.refusing
              (utf8 "darc") signers (utf8 "gold") {| counters := [5] |} eq_refl)
    as (h & _ & Hrefused & _).
  rewrite (Hrefused "refused" eq_refl). reflexivity.
Defined.

(** ** Ring signatures on the wire *)

Lemma set_each_fills (arrays : list Buffer) :
  forall done rest : Buffer,
    length rest = length (concat arrays) ->
    set_each (done ++ rest) (length done) arrays = Return (done ++ concat arrays).
Proof.
  induction arrays as [|arr arrays IH]; intros done rest Hlen.
  - destruct rest; [reflexivity|discriminate].
  - cbn [concat] in Hlen. rewrite length_app in Hlen.
    cbn [set_each]. unfold typed_set.
    rewrite (proj2 (Nat.leb_le _ _)) by (rewrite length_app; lia).
    cbn [mbind result_bind].
    rewrite <- (take_drop (length arr) rest) at 1.
    rewrite <- (Nat.add_0_r (length done)) at 1.
    rewrite list_inserts_app_r, list_inserts_0_r by (rewrite length_take; lia).
    specialize (IH (done ++ arr) (drop (length arr) rest)).
    rewrite length_app, <- !app_assoc in IH. cbn [concat]. apply IH.
    rewrite length_drop. lia.
Qed.

Lemma fold_total_length (arrays : list Buffer) (n : nat) :
  fold_left (fun total arr => (total + length arr)%nat) arrays n
  = (n + length (concat arrays))%nat.
Proof.
  revert n; induction arrays as [|arr arrays IH]; intros n; simpl; [lia|].
  rewrite IH, length_app. lia.
Qed.

Lemma concatArrays_concat (arrays : list Buffer) :
  concatArrays arrays = Return (concat arrays).
Proof.
  unfold concatArrays. rewrite fold_total_length. cbn [Nat.add].
  apply (set_each_fills arrays [] (repeat Byte.x00 (length (concat arrays)))).
  apply repeat_length.
Qed.

(** X27.  [concatArrays] never writes outside the array that it has
    allocated: it returns the arrays joined in order, whose length is the sum
    of their lengths. *)
Theorem concatArrays_joins (arrays : list Buffer) :
  concatArrays arrays = Return (concat arrays) /\
  length (concat arrays) = fold_left (fun total arr => (total + length arr)%nat) arrays 0%nat.
Proof.
  split; [apply concatArrays_concat|]. rewrite fold_total_length. reflexivity.
Qed.

Lemma slice_middle (a b c : Buffer) :
  slice (a ++ b ++ c) (Z.of_nat (length a)) (Z.of_nat (length a) + Z.of_nat (length b)) = b.
Proof.
  unfold slice, slice_index.
  rewrite (proj2 (Z.ltb_ge _ _)), (proj2 (Z.ltb_ge _ _)) by lia.
  rewrite !length_app.
  replace (Nat.min (Z.to_nat (Z.of_nat (length a))) _) with (length a) by lia.
  replace (Nat.min (Z.to_nat (Z.of_nat (length a) + Z.of_nat (length b))) _)
    with (length a + length b)%nat by lia.
  rewrite drop_app_length.
  replace (length a + length b - length a)%nat with (length b) by lia.
  apply take_app_length.
Qed.

Section RingSignatureWire.

Context {Private Public : Type}.
Variable size : nat.
Variable Private_toBuffer : Private -> Buffer.
Variable Private_fromBuffer : Buffer -> result Private.
Variable Public_toBuffer : Public -> Buffer.
Variable Public_fromBuffer : Buffer -> result Public.

Hypothesis size_positive : (0 < size)%nat.
Hypothesis Private_size : forall s, length (Private_toBuffer s) = size.
Hypothesis Public_size : forall p, length (Public_toBuffer p) = size.
Hypothesis Private_round_trip : forall s, Private_fromBuffer (Private_toBuffer s) = Return s.
Hypothesis Public_round_trip : forall p, Public_fromBuffer (Public_toBuffer p) = Return p.

Lemma length_scalars (scalars : list Private) :
  length (concat (map Private_toBuffer scalars)) = (length scalars * size)%nat.
Proof.
  induction scalars as [|s scalars IH]; [reflexivity|].
  cbn [map concat length]. rewrite length_app, IH, Private_size. lia.
Qed.

Lemma decode_scalars_reads (scalars : list Private) :
  forall (done rest : Buffer) (fuel : nat),
    (length scalars <= fuel)%nat ->
    decode_scalars size Private_fromBuffer fuel
      (done ++ concat (map Private_toBuffer scalars) ++ rest)
      (Z.of_nat (length done))
      (Z.of_nat (length done) + Z.of_nat (length scalars * size))
    = Some (Return scalars).
Proof.
  induction scalars as [|s scalars IH]; intros done rest fuel Hfuel.
  - destruct fuel; cbn [decode_scalars length Nat.mul];
      rewrite (proj2 (Z.ltb_ge _ _)) by lia; reflexivity.
  - destruct fuel as [|fuel]; [simpl in Hfuel; lia|].
    cbn [decode_scalars]. rewrite (proj2 (Z.ltb_lt _ _)) by (simpl; lia).
    cbn [map concat]. rewrite <- (app_assoc (Private_toBuffer s)).
    rewrite <- (Private_size s) at 1. rewrite slice_middle, Private_round_trip.
    specialize (IH (done ++ Private_toBuffer s) rest fuel ltac:(simpl in Hfuel; lia)).
    rewrite length_app, Private_size, <- app_assoc in IH.
    replace (Z.of_nat (length done) + Z.of_nat size)
      with (Z.of_nat (length done + size)) by lia.
    replace (Z.of_nat (length done) + Z.of_nat (length (s :: scalars) * size))
      with (Z.of_nat (length done + size) + Z.of_nat (length scalars * size))
      by (simpl; lia).
    rewrite IH. reflexivity.
Qed.

(** X28.  With scalars and points of one size on the wire, as on the
    curve in use, a signature that is encoded and decoded again is the
    signature it was: [encode] writes the first scalar, the scalars and, when
    there is one, the tag, and [decodeSignature], told whether a tag is
    there, reads them back in as many rounds as there are scalars.  (The
    first scalar is read on the size of a point.) *)
Theorem decodeSignature_reads_encode (sig : RingSig Private Public) :
  exists buf,
    RingSig_encode Private_toBuffer Public_toBuffer sig = Return buf /\
    length buf = ((1 + length (sig_S sig) + match Tag sig with Some _ => 1 | None => 0 end)
                  * size)%nat /\
    forall fuel,
      (length (sig_S sig) <= fuel)%nat ->
      decodeSignature size size Private_fromBuffer Public_fromBuffer fuel buf
                      (match Tag sig with Some _ => true | None => false end)
      = Some (Return sig).
Proof.
  destruct sig as [c0 scalars tag]. cbn [sig_S Tag C0].
  set (wire := match tag with Some t => Public_toBuffer t | None => [] end).
  exists (Private_toBuffer c0 ++ concat (map Private_toBuffer scalars) ++ wire).
  assert (Hwire : length wire = (match tag with Some _ => 1 | None => 0 end * size)%nat).
  { unfold wire. destruct tag; [rewrite Public_size; lia|reflexivity]. }
  split; [|split].
  - unfold RingSig_encode. cbn [C0 sig_S Tag]. rewrite concatArrays_concat. f_equal.
    unfold wire. destruct tag; cbn [app concat].
    + rewrite concat_app. cbn [concat]. rewrite app_nil_r. reflexivity.
    + rewrite app_nil_r. reflexivity.
  - rewrite !length_app, Private_size, length_scalars, Hwire. lia.
  - intros fuel Hfuel. unfold decodeSignature.
    pose proof (slice_middle [] (Private_toBuffer c0)
                  (concat (map Private_toBuffer scalars) ++ wire)) as Hfirst.
    cbn [app length] in Hfirst. rewrite Private_size in Hfirst.
    change (Z.of_nat 0) with 0 in Hfirst. rewrite Z.add_0_l in Hfirst.
    rewrite Hfirst, Private_round_trip. clear Hfirst.
    pose proof (decode_scalars_reads scalars (Private_toBuffer c0) wire fuel Hfuel) as Hloop.
    rewrite Private_size in Hloop.
    assert (Hlen : Z.of_nat (length (Private_toBuffer c0 ++
                                     concat (map Private_toBuffer scalars) ++ wire))
                   = Z.of_nat size + Z.of_nat (length scalars * size)
                     + Z.of_nat (length wire)).
    { rewrite !length_app, Private_size, length_scalars. lia. }
    rewrite Hlen. destruct tag as [t|].
    + replace (Z.of_nat size + Z.of_nat (length scalars * size) + Z.of_nat (length wire)
               - Z.of_nat size)
        with (Z.of_nat size + Z.of_nat (length scalars * size)) by lia.
      rewrite Hloop.
      pose proof (slice_middle (Private_toBuffer c0 ++ concat (map Private_toBuffer scalars))
                    wire []) as Hlast.
      rewrite app_nil_r, <- app_assoc, length_app, Private_size, length_scalars in Hlast.
      replace (Z.of_nat (size + length scalars * size))
        with (Z.of_nat size + Z.of_nat (length scalars * size)) in Hlast by lia.
      rewrite Hlast. unfold wire. rewrite Public_round_trip. reflexivity.
    + replace (Z.of_nat size + Z.of_nat (length scalars * size) + Z.of_nat (length wire))
        with (Z.of_nat size + Z.of_nat (length scalars * size)) by lia.
      rewrite Hloop. reflexivity.
Qed.

End RingSignatureWire.

Lemma decodeSignature_reads_encode_fixture :
  let to_wire := fun b : Byte.byte => [b] in
  let of_wire := fun buf : Buffer =>
                   match buf with [b] => Return b | _ => Throw "size" end in
  let sig := {| C0 := Byte.x01; sig_S := [Byte.x02; Byte.x03]; Tag := Some Byte.x04 |} in
  exists buf,
    RingSig_encode to_wire to_wire sig = Return buf /\
    decodeSignature 1 1 of_wire of_wire 2 buf true = Some (Return sig).
Proof.
  intros to_wire of_wire sig.
  destruct (decodeSignature_reads_encode 1 to_wire of_wire to_wire of_wire
              ltac:(lia) ltac:(reflexivity) ltac:(reflexivity)
              ltac:(reflexivity) ltac:(reflexivity) sig) as (buf & Henc & _ & Hdec).
  exists buf. split; [exact Henc|]. apply (Hdec 2%nat). simpl. lia.
Defined.
